(** * Vertex candidates of the Projection Matching Algorithm

    A shallow embedding of [pma::VtxCandidate]
    (RecoAlg/PMAlg/PmaVtxCandidate.cxx), the properties of it that the
    specification states, and further properties of its member functions.

    - [double] is the kernel's binary64 type [float]: [+ - * /], [sqrt],
      [fabs] and the comparisons are the IEEE 754 operations, so NaN and
      infinities behave as they do in the compiled code.
    - [size_t] is [Z] with the wrap-around modulo [2^64] written out.
    - Pointers into the track graph ([Track3D*], [Node3D*], [Segment3D*]) are
      names; the graph itself and every other collaborator (utilities,
      geometry service, libm) are reached through interfaces, as in the
      source, and are parameters of the development.
    - A call ends in a value, in a [cet::exception], or in undefined behaviour
      (an index past the end of a vector, a null pointer dereferenced): the
      three cases of [Outcome].
    - Of the messages only the [LogError] of [JoinTracks] is kept, as part of
      what a call answers; [LogVerbatim] and [LogWarning] do not act on the
      candidate and are left out. *)

From Stdlib Require Import ZArith List Bool String Lia Floats Permutation.
From Stdlib Require Uint63.
Import ListNotations.

Set Warnings "-inexact-float".

(** ** Outcomes *)

Inductive Outcome (A : Type) : Type :=
| Ok (a : A)
| Throw (what : string)
| Undefined.

Arguments Ok {A} a.
Arguments Throw {A} what.
Arguments Undefined {A}.

Definition bind {A B : Type} (m : Outcome A) (k : A -> Outcome B) : Outcome B :=
  match m with
  | Ok a => k a
  | Throw w => Throw w
  | Undefined => Undefined
  end.

Declare Scope outcome_scope.
Delimit Scope outcome_scope with outcome.
Notation "x <- m ;; k" := (bind m (fun x => k))
  (at level 61, m at next level, right associativity) : outcome_scope.
Notation "' p <- m ;; k" := (bind m (fun x => match x with p => k end))
  (at level 61, p pattern, m at next level, right associativity) : outcome_scope.

(** A pointer that may be null, dereferenced. *)
Definition deref {A : Type} (p : option A) : Outcome A :=
  match p with
  | Some a => Ok a
  | None => Undefined
  end.

(** ** [size_t] and [int] *)

Definition size_max : Z := 2 ^ 64.
Definition to_size_t (z : Z) : Z := z mod size_max.
Definition size_add (a b : Z) : Z := to_size_t (a + b).
Definition size_sub (a b : Z) : Z := to_size_t (a - b).
Definition to_int (z : Z) : Z := (z + 2 ^ 31) mod 2 ^ 32 - 2 ^ 31.

Definition size {A : Type} (v : list A) : Z := Z.of_nat (List.length v).

(** [v[i]] of a [std::vector]: undefined behaviour past the end. *)
Definition at_ {A : Type} (v : list A) (i : Z) : Outcome A :=
  if (i <? 0)%Z then Undefined else deref (nth_error v (Z.to_nat i)).

(** [(double) n] for a count [n] (exact below [2^53]). *)
Definition to_double (n : Z) : float := PrimFloat.of_uint63 (Uint63.of_Z n).

(** ** ROOT vectors *)

Open Scope float_scope.

Record TVector3 : Set := mkV3 { X : float; Y : float; Z_ : float }.
Record TVector2 : Set := mkV2 { X2 : float; Y2 : float }.

Definition v3_zero : TVector3 := mkV3 0 0 0.
Definition v3_sub (a b : TVector3) : TVector3 :=
  mkV3 (X a - X b) (Y a - Y b) (Z_ a - Z_ b).
Definition v3_scale (a : TVector3) (k : float) : TVector3 :=
  mkV3 (X a * k) (Y a * k) (Z_ a * k).
Definition v3_dot (a b : TVector3) : float :=
  X a * X b + Y a * Y b + Z_ a * Z_ b.
Definition v3_Mag (a : TVector3) : float :=
  sqrt (X a * X a + Y a * Y a + Z_ a * Z_ a).

Definition Pi : float := 0x1.921fb54442d18p+1.

(** ** Collaborators *)

Definition TrackPtr := nat.
Definition NodePtr := nat.
Definition SegPtr := nat.

Inductive View : Set := kU | kV | kZ.

(** The track graph: what the candidate reads from and does to [Track3D],
    [Node3D] and [Segment3D].  The reading members are used by every
    operation; the others only by [JoinTracks]. *)
Class TrackGraph (G : Type) : Type := {
  trk_Nodes : G -> TrackPtr -> list NodePtr;
  trk_NextSegment : G -> TrackPtr -> NodePtr -> option SegPtr;
  trk_Length : G -> TrackPtr -> float;
  trk_GetRoot : G -> TrackPtr -> option TrackPtr;
  trk_IsAttachedTo : G -> TrackPtr -> TrackPtr -> bool;
  trk_CanFlip : G -> TrackPtr -> bool;
  trk_Flip : G -> TrackPtr -> G;
  trk_AttachTo : G -> TrackPtr -> option NodePtr -> bool -> bool * G;
  trk_AttachBackTo : G -> TrackPtr -> option NodePtr -> bool * G;
  trk_InsertNode : G -> TrackPtr -> TVector3 -> Z -> Z -> Z -> G;
  trk_Split : G -> TrackPtr -> Z -> option TrackPtr * G;
  trk_MakeProjection : G -> TrackPtr -> G;
  trk_GetBranches : G -> TrackPtr -> bool * list TrackPtr;
  trk_TuneFullTree : G -> TrackPtr -> float * G;
  trk_delete : G -> TrackPtr -> G;
  node_Point3D : G -> NodePtr -> TVector3;
  node_SetPoint3D : G -> NodePtr -> TVector3 -> G;
  node_TPC : G -> NodePtr -> Z;
  node_Cryo : G -> NodePtr -> Z;
  node_Prev : G -> NodePtr -> option SegPtr;
  node_NextCount : G -> NodePtr -> Z;
  node_Next : G -> NodePtr -> Z -> option SegPtr;
  node_GetBranches : G -> NodePtr -> list TrackPtr;
  seg_Length : G -> SegPtr -> float;
  seg_Prev : G -> SegPtr -> option NodePtr;
  seg_Next : G -> SegPtr -> Z -> option NodePtr;
  seg_Parent : G -> SegPtr -> TrackPtr;
  seg_GetDistance2To : G -> SegPtr -> TVector3 -> float;
  seg_GetDistance2To2D : G -> SegPtr -> TVector2 -> View -> float
}.

(** RecoAlg/PMAlg/Utilities.h and the geometry service. *)
Class Utilities : Type := {
  Dist2 : TVector3 -> TVector3 -> float;
  GetSegmentProjVector : TVector3 -> TVector3 -> TVector3 -> float;
  GetProjectionToSegment : TVector3 -> TVector3 -> TVector3 -> TVector3;
  GetProjectionToPlane : TVector3 -> View -> Z -> Z -> TVector2;
  SolveLeastSquares3D : list (TVector3 * TVector3) -> float * TVector3;
  geo_HasPlane : Z -> Z -> View -> bool
}.

(** The functions of [<cmath>] that are not IEEE 754 basic operations. *)
Class Libm : Type := {
  asin : float -> float;
  acos : float -> float;
  pow : float -> float -> float
}.

(** ** The candidate *)

Record TrkCandidate : Set := mkTrk { Track : TrackPtr; Key : Z }.
Arguments mkTrk Track%_nat Key%_Z.

Record VtxCandidate : Set := mkVtx {
  tracksJoined : bool;
  fSegMinLength : float;
  fAssigned : list (TrkCandidate * Z);
  fCenter : TVector3;
  fErr : TVector3;
  fMse : float;
  fMse2D : float
}.

Definition set_fAssigned (c : VtxCandidate) (a : list (TrkCandidate * Z)) : VtxCandidate :=
  mkVtx (tracksJoined c) (fSegMinLength c) a (fCenter c) (fErr c) (fMse c) (fMse2D c).
Definition set_fit (c : VtxCandidate) (center err : TVector3) : VtxCandidate :=
  mkVtx (tracksJoined c) (fSegMinLength c) (fAssigned c) center err (fMse c) (fMse2D c).
Definition set_fCenter (c : VtxCandidate) (center : TVector3) : VtxCandidate :=
  set_fit c center (fErr c).
Definition set_fMse (c : VtxCandidate) (mse : float) : VtxCandidate :=
  mkVtx (tracksJoined c) (fSegMinLength c) (fAssigned c) (fCenter c) (fErr c) mse (fMse2D c).
Definition set_fMse2D (c : VtxCandidate) (mse2D : float) : VtxCandidate :=
  mkVtx (tracksJoined c) (fSegMinLength c) (fAssigned c) (fCenter c) (fErr c) (fMse c) mse2D.
Definition set_tracksJoined (c : VtxCandidate) (b : bool) : VtxCandidate :=
  mkVtx b (fSegMinLength c) (fAssigned c) (fCenter c) (fErr c) (fMse c) (fMse2D c).

Definition kMaxDistToTrack : float := 4.0.
Definition kMinDistToNode : float := 2.0.

(** [fAssigned.back().second = n] and [fAssigned.front().second = m]. *)
Fixpoint set_back_second (a : list (TrkCandidate * Z)) (n : Z) : list (TrkCandidate * Z) :=
  match a with
  | [] => []
  | [(t, _)] => [(t, n)]
  | x :: rest => x :: set_back_second rest n
  end.

Definition set_front_second (a : list (TrkCandidate * Z)) (m : Z) : list (TrkCandidate * Z) :=
  match a with
  | [] => []
  | (t, _) :: rest => (t, m) :: rest
  end.

(** [n] times [pop_back()]. *)
Fixpoint pop_back_n {A : Type} (n : nat) (v : list A) : list A :=
  match n with
  | O => v
  | S k => pop_back_n k (removelast v)
  end.

(** [a > b] and [a >= b] on [double]. *)
Definition gtb (a b : float) : bool := b <? a.
Definition geb (a b : float) : bool := b <=? a.
Infix ">?" := gtb (at level 70, no associativity) : float_scope.
Infix ">=?" := geb (at level 70, no associativity) : float_scope.

(** [c] is a finite number other than zero. *)
Definition finite_nonzero (c : float) : bool :=
  match Prim2SF c with
  | S754_finite _ _ _ => true
  | _ => false
  end.

(** [m] is [m0] or below it. *)
Definition below (m m0 : float) : Prop := (m <? m0) = true \/ m = m0.

(** One entry of the three vectors [segments], [lines] and [weights] that
    [Compute] fills together. *)
Record FitLine : Set := mkLine {
  line_seg : SegPtr;
  line_ends : TVector3 * TVector3;
  line_w : float
}.

Section Candidate.

Context {G : Type} {TG : TrackGraph G} {U : Utilities} {M : Libm}.

(** ** Membership queries *)

Fixpoint Has_in (assigned : list (TrkCandidate * Z)) (trk : TrackPtr) : bool :=
  match assigned with
  | [] => false
  | t :: rest => if Nat.eqb trk (Track (fst t)) then true else Has_in rest trk
  end.

Definition Has (c : VtxCandidate) (trk : TrackPtr) : bool := Has_in (fAssigned c) trk.

Fixpoint IsAttached_in (g : G) (rootTrk : TrackPtr) (assigned : list (TrkCandidate * Z))
  : Outcome bool :=
  match assigned with
  | [] => Ok false
  | t :: rest =>
      match trk_GetRoot g (Track (fst t)) with
      | None => Throw "Broken track."
      | Some rootAssn =>
          if trk_IsAttachedTo g rootTrk rootAssn then Ok true
          else IsAttached_in g rootTrk rest
      end
  end.

Definition IsAttached (g : G) (c : VtxCandidate) (trk : TrackPtr) : Outcome bool :=
  match trk_GetRoot g trk with
  | None => Throw "Broken track."
  | Some rootTrk => IsAttached_in g rootTrk (fAssigned c)
  end.

(** [Has(const VtxCandidate&)] and [IsAttached(const VtxCandidate&)]. *)
Fixpoint Has_all (c : VtxCandidate) (others : list (TrkCandidate * Z)) : bool :=
  match others with
  | [] => true
  | t :: rest => if negb (Has c (Track (fst t))) then false else Has_all c rest
  end.

Definition Has_candidate (c other : VtxCandidate) : bool := Has_all c (fAssigned other).

Fixpoint IsAttached_any (g : G) (c : VtxCandidate) (others : list (TrkCandidate * Z))
  : Outcome bool :=
  match others with
  | [] => Ok false
  | t :: rest =>
      (attached <- IsAttached g c (Track (fst t)) ;;
       if attached then Ok true else IsAttached_any g c rest)%outcome
  end.

Definition IsAttached_candidate (g : G) (c other : VtxCandidate) : Outcome bool :=
  IsAttached_any g c (fAssigned other).

(** [HasLoops]: the inner loop over [u], for the root [trk_t] of entry [t]. *)
Fixpoint HasLoops_inner (g : G) (trk_t : TrackPtr) (t : Z) (rest : list (TrkCandidate * Z))
  (u : Z) : Outcome bool :=
  match rest with
  | [] => Ok false
  | e :: rest' =>
      if negb (t =? u)%Z then
        match trk_GetRoot g (Track (fst e)) with
        | None => Throw "Broken track."
        | Some trk_u =>
            if trk_IsAttachedTo g trk_t trk_u then Ok true
            else HasLoops_inner g trk_t t rest' (u + 1)%Z
        end
      else HasLoops_inner g trk_t t rest' (u + 1)%Z
  end.

(** The outer loop over [t]: [rest] is what is left of [assigned] from [t] on. *)
Fixpoint HasLoops_outer (g : G) (assigned rest : list (TrkCandidate * Z)) (t : Z)
  : Outcome bool :=
  match rest with
  | [] => Ok false
  | e :: rest' =>
      match trk_GetRoot g (Track (fst e)) with
      | None => Throw "Broken track."
      | Some trk_t =>
          (found <- HasLoops_inner g trk_t t assigned 0 ;;
           if found then Ok true else HasLoops_outer g assigned rest' (t + 1)%Z)%outcome
      end
  end.

Definition HasLoops (g : G) (c : VtxCandidate) : Outcome bool :=
  HasLoops_outer g (fAssigned c) (fAssigned c) 0.

(** [Size(minLength)]: the assigned tracks longer than [minLength]. *)
Fixpoint Size_in (g : G) (minLength : float) (assigned : list (TrkCandidate * Z)) (n : Z) : Z :=
  match assigned with
  | [] => n
  | c :: rest =>
      if trk_Length g (Track (fst c)) >? minLength then Size_in g minLength rest (to_size_t (n + 1))
      else Size_in g minLength rest n
  end.

Definition Size (g : G) (c : VtxCandidate) (minLength : float) : Z :=
  Size_in g minLength (fAssigned c) 0.

(** ** The fit: [Compute] *)

Definition segment_fy_norm (dy segLength : float) : float :=
  asin (abs dy / segLength) / (0.5 * Pi).

Definition segment_weight_raw (dy segLength : float) : float :=
  1.0 - pow (segment_fy_norm dy segLength - 1.0) 12.

Definition segment_weight (dy segLength : float) : float :=
  let w := segment_weight_raw dy segLength in
  if w <? 0.3 then 0.3 else w.

(** The first loop of [Compute]: the segments that enter the fit. *)
Fixpoint Compute_collect (g : G) (segMinLength : float) (assigned : list (TrkCandidate * Z))
  : Outcome (list FitLine) :=
  match assigned with
  | [] => Ok []
  | v :: rest =>
      let trk := Track (fst v) in
      let vIdx := to_int (snd v) in
      (vtx1 <- at_ (trk_Nodes g trk) (to_size_t vIdx) ;;
       seg <- deref (trk_NextSegment g trk vtx1) ;;
       let segLength := seg_Length g seg in
       if segLength >=? segMinLength then
         (vtx2 <- deref (seg_Next g seg 0) ;;
          let endpoints := (node_Point3D g vtx1, node_Point3D g vtx2) in
          let dy := Y (fst endpoints) - Y (snd endpoints) in
          let w := segment_weight dy segLength in
          more <- Compute_collect g segMinLength rest ;;
          Ok (mkLine seg endpoints w :: more))
       else Compute_collect g segMinLength rest)%outcome
  end.

(** The second loop: the sums behind [fCenter] and [fErr], and [wsum]. *)
Fixpoint Compute_sums (g : G) (result : TVector3) (lines : list FitLine)
  (acc : TVector3 * TVector3 * float) : Outcome (TVector3 * TVector3 * float) :=
  match lines with
  | [] => Ok acc
  | l :: rest =>
      let '(center, err, wsum) := acc in
      (vprev <- deref (seg_Prev g (line_seg l)) ;;
       vnext <- deref (seg_Next g (line_seg l) 0) ;;
       let pproj := GetProjectionToSegment result (node_Point3D g vprev) (node_Point3D g vnext) in
       let w := line_w l in
       let err := mkV3 (X err + w * w) (Y err + 1.0) (Z_ err + 1.0) in
       let center := mkV3 (X center + w * X pproj) (Y center + Y pproj) (Z_ center + Z_ pproj) in
       Compute_sums g result rest (center, err, wsum + w))%outcome
  end.

Definition Compute (g : G) (c : VtxCandidate) : Outcome (float * VtxCandidate) :=
  (lines <- Compute_collect g (fSegMinLength c) (fAssigned c) ;;
   let c0 := set_fit c v3_zero v3_zero in
   let '(resultMse, result) := SolveLeastSquares3D (map line_ends lines) in
   if resultMse <? 0.0 then Ok (1.0E+6, c0)
   else
     ' (center, err, wsum) <- Compute_sums g result lines (v3_zero, v3_zero, 0.0) ;;
     let n := to_double (size lines) in
     let center := mkV3 (X center / wsum) (Y center / n) (Z_ center / n) in
     let err := v3_scale err (1.0 / n) in
     let err := mkV3 (PrimFloat.sqrt (X err)) (PrimFloat.sqrt (Y err)) (PrimFloat.sqrt (Z_ err)) in
     Ok (resultMse, set_fit c center err))%outcome.

(** ** The 2D residual: [ComputeMse2D] *)

Definition ComputeMse2D_plane (g : G) (seg : option SegPtr) (center : TVector3)
  (tpc cryo : Z) (view : View) (mk : float * Z) : Outcome (float * Z) :=
  if geo_HasPlane tpc cryo view then
    (s <- deref seg ;;
     let center2d := GetProjectionToPlane center view tpc cryo in
     Ok (fst mk + seg_GetDistance2To2D g s center2d view, (snd mk + 1)%Z))%outcome
  else Ok mk.

Fixpoint ComputeMse2D_sum (g : G) (center : TVector3) (assigned : list (TrkCandidate * Z))
  (mse : float) : Outcome float :=
  match assigned with
  | [] => Ok mse
  | t :: rest =>
      let trk := Track (fst t) in
      (nd <- at_ (trk_Nodes g trk) (snd t) ;;
       let seg := trk_NextSegment g trk nd in
       let tpc := node_TPC g nd in
       let cryo := node_Cryo g nd in
       mk <- ComputeMse2D_plane g seg center tpc cryo kU (0.0, 0%Z) ;;
       mk <- ComputeMse2D_plane g seg center tpc cryo kV mk ;;
       mk <- ComputeMse2D_plane g seg center tpc cryo kZ mk ;;
       ComputeMse2D_sum g center rest (mse + fst mk / to_double (snd mk)))%outcome
  end.

Definition ComputeMse2D (g : G) (c : VtxCandidate) : Outcome float :=
  (mse <- ComputeMse2D_sum g (fCenter c) (fAssigned c) 0.0 ;;
   Ok (mse / to_double (size (fAssigned c))))%outcome.

(** ** The incremental builder: [Add] *)

(** The locals of the search of [Add] when the candidate reaches three or
    more tracks, together with the candidate they are searched on. *)
Record Scan3 : Set := mkScan3 {
  s3_c : VtxCandidate;
  s3_min_mse : float;
  s3_n_best : Z;
  s3_d_best : float
}.

(** One turn of that loop, at node [nd] = [Nodes()[n]] of the new track. *)
Definition Add_try3 (g : G) (trk : TrackPtr) (nd : NodePtr) (n : Z) (st : Scan3)
  : Outcome Scan3 :=
  (seg <- deref (trk_NextSegment g trk nd) ;;
   if seg_Length g seg <? fSegMinLength (s3_c st) then Ok st
   else
     let c := set_fAssigned (s3_c st) (set_back_second (fAssigned (s3_c st)) n) in
     ' (mse, c) <- Compute g c ;;
     if mse <? s3_min_mse st then
       let d := PrimFloat.sqrt (seg_GetDistance2To g seg (fCenter c)) in
       if d <? s3_d_best st then Ok (mkScan3 c mse n d)
       else Ok (mkScan3 c (s3_min_mse st) (s3_n_best st) (s3_d_best st))
     else Ok (mkScan3 c (s3_min_mse st) (s3_n_best st) (s3_d_best st)))%outcome.

(** [for (size_t n = 0; n < Nodes().size() - 1; n++)]: [nodes] is what is
    left of [Nodes()] from index [n] on. *)
Fixpoint Add_scan3 (g : G) (trk : TrackPtr) (bound : Z) (nodes : list NodePtr) (n : Z)
  (st : Scan3) : Outcome Scan3 :=
  if (n <? bound)%Z then
    match nodes with
    | [] => Undefined
    | nd :: rest =>
        (st' <- Add_try3 g trk nd n st ;;
         Add_scan3 g trk bound rest (n + 1)%Z st')%outcome
    end
  else Ok st.

(** The locals of the nested search when the candidate reaches two tracks. *)
Record Scan2 : Set := mkScan2 {
  s2_c : VtxCandidate;
  s2_min_mse : float;
  s2_n_best : Z;
  s2_m_best : Z;
  s2_d_best : float;
  s2_l_best : float
}.

Definition s2_with_c (st : Scan2) (c : VtxCandidate) : Scan2 :=
  mkScan2 c (s2_min_mse st) (s2_n_best st) (s2_m_best st) (s2_d_best st) (s2_l_best st).

Definition Add_try2 (g : G) (trk : TrackPtr) (nd : NodePtr) (n m : Z) (lm : float)
  (st : Scan2) : Outcome Scan2 :=
  (seg_n <- deref (trk_NextSegment g trk nd) ;;
   let ln := seg_Length g seg_n in
   if ln <? fSegMinLength (s2_c st) then Ok st
   else
     let c := set_fAssigned (s2_c st) (set_back_second (fAssigned (s2_c st)) n) in
     ' (mse, c) <- Compute g c ;;
     mse2d <- ComputeMse2D g c ;;
     let d := PrimFloat.sqrt mse2d in
     if d <? s2_d_best st then
       let d_dist := (s2_d_best st - d) / s2_d_best st in
       if lm + ln >? 0.8 * d_dist * s2_l_best st then Ok (mkScan2 c mse n m d (lm + ln))
       else Ok (s2_with_c st c)
     else Ok (s2_with_c st c))%outcome.

Fixpoint Add_scan2_inner (g : G) (trk : TrackPtr) (bound : Z) (nodes : list NodePtr) (n m : Z)
  (lm : float) (st : Scan2) : Outcome Scan2 :=
  if (n <? bound)%Z then
    match nodes with
    | [] => Undefined
    | nd :: rest =>
        (st' <- Add_try2 g trk nd n m lm st ;;
         Add_scan2_inner g trk bound rest (n + 1)%Z m lm st')%outcome
    end
  else Ok st.

Fixpoint Add_scan2 (g : G) (p0 trk : TrackPtr) (bound0 : Z) (nodes0 : list NodePtr) (m : Z)
  (st : Scan2) : Outcome Scan2 :=
  if (m <? bound0)%Z then
    match nodes0 with
    | [] => Undefined
    | nd :: rest =>
        (seg_m <- deref (trk_NextSegment g p0 nd) ;;
         let lm := seg_Length g seg_m in
         if lm <? fSegMinLength (s2_c st) then Add_scan2 g p0 trk bound0 rest (m + 1)%Z st
         else
           let c := set_fAssigned (s2_c st) (set_front_second (fAssigned (s2_c st)) m) in
           let nodes := trk_Nodes g trk in
           st' <- Add_scan2_inner g trk (size_sub (size nodes) 1) nodes 0 m lm (s2_with_c st c) ;;
           Add_scan2 g p0 trk bound0 rest (m + 1)%Z st')%outcome
    end
  else Ok st.

(** The loop of the first track: is there a segment long enough? *)
Fixpoint Add_any_long (g : G) (trk : TrackPtr) (segMinLength : float) (bound : Z)
  (nodes : list NodePtr) (n : Z) : Outcome bool :=
  if (n <? bound)%Z then
    match nodes with
    | [] => Undefined
    | nd :: rest =>
        (seg <- deref (trk_NextSegment g trk nd) ;;
         if seg_Length g seg >=? segMinLength then Ok true
         else Add_any_long g trk segMinLength bound rest (n + 1)%Z)%outcome
    end
  else Ok false.

(** [fMse = Compute(); fMse2D = ComputeMse2D();] *)
Definition refit (g : G) (c : VtxCandidate) : Outcome VtxCandidate :=
  (' (mse, c) <- Compute g c ;;
   let c := set_fMse c mse in
   mse2d <- ComputeMse2D g c ;;
   Ok (set_fMse2D c mse2d))%outcome.

(** [fAssigned.pop_back(); fCenter.SetXYZ(0., 0., 0.); fMse = 0; fMse2D = 0;] *)
Definition undo_and_reset (c : VtxCandidate) : VtxCandidate :=
  let c := set_fAssigned c (removelast (fAssigned c)) in
  let c := set_fCenter c v3_zero in
  set_fMse2D (set_fMse c 0) 0.

Definition Add (g : G) (c : VtxCandidate) (trk : TrkCandidate) : Outcome (bool * VtxCandidate) :=
  (attached <- IsAttached g c (Track trk) ;;
   if attached then Ok (false, c)
   else
     let c := set_fAssigned c (fAssigned c ++ [(trk, 0%Z)]) in
     let min_mse := kMaxDistToTrack * kMaxDistToTrack in
     let nodes := trk_Nodes g (Track trk) in
     let bound := size_sub (size nodes) 1 in
     if (size (fAssigned c) >? 2)%Z then
       st <- Add_scan3 g (Track trk) bound nodes 0 (mkScan3 c min_mse 0 kMaxDistToTrack) ;;
       if s3_d_best st <? kMaxDistToTrack then
         let c := set_fAssigned (s3_c st) (set_back_second (fAssigned (s3_c st)) (s3_n_best st)) in
         c <- refit g c ;;
         Ok (true, c)
       else
         let c := set_fAssigned (s3_c st) (removelast (fAssigned (s3_c st))) in
         c <- refit g c ;;
         Ok (false, c)
     else if (size (fAssigned c) =? 2)%Z then
       ' (front, _) <- deref (hd_error (fAssigned c)) ;;
       let p0 := Track front in
       let nodes0 := trk_Nodes g p0 in
       st <- Add_scan2 g p0 (Track trk) (size_sub (size nodes0) 1) nodes0 0
               (mkScan2 c min_mse 0 0 kMaxDistToTrack 0) ;;
       if s2_d_best st <? kMaxDistToTrack then
         let c := set_fAssigned (s2_c st) (set_front_second (fAssigned (s2_c st)) (s2_m_best st)) in
         let c := set_fAssigned c (set_back_second (fAssigned c) (s2_n_best st)) in
         c <- refit g c ;;
         Ok (true, c)
       else Ok (false, undo_and_reset (s2_c st))
     else
       long <- Add_any_long g (Track trk) (fSegMinLength c) bound nodes 0 ;;
       if long then Ok (true, c)
       else Ok (false, undo_and_reset c))%outcome.

(** ** Comparing candidates: [Test], [MaxAngle] *)

Definition Test (c other : VtxCandidate) : float :=
  let dx := X (fCenter c) - X (fCenter other) in
  let dy := Y (fCenter c) - Y (fCenter other) in
  let dz := Z_ (fCenter c) - Z_ (fCenter other) in
  let dw := X (fErr c) * X (fErr other) * dx * dx
            + Y (fErr c) * Y (fErr other) * dy * dy
            + Z_ (fErr c) * Z_ (fErr other) * dz * dz in
  PrimFloat.sqrt dw.

(** The unit vector along the assigned segment of an entry:
    [Nodes()[second + 1]->Point3D() - Nodes()[second]->Point3D()], normalised. *)
Definition segment_dir (g : G) (e : TrkCandidate * Z) : Outcome TVector3 :=
  let trk := Track (fst e) in
  (vtx0 <- at_ (trk_Nodes g trk) (snd e) ;;
   vtx1 <- at_ (trk_Nodes g trk) (size_add (snd e) 1) ;;
   let dir := v3_sub (node_Point3D g vtx1) (node_Point3D g vtx0) in
   Ok (v3_scale dir (1.0 / v3_Mag dir)))%outcome.

(** The locals [dir_i], [max_l_idx], [max_l] of [MaxAngle]. *)
Record Longest : Set := mkLongest { dir_i : TVector3; max_l_idx : Z; max_l : float }.

(** [for (size_t i = 0; i < fAssigned.size() - 1; i++)]: [rest] is what is
    left of [fAssigned] from index [i] on. *)
Fixpoint MaxAngle_longest (g : G) (bound : Z) (rest : list (TrkCandidate * Z)) (i : Z)
  (st : Longest) : Outcome Longest :=
  if (i <? bound)%Z then
    match rest with
    | [] => Undefined
    | e :: rest' =>
        let l := trk_Length g (Track (fst e)) in
        if l >? max_l st then
          (dir <- segment_dir g e ;;
           MaxAngle_longest g bound rest' (i + 1)%Z (mkLongest dir i l))%outcome
        else MaxAngle_longest g bound rest' (i + 1)%Z st
    end
  else Ok st.

(** [for (size_t j = 0; j < fAssigned.size(); j++)] *)
Fixpoint MaxAngle_min (g : G) (minLength : float) (ref : Longest)
  (rest : list (TrkCandidate * Z)) (j : Z) (min : float) : Outcome float :=
  match rest with
  | [] => Ok min
  | e :: rest' =>
      if negb (j =? max_l_idx ref)%Z && (trk_Length g (Track (fst e)) >? minLength) then
        (dir_j <- segment_dir g e ;;
         let a := abs (v3_dot (dir_i ref) dir_j) in
         MaxAngle_min g minLength ref rest' (j + 1)%Z (if a <? min then a else min))%outcome
      else MaxAngle_min g minLength ref rest' (j + 1)%Z min
  end.

Definition MaxAngle_bound (c : VtxCandidate) : Z := size_sub (size (fAssigned c)) 1.

Definition MaxAngle_reference (g : G) (c : VtxCandidate) : Outcome Longest :=
  MaxAngle_longest g (MaxAngle_bound c) (fAssigned c) 0 (mkLongest v3_zero 0 0.0).

Definition MaxAngle (g : G) (c : VtxCandidate) (minLength : float) : Outcome float :=
  (ref <- MaxAngle_reference g c ;;
   min <- MaxAngle_min g minLength ref (fAssigned c) 0 1.0 ;;
   Ok (180.0 * acos min / Pi))%outcome.

(** ** Merging: [MergeWith] *)

(** The loop over [other.fAssigned]: the candidate as the loop leaves it, and
    [ntrk] when the loop ran to its end ([None]: it returned [false]). *)
Fixpoint MergeWith_append (g : G) (c : VtxCandidate) (others : list (TrkCandidate * Z))
  (ntrk : Z) : Outcome (VtxCandidate * option Z) :=
  match others with
  | [] => Ok (c, Some ntrk)
  | t :: rest =>
      (attached <- IsAttached g c (Track (fst t)) ;;
       if attached then Ok (c, None)
       else if negb (Has c (Track (fst t))) then
         MergeWith_append g (set_fAssigned c (fAssigned c ++ [t])) rest (ntrk + 1)%Z
       else MergeWith_append g c rest ntrk)%outcome
  end.

Definition MergeWith (g : G) (c other : VtxCandidate) : Outcome (bool * VtxCandidate) :=
  let d := PrimFloat.sqrt (Dist2 (fCenter c) (fCenter other)) in
  if d >? 10.0 then Ok (false, c)
  else
    (' (c, scanned) <- MergeWith_append g c (fAssigned other) 0 ;;
     match scanned with
     | None => Ok (false, c)
     | Some ntrk =>
         if negb (ntrk =? 0)%Z then
           ' (mse, c) <- Compute g c ;;
           if mse <? 1.0 then
             let c := set_fMse c mse in
             mse2d <- ComputeMse2D g c ;;
             Ok (true, set_fMse2D c mse2d)
           else
             let c := set_fAssigned c (pop_back_n (Z.to_nat ntrk) (fAssigned c)) in
             c <- refit g c ;;
             Ok (false, c)
         else Ok (false, c)
     end)%outcome.

(** ** The graph committer: [JoinTracks] *)

(** What a call of [JoinTracks] works on: the candidate, the track graph and
    the two collections it is given by reference. *)
Record JoinState : Type := mkJoin {
  js_c : VtxCandidate;
  js_g : G;
  js_tracks : list TrkCandidate;
  js_src : list TrkCandidate
}.

(** The first [src[t]] whose track is [trk], and [src] without it. *)
Fixpoint take_first (trk : TrackPtr) (src : list TrkCandidate)
  : option (TrkCandidate * list TrkCandidate) :=
  match src with
  | [] => None
  | s :: rest =>
      if Nat.eqb trk (Track s) then Some (s, rest)
      else match take_first trk rest with
           | Some (x, rest') => Some (x, s :: rest')
           | None => None
           end
  end.

(** Step 1: the assigned tracks move from [src] to [tracks]. *)
Fixpoint JoinTracks_move (assigned : list (TrkCandidate * Z)) (tracks src : list TrkCandidate)
  : list TrkCandidate * list TrkCandidate :=
  match assigned with
  | [] => (tracks, src)
  | c :: rest =>
      match take_first (Track (fst c)) src with
      | Some (x, src') => JoinTracks_move rest (tracks ++ [x]) src'
      | None => JoinTracks_move rest tracks src
      end
  end.

(** The locals of the attaching loop, with the graph and [tracks]. *)
Record Joining : Type := mkJoining {
  j_g : G;
  j_tracks : list TrkCandidate;
  j_vtxCenter : option NodePtr;
  j_hasInnerCenter : bool;
  j_nOK : Z
}.

Definition is_some {A : Type} (p : option A) : bool :=
  match p with Some _ => true | None => false end.

(** Where the centre goes in a segment that is split or gets the inner
    centre: a new node inside it, its end, or its start.  The source has this
    block twice, word for word. *)
Definition place_center (g : G) (trk : TrackPtr) (center : TVector3) (idx : Z)
  (f ds d0 d1 : float) (tpc0 tpc1 cryo0 cryo1 : Z) : G * Z :=
  if (f >=? 0.0) && (f <=? 1.0) && (f * ds >? kMinDistToNode)
     && ((1.0 - f) * ds >? kMinDistToNode) then
    let '(tpc, cryo) := if f <? 0.5 then (tpc0, cryo0) else (tpc1, cryo1) in
    let idx := size_add idx 1 in
    (trk_InsertNode g trk center idx tpc cryo, idx)
  else if d1 <? d0 then (g, size_add idx 1)
  else (g, idx).

Definition count_if (ok : bool) (nOK : Z) (by_ : Z) : Z :=
  if ok then (nOK + by_)%Z else nOK.

(** Step 2, one turn: the track [fAssigned[i]]. *)
Definition JoinTracks_attach (c : VtxCandidate) (i : Z) (e : TrkCandidate * Z) (st : Joining)
  : Outcome Joining :=
  let g := j_g st in
  let trk := Track (fst e) in
  let key := Key (fst e) in
  let idx := snd e in
  (n0 <- at_ (trk_Nodes g trk) idx ;;
   n1 <- at_ (trk_Nodes g trk) (size_add idx 1) ;;
   let p0 := node_Point3D g n0 in
   let p1 := node_Point3D g n1 in
   let tpc0 := node_TPC g n0 in
   let tpc1 := node_TPC g n1 in
   let cryo0 := node_Cryo g n0 in
   let cryo1 := node_Cryo g n1 in
   let d0 := PrimFloat.sqrt (Dist2 p0 (fCenter c)) in
   let d1 := PrimFloat.sqrt (Dist2 p1 (fCenter c)) in
   let ds := PrimFloat.sqrt (Dist2 p0 p1) in
   let f := GetSegmentProjVector (fCenter c) p0 p1 in
   if (idx =? 0)%Z && (f * ds <=? kMinDistToNode) then
     if (i =? 0)%Z then
       vtxCenter <- deref (hd_error (trk_Nodes g trk)) ;;
       let g := node_SetPoint3D g vtxCenter (fCenter c) in
       Ok (mkJoining g (j_tracks st) (Some vtxCenter) (j_hasInnerCenter st) (j_nOK st + 1)%Z)
     else
       let '(ok, g) := trk_AttachTo g trk (j_vtxCenter st) false in
       Ok (mkJoining g (j_tracks st) (j_vtxCenter st) (j_hasInnerCenter st)
             (count_if ok (j_nOK st) 1))
   else if (size_add idx 2 =? size (trk_Nodes g trk))%Z
           && ((1.0 - f) * ds <=? kMinDistToNode) then
     if (i =? 0)%Z then
       ' (g, vtxCenter) <-
           (if trk_CanFlip g trk then
              let g := trk_Flip g trk in
              v <- deref (hd_error (trk_Nodes g trk)) ;; Ok (g, v)
            else
              v <- deref (nth_error (trk_Nodes g trk) (List.length (trk_Nodes g trk) - 1)) ;;
              Ok (g, v)) ;;
       let g := node_SetPoint3D g vtxCenter (fCenter c) in
       Ok (mkJoining g (j_tracks st) (Some vtxCenter) (j_hasInnerCenter st) (j_nOK st + 1)%Z)
     else
       vtxCenter <- deref (j_vtxCenter st) ;;
       if is_some (node_Prev g vtxCenter) && trk_CanFlip g trk then
         let g := trk_Flip g trk in
         let '(ok, g) := trk_AttachTo g trk (Some vtxCenter) false in
         Ok (mkJoining g (j_tracks st) (j_vtxCenter st) (j_hasInnerCenter st)
               (count_if ok (j_nOK st) 1))
       else
         let '(ok, g) := trk_AttachBackTo g trk (Some vtxCenter) in
         Ok (mkJoining g (j_tracks st) (j_vtxCenter st) (j_hasInnerCenter st)
               (count_if ok (j_nOK st) 1))
   else
     let canFlipPrev :=
       match j_vtxCenter st with
       | Some vtxCenter =>
           match node_Prev g vtxCenter with
           | Some seg =>
               if is_some (trk_NextSegment g (seg_Parent g seg) vtxCenter) then false
               else trk_CanFlip g (seg_Parent g seg)
           | None => true
           end
       | None => true
       end in
     if j_hasInnerCenter st || negb canFlipPrev then
       let '(g, idx) := place_center g trk (fCenter c) idx f ds d0 d1 tpc0 tpc1 cryo0 cryo1 in
       let '(t0, g) := trk_Split g trk idx in
       match t0 with
       | Some t0 =>
           let g := trk_MakeProjection g trk in
           let g := trk_MakeProjection g t0 in
           let tracks := j_tracks st ++ [mkTrk t0 key] in
           if (i =? 0)%Z then
             vtxCenter <- deref (hd_error (trk_Nodes g trk)) ;;
             Ok (mkJoining g tracks (Some vtxCenter) (j_hasInnerCenter st) (j_nOK st + 2)%Z)
           else
             let '(ok, g) := trk_AttachTo g trk (j_vtxCenter st) false in
             Ok (mkJoining g tracks (j_vtxCenter st) (j_hasInnerCenter st)
                   (count_if ok (j_nOK st) 2))
       | None =>
           Ok (mkJoining g (j_tracks st) (j_vtxCenter st) (j_hasInnerCenter st) (j_nOK st))
       end
     else
       let '(g, idx) := place_center g trk (fCenter c) idx f ds d0 d1 tpc0 tpc1 cryo0 cryo1 in
       innerCenter <- at_ (trk_Nodes g trk) idx ;;
       if (i >? 0)%Z then
         vtxCenter <- deref (j_vtxCenter st) ;;
         let g := match node_Prev g vtxCenter with
                  | Some seg => trk_Flip g (seg_Parent g seg)
                  | None => g
                  end in
         let branches := node_GetBranches g vtxCenter in
         let g := fold_left (fun g b => snd (trk_AttachTo g b (Some innerCenter) true))
                            branches g in
         Ok (mkJoining g (j_tracks st) (Some innerCenter) true (j_nOK st + 1)%Z)
       else
         Ok (mkJoining g (j_tracks st) (Some innerCenter) true (j_nOK st + 1)%Z))%outcome.

(** Step 2: [for (size_t i = 0; i < fAssigned.size(); i++)]. *)
Fixpoint JoinTracks_attach_all (c : VtxCandidate) (rest : list (TrkCandidate * Z)) (i : Z)
  (st : Joining) : Outcome Joining :=
  match rest with
  | [] => Ok st
  | e :: rest' =>
      (st' <- JoinTracks_attach c i e st ;;
       JoinTracks_attach_all c rest' (i + 1)%Z st')%outcome
  end.

(** [tracks] without the first entry of track [b], when there is one. *)
Fixpoint erase_track (b : TrackPtr) (tracks : list TrkCandidate) : option (list TrkCandidate) :=
  match tracks with
  | [] => None
  | t :: rest =>
      if Nat.eqb (Track t) b then Some rest
      else match erase_track b rest with
           | Some rest' => Some (t :: rest')
           | None => None
           end
  end.

(** The removal loop: each branch found in [tracks] is erased from it and deleted. *)
Fixpoint JoinTracks_remove (g : G) (tracks : list TrkCandidate) (branchesToRemove : list TrackPtr)
  : G * list TrkCandidate :=
  match branchesToRemove with
  | [] => (g, tracks)
  | b :: rest =>
      match erase_track b tracks with
      | Some tracks' => JoinTracks_remove (trk_delete g b) tracks' rest
      | None => JoinTracks_remove g tracks rest
      end
  end.

(** The root track of the tree the vertex node [vtxCenter] sits in. *)
Definition JoinTracks_root (g : G) (vtxCenter : NodePtr) : Outcome TrackPtr :=
  (rootSeg <-
     (if negb (node_NextCount g vtxCenter =? 0)%Z then deref (node_Next g vtxCenter 0)
      else match node_Prev g vtxCenter with
           | Some s => Ok s
           | None => Throw "Vertex with no segments attached."
           end) ;;
   let parent := seg_Parent g rootSeg in
   Ok (match trk_GetRoot g parent with
       | Some rootTrk => rootTrk
       | None => parent
       end))%outcome.

(** [fAssigned.clear(); fCenter = vtxCenter->Point3D(); fMse = 0.0; fMse2D = 0.0;] *)
Definition commit (c : VtxCandidate) (p : TVector3) : VtxCandidate :=
  set_fMse2D (set_fMse (set_fCenter (set_fAssigned c []) p) 0) 0.

(** What [JoinTracks] returns and the [LogError] message it leaves, if any. *)
Record JoinResult : Type := mkResult {
  jr_result : bool;
  jr_error : option string;
  jr_state : JoinState
}.

(** Step 3: from the end of the attaching loop to the [return]. *)
Definition JoinTracks_finish (c : VtxCandidate) (src : list TrkCandidate) (st : Joining)
  : Outcome JoinResult :=
  match j_vtxCenter st with
  | Some vtxCenter =>
      let g := j_g st in
      (rootTrk <- JoinTracks_root g vtxCenter ;;
       let '(noLoops, branchesToRemove) := trk_GetBranches g rootTrk in
       let '(c, g, result, tuneOK) :=
         if noLoops && (j_nOK st >? 1)%Z then
           let c := commit c (node_Point3D g vtxCenter) in
           let '(tune, g) := trk_TuneFullTree g rootTrk in
           if tune >? -2.0 then (c, g, true, true) else (c, g, false, false)
         else (c, g, false, true) in
       if negb (noLoops && tuneOK) then
         let '(g, tracks) := JoinTracks_remove g (j_tracks st) branchesToRemove in
         Ok (mkResult result None (mkJoin c g tracks src))
       else Ok (mkResult result None (mkJoin c g (j_tracks st) src)))%outcome
  | None =>
      Ok (mkResult false (Some "Cannot create common vertex"%string)
            (mkJoin c (j_g st) (j_tracks st) src))
  end.

(** Steps 1 and 2 of a first call. *)
Definition JoinTracks_splice (s : JoinState) : Outcome (list TrkCandidate * Joining) :=
  let c := js_c s in
  let '(tracks, src) := JoinTracks_move (fAssigned c) (js_tracks s) (js_src s) in
  (st <- JoinTracks_attach_all c (fAssigned c) 0 (mkJoining (js_g s) tracks None false 0) ;;
   Ok (src, st))%outcome.

Definition JoinTracks (s : JoinState) : Outcome JoinResult :=
  if tracksJoined (js_c s) then
    Ok (mkResult false (Some "Tracks already attached to the vertex."%string) s)
  else
    let s := mkJoin (set_tracksJoined (js_c s) true) (js_g s) (js_tracks s) (js_src s) in
    (' (src, st) <- JoinTracks_splice s ;;
     JoinTracks_finish (js_c s) src st)%outcome.

(** ** Notions the properties are stated with *)

(** [Compute] as a function of the two members it reads: the residual it
    returns and the [fCenter] and [fErr] it leaves. *)
Definition Compute_fit (g : G) (segMinLength : float) (assigned : list (TrkCandidate * Z))
  : Outcome (float * (TVector3 * TVector3)) :=
  (lines <- Compute_collect g segMinLength assigned ;;
   let '(resultMse, result) := SolveLeastSquares3D (map line_ends lines) in
   if resultMse <? 0.0 then Ok (1.0E+6, (v3_zero, v3_zero))
   else
     ' (center, err, wsum) <- Compute_sums g result lines (v3_zero, v3_zero, 0.0) ;;
     let n := to_double (size lines) in
     let center := mkV3 (X center / wsum) (Y center / n) (Z_ center / n) in
     let err := v3_scale err (1.0 / n) in
     let err := mkV3 (PrimFloat.sqrt (X err)) (PrimFloat.sqrt (Y err)) (PrimFloat.sqrt (Z_ err)) in
     Ok (resultMse, (center, err)))%outcome.

(** The derived state of [c] is the one a fit of its assigned set gives:
    [Compute()] returns [fMse] and leaves the candidate as it is, and
    [ComputeMse2D()] returns [fMse2D]. *)
Definition Consistent (g : G) (c : VtxCandidate) : Prop :=
  Compute g c = Ok (fMse c, c) /\ ComputeMse2D g c = Ok (fMse2D c).

(** What the search of [Add] for a third or later track [trk] finds at
    segment [n] of it: nothing when the segment is too short, else the
    residual of the fit with [trk] assigned at [n] and the distance of the
    fitted centre to the segment. *)
Definition Add_fit_at (g : G) (c : VtxCandidate) (trk : TrkCandidate) (n : Z)
  : Outcome (option (float * float)) :=
  (nd <- at_ (trk_Nodes g (Track trk)) n ;;
   seg <- deref (trk_NextSegment g (Track trk) nd) ;;
   if seg_Length g seg <? fSegMinLength c then Ok None
   else
     ' (mse, c') <- Compute g (set_fAssigned c (fAssigned c ++ [(trk, n)])) ;;
     Ok (Some (mse, PrimFloat.sqrt (seg_GetDistance2To g seg (fCenter c')))))%outcome.

(** No segment of [trk] below index [k] has both a residual below [mse] and
    a distance below [d]. *)
Definition no_better (g : G) (c : VtxCandidate) (trk : TrkCandidate) (k : Z)
  (mse d : float) : Prop :=
  forall n mse' d',
    (0 <= n < k)%Z ->
    Add_fit_at g c trk n = Ok (Some (mse', d')) ->
    ~ ((mse' <? mse) = true /\ (d' <? d) = true).

(** The search state of [Add] is a state of the search for [trk] on [c]:
    the candidate differs from [c] in the index of [trk], appended, and in
    the fit. *)
Definition scan3_shape (c : VtxCandidate) (trk : TrkCandidate) (st : Scan3) : Prop :=
  exists x center err,
    s3_c st = set_fit (set_fAssigned c (fAssigned c ++ [(trk, x)])) center err.

(** The locals of the search once the segments below [k] are done: still the
    initial thresholds, which no segment met, or the residual and distance
    found at [n_best], both below the initial thresholds and not both
    improved on by any segment. *)
Definition scan3_inv (g : G) (c : VtxCandidate) (trk : TrkCandidate) (k : Z) (st : Scan3)
  : Prop :=
  scan3_shape c trk st
  /\ ((s3_min_mse st = kMaxDistToTrack * kMaxDistToTrack
       /\ s3_d_best st = kMaxDistToTrack
       /\ no_better g c trk k (kMaxDistToTrack * kMaxDistToTrack) kMaxDistToTrack)
      \/ ((0 <= s3_n_best st < k)%Z
          /\ Add_fit_at g c trk (s3_n_best st) = Ok (Some (s3_min_mse st, s3_d_best st))
          /\ (s3_min_mse st <? kMaxDistToTrack * kMaxDistToTrack) = true
          /\ (s3_d_best st <? kMaxDistToTrack) = true
          /\ no_better g c trk k (s3_min_mse st) (s3_d_best st))).

(** No segment of [trk] from index [lo] to below [hi] has both a residual
    below [mse] and a distance below [d]. *)
Definition no_better_in (g : G) (c : VtxCandidate) (trk : TrkCandidate) (lo hi : Z)
  (mse d : float) : Prop :=
  forall n mse' d',
    (lo <= n < hi)%Z ->
    Add_fit_at g c trk n = Ok (Some (mse', d')) ->
    ~ ((mse' <? mse) = true /\ (d' <? d) = true).

(** The rule of the search, [if (mse < min_mse) { ... if (d < d_best) ...]:
    segment [n], with residual [mse] and distance [d], becomes the best one.
    It is the first segment with a residual below [kMaxDistToTrack^2] and a
    distance below [kMaxDistToTrack], or it is the first segment after the
    best one so far, [n0], with a residual and a distance both below those
    of [n0]. *)
Inductive becomes_best (g : G) (c : VtxCandidate) (trk : TrkCandidate)
  : Z -> float -> float -> Prop :=
| first_best (n : Z) (mse d : float) :
    (0 <= n)%Z ->
    Add_fit_at g c trk n = Ok (Some (mse, d)) ->
    (mse <? kMaxDistToTrack * kMaxDistToTrack) = true ->
    (d <? kMaxDistToTrack) = true ->
    no_better_in g c trk 0 n (kMaxDistToTrack * kMaxDistToTrack) kMaxDistToTrack ->
    becomes_best g c trk n mse d
| next_best (n0 : Z) (mse0 d0 : float) (n : Z) (mse d : float) :
    becomes_best g c trk n0 mse0 d0 ->
    (n0 < n)%Z ->
    Add_fit_at g c trk n = Ok (Some (mse, d)) ->
    (mse <? mse0) = true ->
    (d <? d0) = true ->
    no_better_in g c trk (n0 + 1) n mse0 d0 ->
    becomes_best g c trk n mse d.

(** The search over the segments below [bound] ends with segment [n] as the
    best one: it became the best, and no segment after it took over. *)
Definition search_ends_at (g : G) (c : VtxCandidate) (trk : TrkCandidate) (bound n : Z)
  (mse d : float) : Prop :=
  becomes_best g c trk n mse d
  /\ (n < bound)%Z
  /\ no_better_in g c trk (n + 1) bound mse d.

(** The locals of the search once the segments below [k] are done, by the
    rule: still the initial thresholds, which no segment met, or the segment
    that the search over the segments below [k] ends with. *)
Definition scan3_rule (g : G) (c : VtxCandidate) (trk : TrkCandidate) (k : Z) (st : Scan3)
  : Prop :=
  (s3_min_mse st = kMaxDistToTrack * kMaxDistToTrack
   /\ s3_d_best st = kMaxDistToTrack
   /\ no_better_in g c trk 0 k (kMaxDistToTrack * kMaxDistToTrack) kMaxDistToTrack)
  \/ search_ends_at g c trk k (s3_n_best st) (s3_min_mse st) (s3_d_best st).

(** The weight as it is specified: [w = 1 - (fy_norm - 1)^12] with
    [fy_norm = asin(|dy| / segLength) / (pi/2)], raised to the floor [0.3]. *)
Definition specified_weight (dy segLength : float) : float :=
  let fy_norm := asin (abs dy / segLength) / (Pi / 2) in
  let w := 1 - pow (fy_norm - 1) 12 in
  if w <? 0.3 then 0.3 else w.

(** What is asked of libm at one call (C99 7.12.4.2, 7.12.7.4 and annex F):
    [asin] returns a number on an argument in [[0, 1]], and [pow x 12]
    returns a number when [x] is one. *)
Definition asin_conforms_at (x : float) : Prop :=
  (0 <=? x) = true -> (x <=? 1) = true -> is_nan (asin x) = false.

Definition pow12_conforms_at (x : float) : Prop :=
  is_nan x = false -> is_nan (pow x 12) = false.

(** [l] is the line that [Compute] fits for the assigned entry [v]: the
    segment after the node of [v], long enough, with the points of its two
    nodes. *)
Definition fit_line (g : G) (segMinLength : float) (v : TrkCandidate * Z) (l : FitLine)
  : Prop :=
  exists vtx1 vtx2,
    at_ (trk_Nodes g (Track (fst v))) (to_size_t (to_int (snd v))) = Ok vtx1
    /\ trk_NextSegment g (Track (fst v)) vtx1 = Some (line_seg l)
    /\ (seg_Length g (line_seg l) >=? segMinLength) = true
    /\ seg_Next g (line_seg l) 0 = Some vtx2
    /\ line_ends l = (node_Point3D g vtx1, node_Point3D g vtx2).

(** An assigned entry whose segment [Compute] reads and leaves out. *)
Definition too_short (g : G) (segMinLength : float) (v : TrkCandidate * Z) : Prop :=
  exists vtx1 seg,
    at_ (trk_Nodes g (Track (fst v))) (to_size_t (to_int (snd v))) = Ok vtx1
    /\ trk_NextSegment g (Track (fst v)) vtx1 = Some seg
    /\ (seg_Length g seg >=? segMinLength) = false.

(** The reference of [MaxAngle] as the specification words it: the longest
    track among those longer than [minLength] (the first one on a tie), as
    its index in the assigned set and its length. *)
Fixpoint spec_longest (g : G) (minLength : float) (rest : list (TrkCandidate * Z)) (j : Z)
  (best : option (Z * float)) : option (Z * float) :=
  match rest with
  | [] => best
  | e :: rest' =>
      let l := trk_Length g (Track (fst e)) in
      if l >? minLength then
        match best with
        | Some (_, lb) =>
            if l >? lb then spec_longest g minLength rest' (j + 1)%Z (Some (j, l))
            else spec_longest g minLength rest' (j + 1)%Z best
        | None => spec_longest g minLength rest' (j + 1)%Z (Some (j, l))
        end
      else spec_longest g minLength rest' (j + 1)%Z best
  end.

(** Entry [e] at index [j] takes part in the second loop of [MaxAngle]. *)
Definition other_long (g : G) (minLength : float) (ref : Longest) (j : Z)
  (e : TrkCandidate * Z) : Prop :=
  j <> max_l_idx ref /\ (trk_Length g (Track (fst e)) >? minLength) = true.

(** The tracks of the assigned set, in order. *)
Definition tracks_of (assigned : list (TrkCandidate * Z)) : list TrackPtr :=
  map (fun e => Track (fst e)) assigned.

(** Every track of [assigned] has a root. *)
Definition rooted (g : G) (assigned : list (TrkCandidate * Z)) : Prop :=
  Forall (fun e => trk_GetRoot g (Track (fst e)) <> None) assigned.

(** The root of [trk] is attached to the root of some track of [assigned]. *)
Definition attached_to_some (g : G) (assigned : list (TrkCandidate * Z)) (trk : TrackPtr)
  : Prop :=
  exists rootTrk e rootAssn,
    trk_GetRoot g trk = Some rootTrk
    /\ In e assigned
    /\ trk_GetRoot g (Track (fst e)) = Some rootAssn
    /\ trk_IsAttachedTo g rootTrk rootAssn = true.

(** The volume of node [nd] has none of the three readout planes. *)
Definition no_plane (g : G) (nd : NodePtr) : Prop :=
  forall view, geo_HasPlane (node_TPC g nd) (node_Cryo g nd) view = false.

(** [c'] has the assigned tracks of [c], in order (their segment indices
    may differ), and its configuration. *)
Definition same_members (c c' : VtxCandidate) : Prop :=
  map fst (fAssigned c') = map fst (fAssigned c)
  /\ fSegMinLength c' = fSegMinLength c
  /\ tracksJoined c' = tracksJoined c.

(** [c'] is [c] as the commit of [JoinTracks] leaves it when the attaching
    loop ended in [st]: without tracks, centred on the point that the vertex
    node has in the graph of [st], both residuals zero, the rest as in [c]. *)
Definition committed_at (c : VtxCandidate) (st : Joining) (c' : VtxCandidate) : Prop :=
  exists vtxCenter,
    j_vtxCenter st = Some vtxCenter
    /\ fAssigned c' = []
    /\ fCenter c' = node_Point3D (j_g st) vtxCenter
    /\ fMse c' = 0
    /\ fMse2D c' = 0
    /\ fErr c' = fErr c
    /\ fSegMinLength c' = fSegMinLength c
    /\ tracksJoined c' = tracksJoined c.

(** Some segment that the loops of [Add] visit on [trk], the one after node
    [n] for an [n] below [Nodes().size() - 1], has length [segMinLength] or
    more. *)
Definition has_long_segment (g : G) (trk : TrackPtr) (segMinLength : float) : Prop :=
  exists n nd seg,
    (0 <= n < size_sub (size (trk_Nodes g trk)) 1)%Z
    /\ at_ (trk_Nodes g trk) n = Ok nd
    /\ trk_NextSegment g trk nd = Some seg
    /\ (seg_Length g seg >=? segMinLength) = true.

(** What a call of [JoinTracks] on a committed candidate answers. *)
Definition repeated_commit (s : JoinState) : JoinResult :=
  mkResult false (Some "Tracks already attached to the vertex."%string) s.

(** [b] is among [branches]. *)
Definition is_branch (branches : list TrackPtr) (b : TrackPtr) : bool :=
  existsb (Nat.eqb b) branches.

(** [tracks] has an entry of track [b]. *)
Definition holds (tracks : list TrkCandidate) (b : TrackPtr) : bool :=
  existsb (fun t => Nat.eqb (Track t) b) tracks.

(** The candidate and the collections as [JoinTracks] has them once it has
    set its flag. *)
Definition flagged (s : JoinState) : JoinState :=
  mkJoin (set_tracksJoined (js_c s) true) (js_g s) (js_tracks s) (js_src s).

End Candidate.

Arguments JoinState G : clear implicits.
Arguments Joining G : clear implicits.
Arguments JoinResult G : clear implicits.

(** ** A concrete scene

    Modelled from the spec: the track graph ([Track3D], [Node3D],
    [Segment3D]), the utilities and the geometry service, which
    PmaVtxCandidate.cxx only calls, as section 6 of the specification
    describes them, small enough to run the model on.  Tracks are polylines over numbered nodes, the segment
    that starts at node [n] is named [n], and a track is attached to another
    one when both have the same root.  Graph surgery is scripted: an attach
    request is answered by [sg_attach], the loop check by [sg_loops], the
    tuning by [sg_tune]; tracks cannot be flipped or split.  Every volume has
    the three readout planes. *)
Module Scene.

Record SceneTrack : Set := mkSTrack {
  st_nodes : list NodePtr;
  st_length : float;
  st_root : TrackPtr
}.

Record SceneGraph : Set := mkScene {
  sg_points : list TVector3;
  sg_tracks : list SceneTrack;
  sg_attach : bool;
  sg_loops : bool;
  sg_tune : float;
  sg_deleted : list TrackPtr
}.

Arguments mkSTrack st_nodes%_list st_length%_float st_root%_nat.

Definition nodes_of (g : SceneGraph) (t : TrackPtr) : list NodePtr :=
  match nth_error (sg_tracks g) t with
  | Some tr => st_nodes tr
  | None => []
  end.

Definition point (g : SceneGraph) (n : NodePtr) : TVector3 := nth n (sg_points g) v3_zero.

Fixpoint next_in (nodes : list NodePtr) (n : NodePtr) : option NodePtr :=
  match nodes with
  | a :: ((b :: _) as rest) => if Nat.eqb a n then Some b else next_in rest n
  | _ => None
  end.

Fixpoint prev_in (nodes : list NodePtr) (n : NodePtr) : option NodePtr :=
  match nodes with
  | a :: ((b :: _) as rest) => if Nat.eqb b n then Some a else prev_in rest n
  | _ => None
  end.

Fixpoint owner_in (tracks : list SceneTrack) (t : TrackPtr) (n : NodePtr) : TrackPtr :=
  match tracks with
  | [] => t
  | tr :: rest => if existsb (Nat.eqb n) (st_nodes tr) then t else owner_in rest (S t) n
  end.

Definition owner (g : SceneGraph) (n : NodePtr) : TrackPtr := owner_in (sg_tracks g) 0%nat n.
Definition next_of (g : SceneGraph) (n : NodePtr) : option NodePtr :=
  next_in (nodes_of g (owner g n)) n.

Fixpoint branches_in (tracks : list SceneTrack) (t : TrackPtr) (root : TrackPtr) : list TrackPtr :=
  match tracks with
  | [] => []
  | tr :: rest =>
      if Nat.eqb (st_root tr) root then t :: branches_in rest (S t) root
      else branches_in rest (S t) root
  end.

Fixpoint set_nth {A : Type} (n : nat) (x : A) (l : list A) : list A :=
  match l, n with
  | [], _ => []
  | _ :: rest, O => x :: rest
  | a :: rest, S k => a :: set_nth k x rest
  end.

Definition dist2 (a b : TVector3) : float :=
  let d := v3_sub a b in v3_dot d d.

Definition proj_vector (p p0 p1 : TVector3) : float :=
  let v := v3_sub p1 p0 in
  let m2 := v3_dot v v in
  if m2 =? 0 then 0 else v3_dot (v3_sub p p0) v / m2.

Definition proj_to_segment (p p0 p1 : TVector3) : TVector3 :=
  let f := proj_vector p p0 p1 in
  let f := if f <? 0 then 0 else if 1 <? f then 1 else f in
  let v := v3_sub p1 p0 in
  mkV3 (X p0 + f * X v) (Y p0 + f * Y v) (Z_ p0 + f * Z_ v).

Definition to_plane (p : TVector3) (view : View) : TVector2 :=
  match view with
  | kU => mkV2 (Y p) (X p)
  | kV => mkV2 (Z_ p) (X p)
  | kZ => mkV2 (Y p + Z_ p) (X p)
  end.

Definition lift2 (p : TVector2) : TVector3 := mkV3 (X2 p) (Y2 p) 0.

Definition midpoint (l : TVector3 * TVector3) : TVector3 :=
  mkV3 ((X (fst l) + X (snd l)) / 2) ((Y (fst l) + Y (snd l)) / 2)
       ((Z_ (fst l) + Z_ (snd l)) / 2).

Definition v3_add (a b : TVector3) : TVector3 :=
  mkV3 (X a + X b) (Y a + Y b) (Z_ a + Z_ b).

(** Modelled from the spec: the least-squares solver, which is to "return a
    best-fit intersection point and residual, or a negative residual on
    numerical failure".  Here the point is the mean of the segments'
    midpoints and the residual the mean squared distance of the midpoints to
    it; fewer than two lines cannot be intersected and are a failure. *)
Definition solve (lines : list (TVector3 * TVector3)) : float * TVector3 :=
  if (size lines <? 2)%Z then (-1, v3_zero)
  else
    let n := to_double (size lines) in
    let mids := map midpoint lines in
    let p := v3_scale (fold_left v3_add mids v3_zero) (1 / n) in
    (fold_left (fun s m => s + dist2 p m) mids 0 / n, p).

#[export] Instance scene_graph : TrackGraph SceneGraph := {
  trk_Nodes := nodes_of;
  trk_NextSegment g t nd := if is_some (next_in (nodes_of g t) nd) then Some nd else None;
  trk_Length g t :=
    match nth_error (sg_tracks g) t with Some tr => st_length tr | None => 0 end;
  trk_GetRoot g t := option_map st_root (nth_error (sg_tracks g) t);
  trk_IsAttachedTo _ a b := Nat.eqb a b;
  trk_CanFlip _ _ := false;
  trk_Flip g _ := g;
  trk_AttachTo g _ _ _ := (sg_attach g, g);
  trk_AttachBackTo g _ _ := (sg_attach g, g);
  trk_InsertNode g _ _ _ _ _ := g;
  trk_Split g _ _ := (None, g);
  trk_MakeProjection g _ := g;
  trk_GetBranches g t := (negb (sg_loops g), branches_in (sg_tracks g) 0%nat t);
  trk_TuneFullTree g _ := (sg_tune g, g);
  trk_delete g t :=
    mkScene (sg_points g) (sg_tracks g) (sg_attach g) (sg_loops g) (sg_tune g)
            (t :: sg_deleted g);
  node_Point3D := point;
  node_SetPoint3D g n p :=
    mkScene (set_nth n p (sg_points g)) (sg_tracks g) (sg_attach g) (sg_loops g) (sg_tune g)
            (sg_deleted g);
  node_TPC _ _ := 0%Z;
  node_Cryo _ _ := 0%Z;
  node_Prev g n := prev_in (nodes_of g (owner g n)) n;
  node_NextCount g n := if is_some (next_of g n) then 1%Z else 0%Z;
  node_Next g n k := if (k =? 0)%Z && is_some (next_of g n) then Some n else None;
  node_GetBranches _ _ := [];
  seg_Length g s :=
    match next_of g s with
    | Some b => PrimFloat.sqrt (dist2 (point g s) (point g b))
    | None => 0
    end;
  seg_Prev _ s := Some s;
  seg_Next g s k := if (k =? 0)%Z then next_of g s else None;
  seg_Parent := owner;
  seg_GetDistance2To g s p :=
    match next_of g s with
    | Some b => dist2 p (proj_to_segment p (point g s) (point g b))
    | None => dist2 p (point g s)
    end;
  seg_GetDistance2To2D g s p view :=
    match next_of g s with
    | Some b =>
        dist2 (lift2 p)
          (proj_to_segment (lift2 p) (lift2 (to_plane (point g s) view))
             (lift2 (to_plane (point g b) view)))
    | None => dist2 (lift2 p) (lift2 (to_plane (point g s) view))
    end
}.

#[export] Instance scene_utilities : Utilities := {
  Dist2 := dist2;
  GetSegmentProjVector := proj_vector;
  GetProjectionToSegment := proj_to_segment;
  GetProjectionToPlane p view _ _ := to_plane p view;
  SolveLeastSquares3D := solve;
  geo_HasPlane _ _ _ := true
}.

(** libm stand-ins: [acos] and [asin] on [[-1, 1]] by the four-term
    approximation [sqrt (1 - x) * (a0 + a1 x + a2 x^2 + a3 x^3)] of the arc
    cosine, NaN outside; [pow] for the one exponent the source uses. *)
Definition acos_pos (x : float) : float :=
  PrimFloat.sqrt (1 - x)
  * (1.5707288 + x * (-0.2121144 + x * (0.0742610 + x * -0.0187293))).

Definition scene_acos (x : float) : float :=
  if (0 <=? x) && (x <=? 1) then acos_pos x
  else if (-1 <=? x) && (x <? 0) then Pi - acos_pos (- x)
  else nan.

Definition scene_asin (x : float) : float := 0.5 * Pi - scene_acos x.

Definition scene_pow (x y : float) : float :=
  if y =? 12 then
    let x2 := x * x in
    let x4 := x2 * x2 in
    x4 * x4 * x4
  else nan.

#[export] Instance scene_libm : Libm := {
  asin := scene_asin;
  acos := scene_acos;
  pow := scene_pow
}.

(** A candidate as its constructor leaves it. *)
Definition fresh (segMinLength : float) : VtxCandidate :=
  mkVtx false segMinLength [] v3_zero v3_zero 0 0.

(** *** Scenes *)

Definition trkA : TrkCandidate := mkTrk 0 10.
Definition trkB : TrkCandidate := mkTrk 1 11.
Definition trkC : TrkCandidate := mkTrk 2 12.

(** The candidate that [Add] builds from [c] and the tracks [trks], as far
    as it accepts them. *)
Fixpoint built (g : SceneGraph) (c : VtxCandidate) (trks : list TrkCandidate) : VtxCandidate :=
  match trks with
  | [] => c
  | t :: rest =>
      match Add g c t with
      | Ok (true, c') => built g c' rest
      | _ => c
      end
  end.

(** Two tracks crossing at the origin, and a third one along the z axis with
    a short first segment away from the origin and a long second one through it. *)
Definition scan_graph : SceneGraph :=
  mkScene [mkV3 (-1) 0 0; mkV3 1 0 0; mkV3 0 (-1) 0; mkV3 0 1 0;
           mkV3 0 0 2; mkV3 0 0 3; mkV3 0 0 (-9)]
          [mkSTrack [0; 1]%nat 2 0; mkSTrack [2; 3]%nat 2 1; mkSTrack [4; 5; 6]%nat 13 2]
          true false 0 [].

Definition scan_pair : VtxCandidate :=
  mkVtx false 0.5 [(trkA, 0%Z); (trkB, 0%Z)] v3_zero (mkV3 0.73824115301167004 1 1) 0 0.

(** Track A, an independent track B, and a track C that is a branch of A. *)
Definition merge_graph : SceneGraph :=
  mkScene [mkV3 (-1) 0 0; mkV3 1 0 0; mkV3 0 (-1) 0; mkV3 0 1 0; mkV3 1 0 0.5; mkV3 1 2 0.5]
          [mkSTrack [0; 1]%nat 2 0; mkSTrack [2; 3]%nat 2 1; mkSTrack [4; 5]%nat 2 0]
          true false 0 [].

Definition merge_this : VtxCandidate :=
  mkVtx false 0.5 [(trkA, 0%Z)] v3_zero v3_zero 0 0.

Definition merge_other : VtxCandidate :=
  mkVtx false 0.5 [(trkB, 0%Z); (trkC, 0%Z)] (mkV3 0.5 0.5 0.25) (mkV3 1 1 1)
        0.5625 0.27083333333333331.

(** Two tracks that start next to the origin. *)
Definition join_graph (attach : bool) (tune : float) : SceneGraph :=
  mkScene [mkV3 0 0 0; mkV3 5 0 0; mkV3 0 0 0.125; mkV3 0 5 0.125]
          [mkSTrack [0; 1]%nat 5 0; mkSTrack [2; 3]%nat 5 1]
          attach false tune [].

Definition join_pair : VtxCandidate :=
  Eval vm_compute in built (join_graph true 0) (fresh 0.5) [trkA; trkB].

(** Three tracks from the origin: along x (length 5), along y (length 3) and
    along (6, 8, 0) (length 10). *)
Definition angle_graph : SceneGraph :=
  mkScene [mkV3 0 0 0; mkV3 5 0 0; mkV3 0 0 0; mkV3 0 3 0; mkV3 0 0 0; mkV3 6 8 0]
          [mkSTrack [0; 1]%nat 5 0; mkSTrack [2; 3]%nat 3 1; mkSTrack [4; 5]%nat 10 2]
          true false 0 [].

Definition angle_three : VtxCandidate :=
  Eval vm_compute in built angle_graph (fresh 0.5) [trkA; trkB; trkC].

(** [scan_pair] with the third track of [scan_graph] added. *)
Definition scan_three : VtxCandidate :=
  Eval vm_compute in
    match Add scan_graph scan_pair trkC with
    | Ok (_, c) => c
    | _ => scan_pair
    end.

(** [fresh 0.5] with track A of [scan_graph] added. *)
Definition scan_one : VtxCandidate :=
  mkVtx false 0.5 [(trkA, 0%Z)] v3_zero v3_zero 0 0.

(** Two tracks from the origin that point opposite ways along x. *)
Definition opposite_graph : SceneGraph :=
  mkScene [mkV3 0 0 0; mkV3 5 0 0; mkV3 0 0 0; mkV3 (-3) 0 0]
          [mkSTrack [0; 1]%nat 5 0; mkSTrack [2; 3]%nat 3 1]
          true false 0 [].

Definition opposite_pair : VtxCandidate :=
  Eval vm_compute in built opposite_graph (fresh 0.5) [trkA; trkB].

(** [JoinTracks] is called with both tracks of [join_graph] still in [src]. *)
Definition join_start (attach : bool) (tune : float) : JoinState SceneGraph :=
  mkJoin join_pair (join_graph attach tune) [] [trkA; trkB].

(** The locals after the attaching loop when attaching succeeds and the
    tuning answers [-2]. *)
Definition join_diverged : Joining SceneGraph :=
  Eval vm_compute in
    match JoinTracks_splice (flagged (join_start true (-2))) with
    | Ok (_, st) => st
    | _ => mkJoining (join_graph true (-2)) [] None false 0
    end.

(** What [MaxAngle] returns on [angle_three] for [minLength = 1]. *)
Definition angle_value : float :=
  Eval vm_compute in
    match MaxAngle angle_graph angle_three 1 with
    | Ok r => r
    | _ => nan
    end.

(** Track A of [scan_graph] and a short track far away from it. *)
Definition far_graph : SceneGraph :=
  mkScene [mkV3 (-1) 0 0; mkV3 1 0 0; mkV3 0 100 50; mkV3 0 101 50]
          [mkSTrack [0; 1]%nat 2 0; mkSTrack [2; 3]%nat 1 1]
          true false 0 [].

(** [scan_one] as [Add] leaves it when it is given the far track. *)
Definition far_rejected : VtxCandidate :=
  Eval vm_compute in
    match Add far_graph scan_one trkB with
    | Ok (_, c) => c
    | _ => scan_one
    end.

(** One track, without nodes. *)
Definition bare_graph : SceneGraph :=
  mkScene [] [mkSTrack [] 0 0] true false 0 [].

(** [fresh 0.5] with track B of [scan_graph] added. *)
Definition scan_other : VtxCandidate :=
  mkVtx false 0.5 [(trkB, 0%Z)] v3_zero v3_zero 0 0.

(** A candidate without tracks, with both tracks of [join_graph] in [src]. *)
Definition join_empty : JoinState SceneGraph :=
  mkJoin (fresh 0.5) (join_graph true 0) [] [trkA; trkB].

(** What a first call of [JoinTracks] answers when attaching succeeds and
    the tuning answers [0]. *)
Definition join_done : JoinResult SceneGraph :=
  Eval vm_compute in
    match JoinTracks (join_start true 0) with
    | Ok r => r
    | _ => repeated_commit (join_start true 0)
    end.

(** The three tracks of [scan_graph] under a minimum segment length of 1.5,
    which the first segment of track C does not reach, and the same
    candidate without track C. *)
Definition short_three : VtxCandidate :=
  mkVtx false 1.5 [(trkA, 0%Z); (trkB, 0%Z); (trkC, 0%Z)] v3_zero v3_zero 0 0.

Definition short_pair : VtxCandidate :=
  mkVtx false 1.5 [(trkA, 0%Z); (trkB, 0%Z)] v3_zero v3_zero 0 0.

(** A candidate with one track of [join_graph], and what a first call of
    [JoinTracks] answers on it. *)
Definition join_single : JoinState SceneGraph :=
  mkJoin scan_one (join_graph true 0) [] [trkA; trkB].

Definition join_single_done : JoinResult SceneGraph :=
  Eval vm_compute in
    match JoinTracks join_single with
    | Ok r => r
    | _ => repeated_commit join_single
    end.

End Scene.

(** * Properties *)

(** ** The order of [double] *)

Ltac cmp_cases :=
  repeat match goal with
  | |- context [Pos.compare_cont Eq ?a ?b] =>
      change (Pos.compare_cont Eq a b) with (Pos.compare a b)
  | H : context [Pos.compare_cont Eq ?a ?b] |- _ =>
      change (Pos.compare_cont Eq a b) with (Pos.compare a b) in H
  | |- context [Z.compare ?a ?b] => destruct (Z.compare_spec a b)
  | H : context [Z.compare ?a ?b] |- _ => destruct (Z.compare_spec a b)
  | |- context [Pos.compare ?a ?b] => destruct (Pos.compare_spec a b)
  | H : context [Pos.compare ?a ?b] |- _ => destruct (Pos.compare_spec a b)
  end.

Ltac sf_cases :=
  simpl; try discriminate; try congruence;
  repeat match goal with s : bool |- _ => destruct s end;
  simpl; try discriminate; try congruence;
  intros; cmp_cases; simpl in *; subst; try discriminate; try reflexivity; try lia.

Lemma SFcompare_Lt_trans x y z :
  SFcompare x y = Some Lt -> SFcompare y z = Some Lt -> SFcompare x z = Some Lt.
Proof.
  destruct x as [sx|sx| |sx mx ex], y as [sy|sy| |sy my ey], z as [sz|sz| |sz mz ez];
    sf_cases.
Qed.

Lemma SFcompare_Lt_Eq_trans x y z :
  SFcompare x y = Some Lt -> SFcompare y z = Some Eq -> SFcompare x z = Some Lt.
Proof.
  destruct x as [sx|sx| |sx mx ex], y as [sy|sy| |sy my ey], z as [sz|sz| |sz mz ez];
    sf_cases.
Qed.

Lemma SFcompare_Gt_Lt x y : SFcompare x y = Some Gt -> SFcompare y x = Some Lt.
Proof. destruct x as [sx|sx| |sx mx ex], y as [sy|sy| |sy my ey]; sf_cases. Qed.

Lemma SFcompare_Eq_sym x y : SFcompare x y = Some Eq -> SFcompare y x = Some Eq.
Proof. destruct x as [sx|sx| |sx mx ex], y as [sy|sy| |sy my ey]; sf_cases. Qed.

Lemma SFcompare_refl_not_Lt x : SFcompare x x <> Some Lt.
Proof. destruct x as [sx|sx| |sx mx ex]; sf_cases. Qed.

Lemma SFcompare_None x y : SFcompare x y = None -> x = S754_nan \/ y = S754_nan.
Proof.
  destruct x as [sx|sx| |sx mx ex], y as [sy|sy| |sy my ey]; simpl; auto; try discriminate;
    repeat match goal with s : bool |- _ => destruct s end; discriminate.
Qed.

Lemma ltb_trans x y z : (x <? y) = true -> (y <? z) = true -> (x <? z) = true.
Proof.
  rewrite !ltb_spec. unfold SFltb.
  destruct (SFcompare (Prim2SF x) (Prim2SF y)) as [[]|] eqn:E1; try discriminate.
  destruct (SFcompare (Prim2SF y) (Prim2SF z)) as [[]|] eqn:E2; try discriminate.
  intros _ _. now rewrite (SFcompare_Lt_trans _ _ _ E1 E2).
Qed.

Lemma ltb_leb_trans x y z : (x <? y) = true -> (y <=? z) = true -> (x <? z) = true.
Proof.
  rewrite !ltb_spec, leb_spec. unfold SFltb, SFleb.
  destruct (SFcompare (Prim2SF x) (Prim2SF y)) as [[]|] eqn:E1; try discriminate.
  destruct (SFcompare (Prim2SF y) (Prim2SF z)) as [[]|] eqn:E2; try discriminate; intros _ _.
  - now rewrite (SFcompare_Lt_Eq_trans _ _ _ E1 E2).
  - now rewrite (SFcompare_Lt_trans _ _ _ E1 E2).
Qed.

Lemma ltb_leb x y : (x <? y) = true -> (x <=? y) = true.
Proof.
  rewrite ltb_spec, leb_spec. unfold SFltb, SFleb.
  now destruct (SFcompare (Prim2SF x) (Prim2SF y)) as [[]|].
Qed.

Lemma ltb_irrefl x : (x <? x) = false.
Proof.
  rewrite ltb_spec. unfold SFltb.
  destruct (SFcompare (Prim2SF x) (Prim2SF x)) as [[]|] eqn:E; try reflexivity.
  now destruct (SFcompare_refl_not_Lt _ E).
Qed.

Lemma is_nan_spec x : is_nan x = true <-> Prim2SF x = S754_nan.
Proof.
  unfold is_nan. rewrite eqb_spec. unfold SFeqb.
  destruct (Prim2SF x) as [s|s| |s m e]; simpl.
  - split; discriminate.
  - destruct s; split; discriminate.
  - split; reflexivity.
  - change (Pos.compare_cont Eq m m) with (Pos.compare m m).
    destruct s; simpl; rewrite Z.compare_refl, Pos.compare_refl; split; discriminate.
Qed.

Lemma not_ltb_leb x y :
  is_nan x = false -> is_nan y = false -> (x <? y) = false -> (y <=? x) = true.
Proof.
  intros Hx Hy. rewrite ltb_spec, leb_spec. unfold SFltb, SFleb.
  destruct (SFcompare (Prim2SF x) (Prim2SF y)) as [[]|] eqn:E; try discriminate; intros _.
  - now rewrite (SFcompare_Eq_sym _ _ E).
  - now rewrite (SFcompare_Gt_Lt _ _ E).
  - destruct (SFcompare_None _ _ E) as [N|N]; apply is_nan_spec in N; congruence.
Qed.

Lemma ltb_nan_l x y : is_nan x = true -> (x <? y) = false.
Proof.
  intros N. apply is_nan_spec in N. rewrite ltb_spec. unfold SFltb. now rewrite N.
Qed.

Lemma ltb_not_nan_l x y : (x <? y) = true -> is_nan x = false.
Proof.
  intros L. destruct (is_nan x) eqn:N; trivial. now rewrite (ltb_nan_l x y N) in L.
Qed.

Lemma abs_nonneg x : is_nan (abs x) = false -> (0 <=? abs x) = true.
Proof.
  intros N. assert (Prim2SF (abs x) <> S754_nan) as N'.
  { intros E. apply is_nan_spec in E. congruence. }
  rewrite leb_spec. rewrite abs_spec in *. unfold SFleb.
  change (Prim2SF 0) with (S754_zero false).
  destruct (Prim2SF x) as [s|s| |s m e]; simpl in *; trivial. now destruct N'.
Qed.

Lemma below_trans a b c : below a b -> below b c -> below a c.
Proof.
  intros [H1| ->] [H2| ->]; unfold below; auto. left. eapply ltb_trans; eauto.
Qed.

Lemma not_ltb_below x m m0 : below m m0 -> (x <? m0) = false -> (x <? m) = false.
Proof.
  intros [H| ->] N; trivial.
  destruct (x <? m) eqn:L; trivial. now rewrite (ltb_trans x m m0 L H) in N.
Qed.

(** ** Rounding

    What the development needs of the rounding of binary64, from its
    specification: a quotient of a positive number by one that is not smaller
    lies in [[0, 1]], and subtraction and division by a finite number other
    than zero give NaN only on a NaN. *)

Section Rounding.

Local Open Scope Z_scope.

Lemma iter_pos_nat {A : Type} (f : A -> A) (p : positive) :
  forall x, iter_pos f p x = Nat.iter (Pos.to_nat p) f x.
Proof.
  induction p as [p IH|p IH|]; intros x; cbn [iter_pos].
  - rewrite !IH, Pos2Nat.inj_xI, <- Nat.iter_add, Nat.iter_succ_r. f_equal. lia.
  - rewrite !IH, Pos2Nat.inj_xO, <- Nat.iter_add. f_equal. lia.
  - reflexivity.
Qed.

Lemma shr_1_m (mrs : shr_record) :
  0 <= shr_m mrs -> shr_m (shr_1 mrs) = shr_m mrs / 2 /\ 0 <= shr_m (shr_1 mrs).
Proof.
  destruct mrs as [m r s]. cbn [shr_m]. intros H.
  destruct m as [|[p|p|]|p]; try lia; cbn [shr_1 shr_m]; (split; [|lia]).
  - reflexivity.
  - apply Z.div_unique with (r := 1); lia.
  - apply Z.div_unique with (r := 0); lia.
  - reflexivity.
Qed.

Lemma shr_iter_m (n : nat) (mrs : shr_record) :
  0 <= shr_m mrs ->
  shr_m (Nat.iter n shr_1 mrs) = shr_m mrs / 2 ^ Z.of_nat n
  /\ 0 <= shr_m (Nat.iter n shr_1 mrs).
Proof.
  intros H. induction n as [|n [IH1 IH2]].
  - simpl. now rewrite Z.div_1_r.
  - rewrite Nat.iter_succ. destruct (shr_1_m _ IH2) as [E P]. split; trivial.
    rewrite E, IH1, Z.div_div by lia. f_equal.
    rewrite Nat2Z.inj_succ, Z.pow_succ_r by lia. lia.
Qed.

Lemma shr_iter_exact (n : nat) :
  forall a, 0 <= a ->
  Nat.iter n shr_1 {| shr_m := a * 2 ^ Z.of_nat n; shr_r := false; shr_s := false |}
  = {| shr_m := a; shr_r := false; shr_s := false |}.
Proof.
  induction n as [|n IH]; intros a Ha.
  - simpl. now rewrite Z.mul_1_r.
  - rewrite Nat.iter_succ.
    replace (a * 2 ^ Z.of_nat (S n)) with ((2 * a) * 2 ^ Z.of_nat n)
      by (rewrite Nat2Z.inj_succ, Z.pow_succ_r by lia; lia).
    rewrite IH by lia. destruct a as [|p|p]; try lia; reflexivity.
Qed.

Lemma digits2_size (p : positive) : digits2_pos p = Pos.size p.
Proof. induction p; simpl; congruence. Qed.

Lemma Zdigits2_le (m k : Z) : 0 <= m <= 2 ^ k -> 0 <= k -> Zdigits2 m <= k + 1.
Proof.
  intros [H0 H] Hk. destruct m as [|p|p]; simpl; try lia.
  rewrite digits2_size.
  pose proof (Pos.size_le p) as L.
  apply Pos2Z.pos_le_pos in L. rewrite Pos2Z.inj_pow in L.
  change (Z.pos p~0) with (2 * Z.pos p) in L.
  assert (2 ^ Z.pos (Pos.size p) <= 2 ^ (k + 1)) as H1.
  { rewrite Z.pow_add_r by lia. change (2 ^ 1) with 2. lia. }
  apply Z.pow_le_mono_r_iff in H1; lia.
Qed.

Lemma Zdigits2_bounds (p : positive) :
  2 ^ (Z.pos (digits2_pos p) - 1) <= Z.pos p < 2 ^ Z.pos (digits2_pos p).
Proof.
  rewrite digits2_size. split.
  - pose proof (Pos.size_le p) as L. apply Pos2Z.pos_le_pos in L.
    rewrite Pos2Z.inj_pow in L. change (Z.pos p~0) with (2 * Z.pos p) in L.
    replace (Z.pos (Pos.size p)) with (Z.succ (Z.pos (Pos.size p) - 1)) in L by lia.
    rewrite Z.pow_succ_r in L by lia. lia.
  - pose proof (Pos.size_gt p) as L. apply Pos2Z.pos_lt_pos in L.
    now rewrite Pos2Z.inj_pow in L.
Qed.

Lemma fexp_eq (x : Z) : fexp prec emax x = Z.max (x - 53) (-1074).
Proof. reflexivity. Qed.

Lemma shr_record_of_loc_m (m : Z) (l : location) : shr_m (shr_record_of_loc m l) = m.
Proof. now destruct l as [|[]]. Qed.

Lemma shr_spec (m : Z) (l : location) (e n : Z) :
  0 <= m ->
  exists mrs',
    shr (shr_record_of_loc m l) e n = (mrs', e + Z.max 0 n)
    /\ shr_m mrs' = m / 2 ^ Z.max 0 n
    /\ 0 <= shr_m mrs'
    /\ (l = loc_Exact -> m mod 2 ^ Z.max 0 n = 0 -> loc_of_shr_record mrs' = loc_Exact).
Proof.
  intros Hm. pose proof (shr_record_of_loc_m m l) as Hrec.
  destruct n as [|p|p].
  - exists (shr_record_of_loc m l). cbn [shr Z.max Z.compare].
    rewrite Z.add_0_r, Hrec, Z.div_1_r. repeat split; trivial. now intros ->.
  - exists (iter_pos shr_1 p (shr_record_of_loc m l)).
    replace (Z.max 0 (Z.pos p)) with (Z.pos p) by lia. cbn [shr].
    rewrite iter_pos_nat.
    destruct (shr_iter_m (Pos.to_nat p) (shr_record_of_loc m l)) as [E P];
      [now rewrite Hrec|].
    rewrite positive_nat_Z, Hrec in E. repeat split; trivial.
    intros -> Hmod. apply Z.div_exact in Hmod; [|lia].
    cbn [shr_record_of_loc]. rewrite Hmod at 1.
    rewrite Z.mul_comm, <- (positive_nat_Z p), shr_iter_exact; [reflexivity|].
    rewrite positive_nat_Z. apply Z.div_pos; lia.
  - exists (shr_record_of_loc m l). cbn [shr]. replace (Z.max 0 (Z.neg p)) with 0 by lia.
    rewrite Z.add_0_r, Hrec, Z.div_1_r. repeat split; trivial. now intros ->.
Qed.

Lemma rne_bounds (mq : Z) (l : location) :
  0 <= mq ->
  mq <= round_nearest_even mq l <= mq + 1
  /\ (l = loc_Exact -> round_nearest_even mq l = mq).
Proof.
  intros H. destruct l as [|[]]; simpl; try destruct (Z.even mq); split; try lia; 
    try reflexivity; discriminate.
Qed.

Lemma fexp_small (d e : Z) : d <= - e + 1 -> fexp prec emax (d + e) <= -52.
Proof. rewrite fexp_eq. lia. Qed.

Lemma round_unit (m e : Z) (l : location) :
  e <= -52 ->
  0 <= m <= 2 ^ (- e) ->
  (m = 2 ^ (- e) -> l = loc_Exact) ->
  binary_round_aux prec emax false m e l = S754_zero false
  \/ exists mz ez,
      binary_round_aux prec emax false m e l = S754_finite false mz ez
      /\ (ez < -52 \/ (ez = -52 /\ Z.pos mz <= 2 ^ 52)).
Proof.
  intros He Hm Hex. unfold binary_round_aux, shr_fexp.
  set (n1 := fexp prec emax (Zdigits2 m + e) - e).
  destruct (shr_spec m l e n1) as (mrs1 & E1 & M1 & P1 & X1); [lia|]. rewrite E1.
  assert (fexp prec emax (Zdigits2 m + e) <= -52) as Hf1.
  { apply fexp_small. apply Zdigits2_le; lia. }
  set (N1 := Z.max 0 n1) in *. set (e1 := e + N1) in *.
  assert (e1 <= -52) as He1 by (unfold e1, N1, n1; lia).
  assert (0 <= N1) as HN1 by (unfold N1; lia).
  assert (2 ^ (- e) = 2 ^ N1 * 2 ^ (- e1)) as Hsplit.
  { rewrite <- Z.pow_add_r by lia. f_equal. unfold e1. lia. }
  assert (0 < 2 ^ N1) as HpN1 by (apply Z.pow_pos_nonneg; lia).
  assert (0 < 2 ^ (- e1)) as Hpe1 by (apply Z.pow_pos_nonneg; lia).
  assert (shr_m mrs1 <= 2 ^ (- e1)) as Hq.
  { rewrite M1. apply Z.div_le_upper_bound; lia. }
  set (mr := round_nearest_even (shr_m mrs1) (loc_of_shr_record mrs1)).
  assert (0 <= mr <= 2 ^ (- e1)) as Hmr.
  { destruct (rne_bounds (shr_m mrs1) (loc_of_shr_record mrs1) P1) as [B X]. fold mr in B, X.
    destruct (Z.eq_dec (shr_m mrs1) (2 ^ (- e1))) as [E|NE]; [|lia].
    assert (m = 2 ^ (- e)) as Em.
    { pose proof (Z.mul_div_le m (2 ^ N1) HpN1) as L. rewrite <- M1, E in L. lia. }
    rewrite X; [lia|]. apply X1; [now apply Hex|].
    rewrite Em, Hsplit, Z.mul_comm. apply Z.mod_mul. lia. }
  cbv beta iota.
  set (n2 := fexp prec emax (Zdigits2 mr + e1) - e1).
  destruct (shr_spec mr loc_Exact e1 n2) as (mrs2 & E2 & M2 & P2 & _); [lia|]. rewrite E2.
  assert (fexp prec emax (Zdigits2 mr + e1) <= -52) as Hf2.
  { apply fexp_small. apply Zdigits2_le; lia. }
  set (N2 := Z.max 0 n2) in *. set (e2 := e1 + N2) in *.
  assert (e2 <= -52) as He2 by (unfold e2, N2, n2; lia).
  assert (0 <= N2) as HN2 by (unfold N2; lia).
  assert (2 ^ (- e1) = 2 ^ N2 * 2 ^ (- e2)) as Hsplit2.
  { rewrite <- Z.pow_add_r by lia. f_equal. unfold e2. lia. }
  assert (0 < 2 ^ N2) as HpN2 by (apply Z.pow_pos_nonneg; lia).
  assert (0 < 2 ^ (- e2)) as Hpe2 by (apply Z.pow_pos_nonneg; lia).
  assert (shr_m mrs2 <= 2 ^ (- e2)) as Hq2.
  { rewrite M2. apply Z.div_le_upper_bound; lia. }
  cbv beta iota.
  destruct (shr_m mrs2) as [|mz|mz] eqn:Ez; [now left| |lia].
  right. exists mz, e2. 
  replace (e2 <=? emax - prec) with true by (symmetry; apply Z.leb_le; unfold emax, prec; lia).
  split; trivial.
  destruct (Z.eq_dec e2 (-52)) as [E|NE]; [right|left; lia].
  split; trivial. now rewrite E in Hq2.
Qed.

Lemma valid_finite (s : bool) (m : positive) (e : Z) :
  SpecFloat.valid_binary prec emax (S754_finite s m e) = true ->
  Z.pos (digits2_pos m) <= 53
  /\ -1074 <= e
  /\ (-1074 < e -> Z.pos (digits2_pos m) = 53).
Proof.
  unfold SpecFloat.valid_binary, bounded, canonical_mantissa. rewrite fexp_eq. intros H.
  apply andb_prop in H. destruct H as [H1 H2]. apply Z.eqb_eq in H1. lia.
Qed.

Lemma div_core_unit (m1 m2 : positive) (e1 e2 : Z) :
  SpecFloat.valid_binary prec emax (S754_finite false m1 e1) = true ->
  SpecFloat.valid_binary prec emax (S754_finite false m2 e2) = true ->
  SFleb (S754_finite false m1 e1) (S754_finite false m2 e2) = true ->
  exists q e' l,
    SFdiv_core_binary prec emax (Z.pos m1) e1 (Z.pos m2) e2 = (q, e', l)
    /\ e' <= -52
    /\ 0 <= q <= 2 ^ (- e')
    /\ (q = 2 ^ (- e') -> l = loc_Exact).
Proof.
  intros V1 V2 Hle.
  apply valid_finite in V1. destruct V1 as (D1 & E1 & N1).
  apply valid_finite in V2. destruct V2 as (D2 & E2 & N2).
  pose proof (Zdigits2_bounds m1) as [B1l B1u].
  pose proof (Zdigits2_bounds m2) as [B2l B2u].
  set (d1 := Z.pos (digits2_pos m1)) in *. set (d2 := Z.pos (digits2_pos m2)) in *.
  assert (e1 <= e2 /\ Z.pos m1 <= Z.pos m2 * 2 ^ (e2 - e1) /\ d1 + e1 - (d2 + e2) <= 0)
    as (He & Hm & HD).
  { unfold SFleb, SFcompare in Hle. destruct (Z.compare_spec e1 e2) as [E|L|L]; try discriminate.
    - subst e2. rewrite Z.sub_diag, Z.mul_1_r.
      change (Pos.compare_cont Eq m1 m2) with (Pos.compare m1 m2) in Hle.
      assert (Z.pos m1 <= Z.pos m2) as Hm.
      { destruct (Pos.compare_spec m1 m2) as [E|L|L]; try discriminate; lia. }
      repeat split; trivial; try lia.
      assert (2 ^ (d1 - 1) < 2 ^ d2) as P by lia.
      apply Z.pow_lt_mono_r_iff in P; lia.
    - assert (d2 = 53) as -> by lia.
      assert (2 ^ d1 <= 2 ^ 53) as P by (apply Z.pow_le_mono_r; lia).
      assert (2 ^ 1 <= 2 ^ (e2 - e1)) as P2 by (apply Z.pow_le_mono_r; lia).
      change (2 ^ 1) with 2 in P2. change (2 ^ (53 - 1)) with 4503599627370496 in B2l.
      change (2 ^ 53) with 9007199254740992 in P.
      repeat split; try lia; nia. }
  unfold SFdiv_core_binary. fold d1 d2.
  change (Zdigits2 (Z.pos m1)) with d1. change (Zdigits2 (Z.pos m2)) with d2.
  set (e' := Z.min (fexp prec emax (d1 + e1 - (d2 + e2))) (e1 - e2)).
  assert (e' <= -52) as He'.
  { unfold e'. rewrite fexp_eq. lia. }
  set (s := e1 - e2 - e').
  assert (0 <= s) as Hs by (unfold s, e'; lia).
  set (m' := match s with
             | 0 => Z.pos m1
             | Z.pos _ => Z.shiftl (Z.pos m1) s
             | Z.neg _ => 0
             end).
  assert (m' = Z.pos m1 * 2 ^ s) as Em'.
  { unfold m'. destruct s as [|p|p] eqn:Es; try lia.
    now rewrite Z.shiftl_mul_pow2 by lia. }
  pose proof (Z_div_mod m' (Z.pos m2) eq_refl) as Hdiv.
  destruct (Z.div_eucl m' (Z.pos m2)) as [q r]. destruct Hdiv as [Hq Hr].
  exists q, e', (new_location (Z.pos m2) r). split; trivial. split; trivial.
  assert (2 ^ (- e') = 2 ^ (e2 - e1) * 2 ^ s) as Hsplit.
  { rewrite <- Z.pow_add_r by lia. f_equal. unfold s. lia. }
  assert (0 < 2 ^ s) as Hps by (apply Z.pow_pos_nonneg; lia).
  assert (m' <= Z.pos m2 * 2 ^ (- e')) as Hb.
  { rewrite Em', Hsplit. nia. }
  assert (0 <= q <= 2 ^ (- e')) as Hqb by nia.
  split; trivial.
  intros Eq. assert (r = 0) as -> by nia.
  unfold new_location, new_location_even, new_location_odd.
  now destruct (Z.even (Z.pos m2)).
Qed.

End Rounding.

Lemma div_in_unit (x y : float) :
  (x <? infinity) = true ->
  (0 <? x) = true ->
  (x <=? y) = true ->
  (0 <=? x / y) = true /\ (x / y <=? 1) = true.
Proof.
  rewrite !ltb_spec, !leb_spec, div_spec.
  pose proof (Prim2SF_valid x) as Vx. pose proof (Prim2SF_valid y) as Vy.
  change (Prim2SF infinity) with (S754_infinity false).
  change (Prim2SF 0) with (S754_zero false).
  change (Prim2SF 1) with (S754_finite false 4503599627370496 (-52)).
  destruct (Prim2SF x) as [sx|sx| |sx m1 e1]; try discriminate;
    [destruct sx; discriminate|].
  intros _ Hpos Hle. destruct sx; [discriminate|].
  destruct (Prim2SF y) as [sy|sy| |sy m2 e2]; try discriminate.
  - destruct sy; [discriminate|]. split; reflexivity.
  - destruct sy; [discriminate|].
    unfold SF64div, SFdiv.
    destruct (div_core_unit m1 m2 e1 e2 Vx Vy Hle) as (q & e' & l & E & He' & Hq & Hx).
    rewrite E. cbn [xorb].
    destruct (round_unit q e' l He' Hq Hx) as [R|(mz & ez & R & Hb)]; rewrite R.
    + split; reflexivity.
    + split; [reflexivity|]. unfold SFleb, SFcompare.
      destruct Hb as [L|[-> L]].
      * assert ((ez ?= -52)%Z = Lt) as -> by now apply Z.compare_lt_iff.
        reflexivity.
      * rewrite Z.compare_refl.
        change (2 ^ 52)%Z with (Z.pos 4503599627370496%positive) in L.
        assert (forall a b, PosDef.Pos.compare_cont Eq a b = Pos.compare a b) as HH
          by reflexivity.
        rewrite HH.
        destruct (Pos.compare_spec mz 4503599627370496%positive) as [C|C|C];
          [reflexivity|reflexivity|lia].
Qed.

Lemma round_aux_not_nan (sx : bool) (m e : Z) (l : location) :
  (0 <= m)%Z -> binary_round_aux prec emax sx m e l <> S754_nan.
Proof.
  intros Hm. unfold binary_round_aux, shr_fexp.
  destruct (shr_spec m l e (fexp prec emax (Zdigits2 m + e) - e) Hm)
    as (mrs1 & E1 & _ & P1 & _).
  rewrite E1. cbv beta iota.
  destruct (rne_bounds (shr_m mrs1) (loc_of_shr_record mrs1) P1) as [B _].
  set (mr := round_nearest_even (shr_m mrs1) (loc_of_shr_record mrs1)) in *.
  destruct (shr_spec mr loc_Exact (e + Z.max 0 (fexp prec emax (Zdigits2 m + e) - e))
              (fexp prec emax
                 (Zdigits2 mr + (e + Z.max 0 (fexp prec emax (Zdigits2 m + e) - e)))
               - (e + Z.max 0 (fexp prec emax (Zdigits2 m + e) - e))))
    as (mrs2 & E2 & _ & P2 & _); [lia|].
  rewrite E2. cbv beta iota.
  destruct (shr_m mrs2) as [|mz|mz]; [discriminate| |lia].
  now destruct (_ <=? _)%Z.
Qed.

Lemma binary_normalize_not_nan (m e : Z) (sz : bool) :
  binary_normalize prec emax m e sz <> S754_nan.
Proof.
  destruct m as [|p|p]; cbn [binary_normalize]; [discriminate| |];
    unfold binary_round;
    destruct (shl_align _ _ _) as [mz ez]; now apply round_aux_not_nan.
Qed.

Lemma SFsub_nan_r (x : spec_float) (s : bool) (m : positive) (e : Z) :
  SF64sub x (S754_finite s m e) = S754_nan <-> x = S754_nan.
Proof.
  split; [|now intros ->].
  destruct x as [sx|sx| |sx mx ex]; cbn [SF64sub SFsub]; try discriminate; trivial.
  intros H. now apply binary_normalize_not_nan in H.
Qed.

Lemma SFsub_nan_l (y : spec_float) (s : bool) (m : positive) (e : Z) :
  SF64sub (S754_finite s m e) y = S754_nan <-> y = S754_nan.
Proof.
  split; [|now intros ->].
  destruct y as [sy|sy| |sy my ey]; cbn [SF64sub SFsub]; try discriminate; trivial.
  intros H. now apply binary_normalize_not_nan in H.
Qed.

Lemma SFdiv_nan_r (x : spec_float) (s : bool) (m : positive) (e : Z) :
  SF64div x (S754_finite s m e) = S754_nan <-> x = S754_nan.
Proof.
  split; [|now intros ->].
  destruct x as [sx|sx| |sx mx ex]; cbn [SF64div SFdiv]; try discriminate; trivial.
  unfold SFdiv_core_binary.
  set (m' := match _ with 0%Z => Z.pos mx | Z.pos _ => _ | Z.neg _ => 0%Z end).
  assert (0 <= m')%Z as Hm'.
  { unfold m'. destruct (_ - _ - _)%Z; try lia. now apply Z.shiftl_nonneg. }
  pose proof (Z_div_mod m' (Z.pos m) eq_refl) as Hdiv.
  destruct (Z.div_eucl m' (Z.pos m)) as [q r]. destruct Hdiv as [Hq Hr].
  intros H. exfalso. revert H. apply round_aux_not_nan. nia.
Qed.

Lemma is_nan_eq (x y : float) :
  (Prim2SF x = S754_nan <-> Prim2SF y = S754_nan) -> is_nan x = is_nan y.
Proof.
  intros H. destruct (is_nan x) eqn:X, (is_nan y) eqn:Y; trivial.
  - apply is_nan_spec, H, is_nan_spec in X. congruence.
  - apply is_nan_spec, H, is_nan_spec in Y. congruence.
Qed.

Lemma is_nan_sub_r (x c : float) : finite_nonzero c = true -> is_nan (x - c) = is_nan x.
Proof.
  unfold finite_nonzero. intros H. apply is_nan_eq. rewrite sub_spec.
  destruct (Prim2SF c) as [| | |s m e]; try discriminate. apply SFsub_nan_r.
Qed.

Lemma is_nan_sub_l (c y : float) : finite_nonzero c = true -> is_nan (c - y) = is_nan y.
Proof.
  unfold finite_nonzero. intros H. apply is_nan_eq. rewrite sub_spec.
  destruct (Prim2SF c) as [| | |s m e]; try discriminate. apply SFsub_nan_l.
Qed.

Lemma is_nan_div_r (x c : float) : finite_nonzero c = true -> is_nan (x / c) = is_nan x.
Proof.
  unfold finite_nonzero. intros H. apply is_nan_eq. rewrite div_spec.
  destruct (Prim2SF c) as [| | |s m e]; try discriminate. apply SFdiv_nan_r.
Qed.

Lemma leb_nan_r x y : is_nan y = true -> (x <=? y) = false.
Proof.
  intros N. apply is_nan_spec in N. rewrite leb_spec, N. unfold SFleb.
  now destruct (Prim2SF x).
Qed.

(** ** Outcomes *)

Lemma bind_Ok {A B : Type} (m : Outcome A) (k : A -> Outcome B) (b : B) :
  bind m k = Ok b -> exists a, m = Ok a /\ k a = Ok b.
Proof. destruct m; simpl; intros H; try discriminate. eauto. Qed.

Ltac bind_inv H :=
  let a := fresh "a" in
  let E := fresh "E" in
  apply bind_Ok in H; destruct H as (a & E & H).

Tactic Notation "unbind" hyp(H) "as" simple_intropattern(p) ident(E) :=
  apply bind_Ok in H; destruct H as (p & E & H).

Section Properties.

Context {G : Type} {TG : TrackGraph G} {U : Utilities} {M : Libm}.

(** ** The fit *)

Lemma Compute_as_fit (g : G) (c : VtxCandidate) :
  Compute g c =
  bind (Compute_fit g (fSegMinLength c) (fAssigned c))
       (fun r => Ok (fst r, set_fit c (fst (snd r)) (snd (snd r)))).
Proof.
  unfold Compute, Compute_fit.
  destruct (Compute_collect g (fSegMinLength c) (fAssigned c)) as [lines| |]; simpl; trivial.
  destruct (SolveLeastSquares3D (map line_ends lines)) as [resultMse result].
  destruct (resultMse <? 0); simpl; trivial.
  destruct (Compute_sums g result lines (v3_zero, v3_zero, 0)) as [[[center err] wsum]| |];
    simpl; trivial.
Qed.

Lemma Compute_Ok (g : G) (c c1 : VtxCandidate) (m : float) :
  Compute g c = Ok (m, c1) ->
  exists center err,
    Compute_fit g (fSegMinLength c) (fAssigned c) = Ok (m, (center, err))
    /\ c1 = set_fit c center err.
Proof.
  rewrite Compute_as_fit. intros H. bind_inv H.
  destruct a as [m' [center err]]. simpl in H. injection H as -> <-. eauto.
Qed.

Lemma Compute_of_fit (g : G) (c : VtxCandidate) (m : float) (center err : TVector3) :
  Compute_fit g (fSegMinLength c) (fAssigned c) = Ok (m, (center, err)) ->
  Compute g c = Ok (m, set_fit c center err).
Proof. intros H. rewrite Compute_as_fit, H. reflexivity. Qed.

Lemma Compute_again (g : G) (c c1 : VtxCandidate) (m : float) :
  Compute g c = Ok (m, c1) -> Compute g c1 = Ok (m, c1).
Proof.
  intros H. apply Compute_Ok in H. destruct H as (center & err & F & ->).
  now rewrite (Compute_of_fit g (set_fit c center err) m center err F).
Qed.

(** C8. [Compute()] is idempotent: a second call right after a first one, the
    assigned set and the track graph untouched in between, returns the same
    residual and leaves the same [fCenter] and [fErr] (the same candidate,
    field for field). *)
Theorem Compute_idempotent (g : G) (c c1 : VtxCandidate) (m : float) :
  Compute g c = Ok (m, c1) ->
  exists m' c2,
    Compute g c1 = Ok (m', c2)
    /\ m' = m /\ fCenter c2 = fCenter c1 /\ fErr c2 = fErr c1 /\ c2 = c1.
Proof.
  intros H. exists m, c1. rewrite (Compute_again g c c1 m H). repeat split.
Qed.

Lemma Compute_collect_too_short (g : G) (segMinLength : float)
  (assigned : list (TrkCandidate * Z)) :
  Forall (too_short g segMinLength) assigned ->
  Compute_collect g segMinLength assigned = Ok [].
Proof.
  induction 1 as [|v rest (vtx1 & seg & Hn & Hs & Hl) _ IH]; simpl; trivial.
  rewrite Hn. simpl. rewrite Hs. simpl. now rewrite Hl.
Qed.

(** C9, as the code has it.  When the assigned set is empty, or every
    assigned segment is shorter than the minimum segment length, no line
    enters the fit and the solver is called on an empty set.  If the residual
    it returns is not negative, [Compute] divides by the zero weight sum and
    the zero segment count: every component of [fCenter] and [fErr] is NaN,
    and the solver's residual is returned.  If it is negative, [Compute]
    returns [1.0E+6] with [fCenter] and [fErr] at zero. *)
Theorem Compute_nothing_to_fit (g : G) (c : VtxCandidate) :
  Forall (too_short g (fSegMinLength c)) (fAssigned c) ->
  ((fst (SolveLeastSquares3D []) <? 0) = false ->
   Compute g c = Ok (fst (SolveLeastSquares3D []),
                     set_fit c (mkV3 nan nan nan) (mkV3 nan nan nan)))
  /\ ((fst (SolveLeastSquares3D []) <? 0) = true ->
      Compute g c = Ok (1.0E+6, set_fit c v3_zero v3_zero)).
Proof.
  intros H. apply Compute_collect_too_short in H.
  unfold Compute. rewrite H. simpl.
  destruct (SolveLeastSquares3D []) as [resultMse result]. simpl.
  split; intros ->; reflexivity.
Qed.

Lemma segment_weight_nan (dy segLength : float) :
  is_nan (segment_weight dy segLength) = false ->
  is_nan (segment_weight_raw dy segLength) = false.
Proof.
  unfold segment_weight.
  destruct (is_nan (segment_weight_raw dy segLength)) eqn:N; trivial.
  now rewrite (ltb_nan_l _ 0.3 N), N.
Qed.

Lemma segment_weight_ge (dy segLength : float) :
  is_nan (segment_weight_raw dy segLength) = false ->
  (0.3 <=? segment_weight dy segLength) = true.
Proof.
  intros N. unfold segment_weight.
  destruct (segment_weight_raw dy segLength <? 0.3) eqn:L.
  - reflexivity.
  - now apply not_ltb_leb.
Qed.

Lemma Compute_collect_weights (g : G) (segMinLength : float)
  (assigned : list (TrkCandidate * Z)) (lines : list FitLine) :
  Compute_collect g segMinLength assigned = Ok lines ->
  Forall (fun l => line_w l =
                   segment_weight (Y (fst (line_ends l)) - Y (snd (line_ends l)))
                                  (seg_Length g (line_seg l))) lines.
Proof.
  revert lines. induction assigned as [|v rest IH]; simpl; intros lines H.
  - injection H as <-. constructor.
  - bind_inv H. bind_inv H.
    destruct (seg_Length g a0 >=? segMinLength).
    + bind_inv H. bind_inv H. injection H as <-. constructor; auto.
    + auto.
Qed.

Lemma segment_weight_not_below (dy segLength : float) :
  (segment_weight dy segLength <? 0.3) = false.
Proof.
  unfold segment_weight.
  now destruct (segment_weight_raw dy segLength <? 0.3) eqn:L.
Qed.

Lemma half_pi : 0.5 * Pi = Pi / 2.
Proof. reflexivity. Qed.

Lemma segment_weight_specified (dy segLength : float) :
  segment_weight dy segLength = specified_weight dy segLength.
Proof.
  unfold segment_weight, segment_weight_raw, segment_fy_norm, specified_weight.
  now rewrite half_pi.
Qed.

(** The lines of [Compute], entry by entry. *)
Lemma Compute_collect_lines (g : G) (segMinLength : float)
  (assigned : list (TrkCandidate * Z)) (lines : list FitLine) :
  Compute_collect g segMinLength assigned = Ok lines ->
  Forall (fun l => exists v, In v assigned /\ fit_line g segMinLength v l) lines.
Proof.
  revert lines. induction assigned as [|v rest IH]; simpl; intros lines H.
  - injection H as <-. constructor.
  - unbind H as vtx1 H1. unbind H as seg Hseg.
    destruct (trk_NextSegment g (Track (fst v)) vtx1) as [seg'|] eqn:N; [|discriminate].
    injection Hseg as ->.
    assert (forall more,
               Forall (fun l => exists v0, In v0 rest /\ fit_line g segMinLength v0 l) more ->
               Forall (fun l => exists v0, (v = v0 \/ In v0 rest)
                                           /\ fit_line g segMinLength v0 l) more) as Hweak.
    { intros more Hm. eapply Forall_impl; [|exact Hm]. intros l (v0 & Hin & Hl). eauto. }
    destruct (seg_Length g seg >=? segMinLength) eqn:L; [|auto].
    unbind H as vtx2 H2. unbind H as more Hmore. injection H as <-.
    destruct (seg_Next g seg 0) as [vtx2'|] eqn:N2; [|discriminate]. injection H2 as ->.
    constructor; [|auto].
    exists v. split; [now left|]. exists vtx1, vtx2. now repeat split.
Qed.

(** C7, as the code has it.  The weight of a segment that enters the fit is
    [w = 1 - (fy_norm - 1)^12] with [fy_norm = asin(|dy| / segLength) / (pi/2)],
    raised to [0.3] when it is below: [Compute] gives that weight to every
    line it fits, from the points of the two nodes and the length of the
    segment.  For all [dy] and [segLength] the weight is not below [0.3], and
    it is at least [0.3] exactly when [pow] returned a number.  It is at
    least [0.3] for every finite [dy] and every [segLength] with
    [0 < |dy| <= segLength]: the quotient [|dy| / segLength] then lies in
    [[0, 1]], where [asin] is to return a number, and so is the argument of
    [pow] one.  It is not for [dy = segLength = +oo], where the quotient is
    NaN. *)
Theorem segment_weight_floor (dy segLength : float) :
  segment_weight dy segLength = specified_weight dy segLength
  /\ (forall (g : G) (segMinLength : float) (assigned : list (TrkCandidate * Z))
             (lines : list FitLine) (l : FitLine),
        Compute_collect g segMinLength assigned = Ok lines ->
        In l lines ->
        (exists v, In v assigned /\ fit_line g segMinLength v l)
        /\ line_w l = specified_weight (Y (fst (line_ends l)) - Y (snd (line_ends l)))
                                       (seg_Length g (line_seg l))
        /\ (line_w l <? 0.3) = false)
  /\ (segment_weight dy segLength <? 0.3) = false
  /\ ((0.3 <=? segment_weight dy segLength) = true
      <-> is_nan (pow (asin (abs dy / segLength) / (Pi / 2) - 1) 12) = false)
  /\ ((abs dy <? infinity) = true ->
      (0 <? abs dy) = true ->
      (abs dy <=? segLength) = true ->
      asin_conforms_at (abs dy / segLength) ->
      pow12_conforms_at (asin (abs dy / segLength) / (Pi / 2) - 1) ->
      (0 <=? abs dy / segLength) = true
      /\ (abs dy / segLength <=? 1) = true
      /\ (0.3 <=? segment_weight dy segLength) = true).
Proof.
  assert ((0.3 <=? segment_weight dy segLength) = true
          <-> is_nan (pow (asin (abs dy / segLength) / (Pi / 2) - 1) 12) = false) as Hiff.
  { assert (is_nan (segment_weight_raw dy segLength)
            = is_nan (pow (asin (abs dy / segLength) / (Pi / 2) - 1) 12)) as <-.
    { unfold segment_weight_raw, segment_fy_norm. rewrite half_pi.
      now apply is_nan_sub_l. }
    split.
    - intros H. destruct (is_nan (segment_weight_raw dy segLength)) eqn:N; trivial.
      assert (is_nan (segment_weight dy segLength) = true) as N'.
      { unfold segment_weight. now rewrite (ltb_nan_l _ 0.3 N). }
      now rewrite (leb_nan_r 0.3 _ N') in H.
    - apply segment_weight_ge. }
  split; [apply segment_weight_specified|].
  split; [|split; [apply segment_weight_not_below|split; [exact Hiff|]]].
  - intros g segMinLength assigned lines l H Hin.
    pose proof (Compute_collect_lines g _ _ _ H) as Hl.
    apply Compute_collect_weights in H. rewrite Forall_forall in H, Hl.
    split; [now apply Hl|]. rewrite (H l Hin).
    split; [apply segment_weight_specified|apply segment_weight_not_below].
  - intros Hfin Hpos Hle Hasin Hpow.
    destruct (div_in_unit (abs dy) segLength Hfin Hpos Hle) as [H0 H1].
    repeat split; trivial.
    apply Hiff, Hpow. rewrite is_nan_sub_r by reflexivity.
    rewrite is_nan_div_r by reflexivity. now apply Hasin.
Qed.

(** ** [MaxAngle] *)

(** C10. On a candidate with no assigned track the bound
    [fAssigned.size() - 1] of the first loop of [MaxAngle] wraps around to
    the largest [size_t], and the loop reads [fAssigned[0]] past the end. *)
Theorem MaxAngle_empty (g : G) (c : VtxCandidate) (minLength : float) :
  fAssigned c = [] ->
  MaxAngle_bound c = 18446744073709551615%Z
  /\ at_ (fAssigned c) 0 = Undefined
  /\ MaxAngle g c minLength = Undefined.
Proof.
  intros H. unfold MaxAngle, MaxAngle_reference, MaxAngle_bound. rewrite H.
  repeat split.
Qed.

(** ** [JoinTracks] *)

Lemma JoinTracks_guard (s : JoinState G) :
  tracksJoined (js_c s) = true -> JoinTracks s = Ok (repeated_commit s).
Proof. intros H. unfold JoinTracks. now rewrite H. Qed.

Lemma JoinTracks_finish_flag (c : VtxCandidate) (src : list TrkCandidate) (st : Joining G)
  (r : JoinResult G) :
  tracksJoined c = true ->
  JoinTracks_finish c src st = Ok r ->
  tracksJoined (js_c (jr_state r)) = true.
Proof.
  intros Hc. unfold JoinTracks_finish.
  destruct (j_vtxCenter st) as [vtxCenter|].
  - intros H. bind_inv H.
    destruct (trk_GetBranches (j_g st) a) as [noLoops branchesToRemove].
    destruct (noLoops && (j_nOK st >? 1)%Z).
    + destruct (trk_TuneFullTree (j_g st) a) as [tune g'].
      destruct (tune >? -2); simpl in H.
      * rewrite andb_true_r in H. destruct noLoops; simpl in H.
        -- injection H as <-. exact Hc.
        -- destruct (JoinTracks_remove g' (j_tracks st) branchesToRemove).
           injection H as <-. exact Hc.
      * rewrite andb_false_r in H. simpl in H.
        destruct (JoinTracks_remove g' (j_tracks st) branchesToRemove).
        injection H as <-. exact Hc.
    + destruct (negb (noLoops && true)).
      * destruct (JoinTracks_remove (j_g st) (j_tracks st) branchesToRemove).
        injection H as <-. exact Hc.
      * injection H as <-. exact Hc.
  - intros H. injection H as <-. exact Hc.
Qed.

Lemma JoinTracks_sets_flag (s : JoinState G) (r : JoinResult G) :
  JoinTracks s = Ok r -> tracksJoined (js_c (jr_state r)) = true.
Proof.
  unfold JoinTracks. destruct (tracksJoined (js_c s)) eqn:F.
  - intros H. injection H as <-. exact F.
  - intros H. bind_inv H. destruct a as [src st].
    now apply JoinTracks_finish_flag in H.
Qed.

(** C6. [JoinTracks] is one-shot.  On a candidate whose [tracksJoined] flag is
    set, which is how any completed call of [JoinTracks] leaves it, a call
    returns [false], logs the error "Tracks already attached to the vertex."
    and leaves the candidate, the track graph, [tracks] and [src] as they
    were. *)
Theorem JoinTracks_one_shot (s : JoinState G) :
  (tracksJoined (js_c s) = true
   \/ exists s0 r0, JoinTracks s0 = Ok r0 /\ s = jr_state r0) ->
  exists r,
    JoinTracks s = Ok r
    /\ jr_result r = false
    /\ jr_error r = Some "Tracks already attached to the vertex."%string
    /\ jr_state r = s.
Proof.
  intros H. exists (repeated_commit s).
  split; [|repeat split].
  apply JoinTracks_guard.
  destruct H as [H|(s0 & r0 & H & ->)]; trivial.
  now apply JoinTracks_sets_flag in H.
Qed.

(** ** Refitting and rolling back *)

Lemma ComputeMse2D_reads (g : G) (c c' : VtxCandidate) :
  fCenter c' = fCenter c -> fAssigned c' = fAssigned c ->
  ComputeMse2D g c' = ComputeMse2D g c.
Proof. unfold ComputeMse2D. now intros -> ->. Qed.

Lemma fitted_Consistent (g : G) (c c1 : VtxCandidate) (mse mse2d : float) :
  Compute g c = Ok (mse, c1) ->
  ComputeMse2D g (set_fMse c1 mse) = Ok mse2d ->
  Consistent g (set_fMse2D (set_fMse c1 mse) mse2d).
Proof.
  intros HC H2. apply Compute_Ok in HC. destruct HC as (center & err & F & ->).
  split.
  - exact (Compute_of_fit g (set_fMse2D (set_fMse (set_fit c center err) mse) mse2d)
             mse center err F).
  - transitivity (ComputeMse2D g (set_fMse (set_fit c center err) mse)).
    + now apply ComputeMse2D_reads.
    + exact H2.
Qed.

Lemma refit_Consistent (g : G) (c c' : VtxCandidate) :
  refit g c = Ok c' -> Consistent g c' /\ fAssigned c' = fAssigned c.
Proof.
  unfold refit. intros H. bind_inv H. destruct a as [mse c1]. bind_inv H.
  injection H as <-. split.
  - now apply (fitted_Consistent g c).
  - apply Compute_Ok in E. now destruct E as (center & err & _ & ->).
Qed.

Lemma pop_back_n_app {A : Type} (l added : list A) :
  pop_back_n (List.length added) (l ++ added) = l.
Proof.
  induction added as [|x added IH] using rev_ind.
  - now rewrite app_nil_r.
  - rewrite length_app, Nat.add_comm. simpl.
    now rewrite app_assoc, removelast_last.
Qed.

(** The loop of [MergeWith] only appends, and counts what it appends. *)
Lemma MergeWith_append_spec (g : G) (others : list (TrkCandidate * Z)) :
  forall (c c' : VtxCandidate) (ntrk : Z) (r : option Z),
    MergeWith_append g c others ntrk = Ok (c', r) ->
    exists added,
      c' = set_fAssigned c (fAssigned c ++ added)
      /\ (forall ntrk', r = Some ntrk' -> ntrk' = (ntrk + Z.of_nat (List.length added))%Z).
Proof.
  induction others as [|t rest IH]; simpl; intros c c' ntrk r H.
  - injection H as <- <-. exists []. rewrite app_nil_r. split.
    + now destruct c.
    + intros ntrk' [= <-]. simpl. lia.
  - bind_inv H. destruct a.
    + injection H as <- <-. exists []. rewrite app_nil_r. split.
      * now destruct c.
      * discriminate.
    + destruct (negb (Has c (Track (fst t)))).
      * apply IH in H. destruct H as (added & -> & Hn). exists (t :: added). split.
        -- simpl. now rewrite <- app_assoc.
        -- intros ntrk' Hr. rewrite (Hn ntrk' Hr). simpl List.length. lia.
      * now apply IH in H.
Qed.

(** ** [MergeWith] *)

(** Three ways [MergeWith] fails and leaves the candidate as it was: beyond
    the distance gate and with no new track nothing is touched, and after a
    high residual the appended entries are taken off again. *)
Lemma MergeWith_too_far (g : G) (c other : VtxCandidate) :
  (PrimFloat.sqrt (Dist2 (fCenter c) (fCenter other)) >? 10.0) = true ->
  MergeWith g c other = Ok (false, c).
Proof. intros H. unfold MergeWith. now rewrite H. Qed.

Lemma MergeWith_rolled_back (g : G) (c other c' : VtxCandidate) (c1 c2 : VtxCandidate)
  (ntrk : Z) (mse : float) :
  (PrimFloat.sqrt (Dist2 (fCenter c) (fCenter other)) >? 10.0) = false ->
  MergeWith_append g c (fAssigned other) 0 = Ok (c1, Some ntrk) ->
  (ntrk =? 0)%Z = false ->
  Compute g c1 = Ok (mse, c2) ->
  (mse <? 1.0) = false ->
  MergeWith g c other = Ok (false, c') ->
  fAssigned c' = fAssigned c /\ Consistent g c'.
Proof.
  intros Hd Ha Hn HC Hm. unfold MergeWith. rewrite Hd, Ha. simpl. rewrite Hn. simpl.
  rewrite HC. simpl. rewrite Hm. intros H. bind_inv H. injection H as <-.
  apply refit_Consistent in E. destruct E as [HK HA]. split; trivial.
  rewrite HA. simpl.
  apply MergeWith_append_spec in Ha. destruct Ha as (added & -> & Hlen).
  specialize (Hlen ntrk eq_refl). subst ntrk.
  apply Compute_Ok in HC. destruct HC as (center & err & _ & ->). simpl.
  rewrite ?Z.add_0_l, Nat2Z.id. apply pop_back_n_app.
Qed.

(** After a high residual a candidate whose derived state was the fit of its
    assigned set is, field for field, what it was before the call. *)
Lemma MergeWith_rollback_restores (g : G) (c other c' : VtxCandidate) (c1 c2 : VtxCandidate)
  (ntrk : Z) (mse : float) :
  Consistent g c ->
  (PrimFloat.sqrt (Dist2 (fCenter c) (fCenter other)) >? 10.0) = false ->
  MergeWith_append g c (fAssigned other) 0 = Ok (c1, Some ntrk) ->
  (ntrk =? 0)%Z = false ->
  Compute g c1 = Ok (mse, c2) ->
  (mse <? 1.0) = false ->
  MergeWith g c other = Ok (false, c') ->
  c' = c.
Proof.
  intros [HKc HKc2] Hd Ha Hn HC Hm. unfold MergeWith.
  rewrite Hd, Ha. simpl. rewrite Hn. simpl. rewrite HC. simpl. rewrite Hm.
  apply MergeWith_append_spec in Ha. destruct Ha as (added & -> & Hlen).
  specialize (Hlen ntrk eq_refl). subst ntrk. rewrite Z.add_0_l, Nat2Z.id.
  apply Compute_Ok in HC. destruct HC as (center & err & _ & ->).
  cbn [fAssigned set_fit set_fAssigned]. rewrite pop_back_n_app.
  apply Compute_Ok in HKc. destruct HKc as (center0 & err0 & F0 & Ec).
  intros H. unbind H as cr Hrefit. injection H as <-.
  unfold refit in Hrefit. unbind Hrefit as [mse' c3] HC3.
  rewrite (Compute_of_fit g
             (set_fAssigned (set_fit (set_fAssigned c (fAssigned c ++ added)) center err)
                            (fAssigned c))
             (fMse c) center0 err0 F0) in HC3.
  apply (f_equal (fun o => match o with Ok p => p | _ => (mse', c3) end)) in HC3.
  cbv beta iota in HC3.
  assert (mse' = fMse c) as -> by exact (f_equal fst (eq_sym HC3)).
  assert (c3 = snd (fMse c, c3)) as Ec3 by reflexivity.
  rewrite <- HC3 in Ec3. cbn [snd] in Ec3. subst c3.
  unbind Hrefit as mse2d H2. injection Hrefit as <-.
  assert (ComputeMse2D g (set_fit c center0 err0) = Ok (fMse2D c)) as H2'.
  { now rewrite <- Ec. }
  unfold ComputeMse2D in H2, H2'.
  cbn [fAssigned fCenter set_fit set_fAssigned set_fMse] in H2, H2'.
  rewrite H2' in H2.
  apply (f_equal (fun o => match o with Ok p => p | _ => mse2d end)) in H2.
  cbv beta iota in H2. subst mse2d.
  transitivity (set_fit c center0 err0); [reflexivity|now symmetry].
Qed.

Lemma MergeWith_no_tracks (g : G) (c other c1 : VtxCandidate) :
  MergeWith_append g c (fAssigned other) 0 = Ok (c1, Some 0%Z) ->
  forall b c', MergeWith g c other = Ok (b, c') -> b = false /\ c' = c.
Proof.
  intros Ha b c'. unfold MergeWith.
  destruct (PrimFloat.sqrt (Dist2 (fCenter c) (fCenter other)) >? 10).
  - intros [= <- <-]. now split.
  - rewrite Ha. simpl. intros [= <- <-]. split; trivial.
    apply MergeWith_append_spec in Ha. destruct Ha as (added & -> & Hlen).
    specialize (Hlen 0%Z eq_refl). destruct added; [|simpl in Hlen; lia].
    rewrite app_nil_r. now destruct c.
Qed.

(** C5, as the code has it.  [Add] ends with [fMse = Compute()] and
    [fMse2D = ComputeMse2D()] on the final assigned set, so that the derived
    state is the fit of that set, when the track is not rejected as attached
    and either the candidate had two or more tracks (accepted or not) or it
    had one and the track is accepted.  So does a successful [MergeWith], and
    a [MergeWith] that takes its appended tracks off again after a high
    residual. *)
Theorem derived_state_recomputed (g : G) (c : VtxCandidate) :
  (forall (trk : TrkCandidate) (b : bool) (c' : VtxCandidate),
      IsAttached g c (Track trk) = Ok false ->
      Add g c trk = Ok (b, c') ->
      (2 <= List.length (fAssigned c))%nat
      \/ (List.length (fAssigned c) = 1%nat /\ b = true) ->
      Consistent g c')
  /\ (forall (other c' : VtxCandidate),
        MergeWith g c other = Ok (true, c') -> Consistent g c')
  /\ (forall (other c1 c2 c' : VtxCandidate) (ntrk : Z) (mse : float),
        (PrimFloat.sqrt (Dist2 (fCenter c) (fCenter other)) >? 10.0) = false ->
        MergeWith_append g c (fAssigned other) 0 = Ok (c1, Some ntrk) ->
        (ntrk =? 0)%Z = false ->
        Compute g c1 = Ok (mse, c2) ->
        (mse <? 1.0) = false ->
        MergeWith g c other = Ok (false, c') ->
        fAssigned c' = fAssigned c /\ Consistent g c').
Proof.
  split; [|split].
  - intros trk b c' Hatt H Hsize. unfold Add in H. rewrite Hatt in H. simpl in H.
    unfold size in H. rewrite length_app in H. simpl List.length in H.
    destruct (Z.gtb_spec (Z.of_nat (List.length (fAssigned c) + 1)) 2) as [E3|E3].
    + unbind H as st Hscan. destruct (s3_d_best st <? kMaxDistToTrack);
        unbind H as c1 Hfit; injection H as <- <-; now apply refit_Consistent in Hfit.
    + destruct (Z.eqb_spec (Z.of_nat (List.length (fAssigned c) + 1)) 2) as [E2|E2].
      * destruct Hsize as [Hsize|[_ ->]]; [lia|].
        unbind H as [front second] Hfront. unbind H as st Hscan.
        destruct (s2_d_best st <? kMaxDistToTrack).
        -- unbind H as c1 Hfit. injection H as <-. now apply refit_Consistent in Hfit.
        -- discriminate.
      * lia.
  - intros other c'. unfold MergeWith.
    destruct (PrimFloat.sqrt (Dist2 (fCenter c) (fCenter other)) >? 10); [discriminate|].
    intros H. bind_inv H. destruct a as [c1 [ntrk|]]; [|discriminate].
    destruct (negb (ntrk =? 0)%Z); [|discriminate].
    bind_inv H. destruct a as [mse c2]. destruct (mse <? 1).
    + bind_inv H. injection H as <-. now apply (fitted_Consistent g c1).
    + bind_inv H. discriminate.
  - intros other c1 c2 c' ntrk mse. apply MergeWith_rolled_back.
Qed.

(** ** The angle of [MaxAngle] *)

Lemma MaxAngle_min_spec (g : G) (minLength : float) (ref : Longest)
  (rest : list (TrkCandidate * Z)) :
  forall (j : Z) (m0 m : float),
    MaxAngle_min g minLength ref rest j m0 = Ok m ->
    below m m0
    /\ (forall k e dir_j,
          nth_error rest k = Some e ->
          other_long g minLength ref (j + Z.of_nat k) e ->
          segment_dir g e = Ok dir_j ->
          (abs (v3_dot (dir_i ref) dir_j) <? m) = false)
    /\ (m = m0
        \/ exists k e dir_j,
             nth_error rest k = Some e
             /\ other_long g minLength ref (j + Z.of_nat k) e
             /\ segment_dir g e = Ok dir_j
             /\ m = abs (v3_dot (dir_i ref) dir_j)).
Proof.
  induction rest as [|e rest IH]; simpl; intros j m0 m H.
  - injection H as <-. split; [now right|]. split; [|now left].
    intros [|k] e' dir_j; discriminate.
  - destruct (negb (j =? max_l_idx ref)%Z && (trk_Length g (Track (fst e)) >? minLength))
      eqn:Q.
    + apply andb_true_iff in Q. destruct Q as [Qj Ql].
      apply negb_true_iff, Z.eqb_neq in Qj.
      unbind H as dir Hdir. set (a := abs (v3_dot (dir_i ref) dir)) in *.
      apply IH in H. destruct H as (Hb & Hall & Hex).
      assert (below (if a <? m0 then a else m0) m0) as Hb0.
      { destruct (a <? m0) eqn:L; [now left|now right]. }
      split; [eapply below_trans; eauto|]. split.
      * intros [|k] e' dir_j Hn Hq Hd.
        -- simpl in Hn. injection Hn as <-. rewrite Hdir in Hd. injection Hd as <-.
           fold a. destruct (a <? m0) eqn:L.
           ++ apply (not_ltb_below a m a Hb). apply ltb_irrefl.
           ++ now apply (not_ltb_below a m m0 Hb).
        -- simpl in Hn. apply (Hall k e' dir_j Hn); trivial.
           now replace (j + 1 + Z.of_nat k)%Z with (j + Z.of_nat (S k))%Z by lia.
      * destruct Hex as [->|(k & e' & dir_j & Hn & Hq & Hd & ->)].
        -- destruct (a <? m0) eqn:L; [|now left].
           right. exists 0%nat, e, dir. rewrite Z.add_0_r. repeat split; trivial.
        -- right. exists (S k), e', dir_j. repeat split; trivial; try apply Hq.
           replace (j + Z.of_nat (S k))%Z with (j + 1 + Z.of_nat k)%Z by lia. apply Hq.
    + apply IH in H. destruct H as (Hb & Hall & Hex). split; trivial. split.
      * intros [|k] e' dir_j Hn Hq Hd.
        -- simpl in Hn. injection Hn as <-. destruct Hq as [Hj Hl].
           rewrite Z.add_0_r in Hj. apply Z.eqb_neq in Hj. now rewrite Hj, Hl in Q.
        -- simpl in Hn. apply (Hall k e' dir_j Hn); trivial.
           now replace (j + 1 + Z.of_nat k)%Z with (j + Z.of_nat (S k))%Z by lia.
      * destruct Hex as [->|(k & e' & dir_j & Hn & Hq & Hd & ->)]; [now left|].
        right. exists (S k), e', dir_j. repeat split; trivial; try apply Hq.
        replace (j + Z.of_nat (S k))%Z with (j + 1 + Z.of_nat k)%Z by lia. apply Hq.
Qed.

(** C4, as the code has it.  With [ref] the reference the first loop of
    [MaxAngle] selects, [MaxAngle(minLength)] returns [180 * acos(m) / pi]
    where [m], between 0 and 1, is the least absolute value of the cosine
    between the reference direction and the direction of the assigned segment
    of any other track longer than [minLength] ([m = 1] when there is none):
    the largest angle between the lines, whichever way the tracks point. *)
Theorem MaxAngle_largest_unsigned (g : G) (c : VtxCandidate) (minLength : float)
  (ref : Longest) (r : float) :
  MaxAngle_reference g c = Ok ref ->
  MaxAngle g c minLength = Ok r ->
  exists m,
    r = 180.0 * acos m / Pi
    /\ (0 <=? m) = true /\ (m <=? 1.0) = true
    /\ (forall j e dir_j,
          nth_error (fAssigned c) j = Some e ->
          other_long g minLength ref (Z.of_nat j) e ->
          segment_dir g e = Ok dir_j ->
          (abs (v3_dot (dir_i ref) dir_j) <? m) = false)
    /\ (m = 1.0
        \/ exists j e dir_j,
             nth_error (fAssigned c) j = Some e
             /\ other_long g minLength ref (Z.of_nat j) e
             /\ segment_dir g e = Ok dir_j
             /\ m = abs (v3_dot (dir_i ref) dir_j)).
Proof.
  intros Href H. unfold MaxAngle in H. rewrite Href in H. simpl in H.
  unbind H as m Hmin. injection H as <-. exists m.
  apply MaxAngle_min_spec in Hmin. destruct Hmin as (Hb & Hall & Hex).
  split; [reflexivity|].
  assert (is_nan m = false /\ (m <=? 1) = true) as [Hnan Hle].
  { destruct Hb as [L| ->]; [|split; reflexivity].
    split; [eapply ltb_not_nan_l; eauto|now apply ltb_leb]. }
  split; [|split; [exact Hle|split; [exact Hall|exact Hex]]].
  destruct Hex as [->|(k & e & dir_j & _ & _ & _ & E)]; [reflexivity|].
  subst m. now apply abs_nonneg.
Qed.

(** ** The removal loop of [JoinTracks] *)

Lemma filter_id {A : Type} (f : A -> bool) (l : list A) :
  (forall x, In x l -> f x = true) -> filter f l = l.
Proof.
  induction l as [|x l IH]; simpl; intros H; trivial.
  rewrite (H x (or_introl eq_refl)). f_equal. apply IH. intros y Hy. apply H. now right.
Qed.

Lemma filter_filter {A : Type} (f h : A -> bool) (l : list A) :
  filter f (filter h l) = filter (fun x => h x && f x) l.
Proof.
  induction l as [|x l IH]; simpl; trivial.
  destruct (h x); simpl; [destruct (f x)|]; now rewrite IH.
Qed.

Lemma NoDup_map_filter {A B : Type} (p : A -> B) (f : A -> bool) (l : list A) :
  NoDup (map p l) -> NoDup (map p (filter f l)).
Proof.
  induction l as [|x l IH]; simpl; intros H; trivial.
  inversion H as [|? ? Hx Hl]; subst. destruct (f x); simpl; auto.
  constructor; auto. intros Hin. apply Hx.
  apply in_map_iff in Hin. destruct Hin as (y & <- & Hy).
  apply filter_In in Hy. apply in_map. apply Hy.
Qed.

Lemma holds_In (tracks : list TrkCandidate) (b : TrackPtr) :
  holds tracks b = true <-> In b (map Track tracks).
Proof.
  unfold holds. rewrite existsb_exists, in_map_iff.
  split; intros (t & H1 & H2).
  - apply Nat.eqb_eq in H2. eauto.
  - exists t. split; trivial. now apply Nat.eqb_eq.
Qed.

Lemma is_branch_In (branches : list TrackPtr) (b : TrackPtr) :
  is_branch branches b = true <-> In b branches.
Proof.
  unfold is_branch. rewrite existsb_exists. split.
  - intros (x & H1 & H2). apply Nat.eqb_eq in H2. now subst.
  - intros H. exists b. split; trivial. apply Nat.eqb_refl.
Qed.

Lemma erase_track_None (b : TrackPtr) (tracks : list TrkCandidate) :
  erase_track b tracks = None -> holds tracks b = false.
Proof.
  induction tracks as [|t rest IH]; simpl; trivial.
  destruct (Nat.eqb (Track t) b); [discriminate|].
  destruct (erase_track b rest); [discriminate|]. auto.
Qed.

Lemma erase_track_Some (b : TrackPtr) (tracks tracks' : list TrkCandidate) :
  NoDup (map Track tracks) ->
  erase_track b tracks = Some tracks' ->
  holds tracks b = true
  /\ tracks' = filter (fun t => negb (Nat.eqb (Track t) b)) tracks.
Proof.
  revert tracks'. induction tracks as [|t rest IH]; simpl; intros tracks' N H.
  - discriminate.
  - inversion N as [|? ? Ht Hrest]; subst.
    destruct (Nat.eqb (Track t) b) eqn:E; simpl.
    + injection H as <-. split; trivial. symmetry. apply filter_id.
      intros x Hx. apply negb_true_iff, Nat.eqb_neq. intros Ex.
      apply Nat.eqb_eq in E. apply Ht. rewrite E, <- Ex. now apply in_map.
    + destruct (erase_track b rest) as [rest'|] eqn:R; [|discriminate].
      injection H as <-. destruct (IH rest' Hrest eq_refl) as [Hh ->]. now split.
Qed.

Lemma holds_filter (tracks : list TrkCandidate) (b x : TrackPtr) :
  x <> b ->
  holds (filter (fun t => negb (Nat.eqb (Track t) b)) tracks) x = holds tracks x.
Proof.
  intros Hxb. unfold holds. induction tracks as [|t tracks IH]; simpl; trivial.
  destruct (Nat.eqb (Track t) b) eqn:Etb; simpl.
  - apply Nat.eqb_eq in Etb.
    replace (Nat.eqb (Track t) x) with false; trivial.
    symmetry. apply Nat.eqb_neq. congruence.
  - now rewrite IH.
Qed.

Lemma JoinTracks_remove_spec (branches : list TrackPtr) :
  forall (g : G) (tracks : list TrkCandidate),
    NoDup (map Track tracks) ->
    NoDup branches ->
    JoinTracks_remove g tracks branches
    = (fold_left trk_delete (filter (holds tracks) branches) g,
       filter (fun t => negb (is_branch branches (Track t))) tracks).
Proof.
  induction branches as [|b rest IH]; simpl; intros g tracks Nt Nb.
  - f_equal. symmetry. now apply filter_id.
  - inversion Nb as [|? ? Hb Hrest]; subst.
    destruct (erase_track b tracks) as [tracks'|] eqn:E.
    + destruct (erase_track_Some b tracks tracks' Nt E) as [Hh ->]. rewrite Hh. simpl.
      rewrite IH; trivial; [|now apply NoDup_map_filter]. f_equal.
      * f_equal. apply filter_ext_in. intros x Hx. apply holds_filter.
        intros ->. contradiction.
      * rewrite filter_filter. apply filter_ext. intros t.
        rewrite (Nat.eqb_sym (Track t) b). now rewrite negb_orb.
    + apply erase_track_None in E. rewrite E. rewrite IH; trivial. f_equal.
      apply filter_ext_in. intros t Ht.
      replace (Nat.eqb (Track t) b) with false; trivial.
      symmetry. apply Nat.eqb_neq. intros Etb.
      assert (holds tracks b = true) as Hh; [|congruence].
      apply holds_In. rewrite <- Etb. now apply in_map.
Qed.

Lemma removed_branches_gone (branches : list TrackPtr) (tracks : list TrkCandidate)
  (b : TrackPtr) :
  In b branches ->
  ~ In b (map Track (filter (fun t => negb (is_branch branches (Track t))) tracks)).
Proof.
  intros Hb Hin. apply in_map_iff in Hin. destruct Hin as (t & <- & Ht).
  apply filter_In in Ht. destruct Ht as [_ Ht].
  apply is_branch_In in Hb. now rewrite Hb in Ht.
Qed.

(** C2, as the code has it.  Say the attaching loop of [JoinTracks] ends with
    a vertex node, [GetBranches] of the root track lists [branches], and
    [tracks] and [branches] hold each track once.  When a loop is detected,
    or at least two attachments succeeded and the tuning of the full tree
    diverges, [JoinTracks] returns [false], [tracks] loses every entry of a
    branch, and every branch that was in [tracks] is deleted.  When no loop
    is detected and fewer than two attachments succeeded, [JoinTracks]
    returns [false] too, but nothing is removed from [tracks] and nothing is
    deleted. *)
Theorem JoinTracks_failed_commit (s : JoinState G) (src : list TrkCandidate) (st : Joining G)
  (vtxCenter : NodePtr) (rootTrk : TrackPtr) (noLoops : bool) (branches : list TrackPtr) :
  tracksJoined (js_c s) = false ->
  JoinTracks_splice (flagged s) = Ok (src, st) ->
  j_vtxCenter st = Some vtxCenter ->
  JoinTracks_root (j_g st) vtxCenter = Ok rootTrk ->
  trk_GetBranches (j_g st) rootTrk = (noLoops, branches) ->
  NoDup (map Track (j_tracks st)) ->
  NoDup branches ->
  (noLoops = false
   \/ ((j_nOK st >? 1)%Z = true
       /\ (fst (trk_TuneFullTree (j_g st) rootTrk) >? -2.0) = false) ->
   exists r,
     JoinTracks s = Ok r
     /\ jr_result r = false
     /\ js_tracks (jr_state r)
        = filter (fun t => negb (is_branch branches (Track t))) (j_tracks st)
     /\ (forall b, In b branches -> ~ In b (map Track (js_tracks (jr_state r))))
     /\ js_g (jr_state r)
        = fold_left trk_delete (filter (holds (j_tracks st)) branches)
            (if noLoops then snd (trk_TuneFullTree (j_g st) rootTrk) else j_g st))
  /\ (noLoops = true ->
      (j_nOK st >? 1)%Z = false ->
      JoinTracks s
      = Ok (mkResult false None (mkJoin (js_c (flagged s)) (j_g st) (j_tracks st) src))).
Proof.
  intros Hflag Hsplice Hvc Hroot Hbr Nt Nb.
  assert (JoinTracks s = JoinTracks_finish (js_c (flagged s)) src st) as ->.
  { unfold JoinTracks. rewrite Hflag. fold (flagged s). now rewrite Hsplice. }
  unfold JoinTracks_finish. rewrite Hvc, Hroot. simpl bind. rewrite Hbr.
  pose proof (JoinTracks_remove_spec branches) as Hrem.
  split.
  - intros Hfail. destruct noLoops.
    + destruct Hfail as [Hfail|[HnOK Htune]]; [discriminate|].
      rewrite HnOK. simpl andb.
      destruct (trk_TuneFullTree (j_g st) rootTrk) as [tune g']. simpl in Htune.
      rewrite Htune. simpl. rewrite Hrem; trivial.
      eexists. split; [reflexivity|]. simpl. repeat split.
      intros b. apply removed_branches_gone.
    + simpl. rewrite Hrem; trivial.
      eexists. split; [reflexivity|]. simpl. repeat split.
      intros b. apply removed_branches_gone.
  - intros -> HnOK. rewrite HnOK. reflexivity.
Qed.

(** ** The search of [Add] for a third or later track *)

Lemma set_back_second_app (a : list (TrkCandidate * Z)) (t : TrkCandidate) (x n : Z) :
  set_back_second (a ++ [(t, x)]) n = a ++ [(t, n)].
Proof.
  induction a as [|[t' z] a IH]; simpl; trivial.
  destruct (a ++ [(t, x)]) eqn:E.
  - now destruct a.
  - now rewrite <- IH.
Qed.

Lemma at_app_length {A : Type} (pre rest : list A) (x : A) :
  at_ (pre ++ x :: rest) (Z.of_nat (List.length pre)) = Ok x.
Proof.
  unfold at_. destruct (Z.ltb_spec (Z.of_nat (List.length pre)) 0); [lia|].
  rewrite Nat2Z.id, nth_error_app2, Nat.sub_diag; trivial.
Qed.

Lemma no_better_next (g : G) (c : VtxCandidate) (trk : TrkCandidate) (k : Z)
  (mse d : float) :
  no_better g c trk k mse d ->
  (forall mse' d', Add_fit_at g c trk k = Ok (Some (mse', d')) ->
                   ~ ((mse' <? mse) = true /\ (d' <? d) = true)) ->
  no_better g c trk (k + 1) mse d.
Proof.
  intros Hold Hk n mse' d' Hn Hfit.
  destruct (Z.eq_dec n k) as [->|Hne]; [now apply Hk|].
  apply (Hold n mse' d'); trivial. lia.
Qed.

Lemma no_better_lower (g : G) (c : VtxCandidate) (trk : TrkCandidate) (k : Z)
  (mse d mse0 d0 : float) :
  no_better g c trk k mse0 d0 ->
  (mse <? mse0) = true -> (d <? d0) = true ->
  no_better g c trk k mse d.
Proof.
  intros Hold Hm Hd n mse' d' Hn Hfit [H1 H2].
  apply (Hold n mse' d' Hn Hfit). split; eapply ltb_trans; eauto.
Qed.

(** One turn of the search keeps the invariant. *)
Lemma Add_try3_inv (g : G) (c : VtxCandidate) (trk : TrkCandidate) (k : Z) (nd : NodePtr)
  (st st' : Scan3) :
  (0 <= k)%Z ->
  at_ (trk_Nodes g (Track trk)) k = Ok nd ->
  scan3_inv g c trk k st ->
  Add_try3 g (Track trk) nd k st = Ok st' ->
  scan3_inv g c trk (k + 1) st'.
Proof.
  intros Hk Hnd [(x & center & err & Hc) Hbest] H.
  unfold Add_try3 in H. unbind H as seg Hseg. rewrite Hc in H.
  change (fSegMinLength (set_fit (set_fAssigned c (fAssigned c ++ [(trk, x)])) center err))
    with (fSegMinLength c) in H.
  change (fAssigned (set_fit (set_fAssigned c (fAssigned c ++ [(trk, x)])) center err))
    with (fAssigned c ++ [(trk, x)]) in H.
  rewrite set_back_second_app in H.
  assert (Add_fit_at g c trk k =
          if seg_Length g seg <? fSegMinLength c then Ok None
          else bind (Compute g (set_fAssigned c (fAssigned c ++ [(trk, k)])))
                 (fun r => Ok (Some (fst r,
                    PrimFloat.sqrt (seg_GetDistance2To g seg (fCenter (snd r))))))) as Hfit.
  { unfold Add_fit_at. rewrite Hnd. simpl. rewrite Hseg. simpl.
    destruct (seg_Length g seg <? fSegMinLength c); trivial.
    now destruct (Compute g (set_fAssigned c (fAssigned c ++ [(trk, k)]))) as [[m c1]| |]. }
  destruct (seg_Length g seg <? fSegMinLength c).
  - injection H as <-. split; [now exists x, center, err|].
    destruct Hbest as [(Hm & Hd & Hnb)|(Hn & Hat & Hm & Hd & Hnb)]; [left|right];
      repeat split; trivial; try lia;
      apply no_better_next; trivial; intros mse' d' E; rewrite Hfit in E; discriminate.
  - unbind H as [mse c1] HC.
    apply Compute_Ok in HC. destruct HC as (center' & err' & F & ->).
    pose proof (Compute_of_fit g (set_fAssigned c (fAssigned c ++ [(trk, k)]))
                  mse center' err' F) as HC'.
    rewrite HC' in Hfit. simpl in Hfit.
    set (d := PrimFloat.sqrt (seg_GetDistance2To g seg center')) in *.
    change (fCenter (set_fit _ center' err')) with center' in H. fold d in H.
    assert (scan3_shape c trk
              (mkScan3 (set_fit (set_fAssigned
                          (set_fit (set_fAssigned c (fAssigned c ++ [(trk, x)])) center err)
                          (fAssigned c ++ [(trk, k)])) center' err')
                       (s3_min_mse st) (s3_n_best st) (s3_d_best st))) as Hshape.
    { now exists k, center', err'. }
    assert (forall mse0 d0,
               ((mse <? mse0) && (d <? d0))%bool = false ->
               forall mse' d', Add_fit_at g c trk k = Ok (Some (mse', d')) ->
                               ~ ((mse' <? mse0) = true /\ (d' <? d0) = true)) as Hkeep.
    { intros mse0 d0 Hno mse' d' E [H1 H2]. rewrite Hfit in E.
      assert (mse' = mse /\ d' = d) as [-> ->].
      { split; [exact (f_equal (fun o => match o with Ok (Some p) => fst p | _ => mse' end)
                          (eq_sym E))
               |exact (f_equal (fun o => match o with Ok (Some p) => snd p | _ => d' end)
                          (eq_sym E))]. }
      now rewrite H1, H2 in Hno. }
    destruct ((mse <? s3_min_mse st) && (d <? s3_d_best st))%bool eqn:T.
    + apply andb_true_iff in T. destruct T as [T1 T2]. rewrite T1, T2 in H.
      injection H as <-. split; [now exists k, center', err'|]. right.
      cbn [s3_min_mse s3_n_best s3_d_best].
      assert ((mse <? kMaxDistToTrack * kMaxDistToTrack) = true
              /\ (d <? kMaxDistToTrack) = true) as [Hm' Hd'].
      { destruct Hbest as [(Hm & Hd & Hnb)|(Hn & Hat & Hm & Hd & Hnb)].
        - now rewrite <- Hm, <- Hd.
        - split; eapply ltb_trans; eauto. }
      repeat split; trivial; try lia.
      apply no_better_next.
      * destruct Hbest as [(Hm & Hd & Hnb)|(Hn & Hat & Hm & Hd & Hnb)];
          eapply no_better_lower; eauto; congruence.
      * apply Hkeep. now rewrite ltb_irrefl.
    + assert (st' = mkScan3 (set_fit (set_fAssigned
                          (set_fit (set_fAssigned c (fAssigned c ++ [(trk, x)])) center err)
                          (fAssigned c ++ [(trk, k)])) center' err')
                       (s3_min_mse st) (s3_n_best st) (s3_d_best st)) as ->.
      { destruct (mse <? s3_min_mse st); [destruct (d <? s3_d_best st)|];
          try discriminate; now injection H as <-. }
      split; trivial. cbn [s3_min_mse s3_n_best s3_d_best].
      destruct Hbest as [(Hm & Hd & Hnb)|(Hn & Hat & Hm & Hd & Hnb)]; [left|right].
      * rewrite Hm, Hd in T. repeat split; trivial.
        apply no_better_next; trivial. now apply Hkeep.
      * repeat split; trivial; try lia.
        apply no_better_next; trivial. now apply Hkeep.
Qed.

(** The loop keeps it, from the segments below [k] to those below [bound]. *)
Lemma Add_scan3_inv (g : G) (c : VtxCandidate) (trk : TrkCandidate) (bound : Z)
  (rest : list NodePtr) :
  forall (pre : list NodePtr) (st st' : Scan3),
    trk_Nodes g (Track trk) = pre ++ rest ->
    scan3_inv g c trk (Z.of_nat (List.length pre)) st ->
    Add_scan3 g (Track trk) bound rest (Z.of_nat (List.length pre)) st = Ok st' ->
    scan3_inv g c trk (Z.max (Z.of_nat (List.length pre)) bound) st'.
Proof.
  induction rest as [|nd rest IH]; intros pre st st' Hnodes Hinv H; simpl in H.
  - destruct (Z.ltb_spec (Z.of_nat (List.length pre)) bound); [discriminate|].
    injection H as <-. now rewrite Z.max_l by lia.
  - destruct (Z.ltb_spec (Z.of_nat (List.length pre)) bound) as [Hlt|Hge].
    + unbind H as st1 Hstep.
      apply (Add_try3_inv g c trk _ nd st st1) in Hstep; trivial; try lia.
      * replace (Z.of_nat (List.length pre) + 1)%Z
          with (Z.of_nat (List.length (pre ++ [nd]))) in *
          by (rewrite length_app; simpl; lia).
        apply (IH (pre ++ [nd])) in H; trivial.
        -- replace (Z.max (Z.of_nat (List.length pre)) bound)
             with (Z.max (Z.of_nat (List.length (pre ++ [nd]))) bound); trivial.
           rewrite length_app. simpl. lia.
        -- now rewrite <- app_assoc.
      * rewrite Hnodes. apply at_app_length.
    + injection H as <-. now rewrite Z.max_l by lia.
Qed.

(** *** The rule of the search *)

(** One turn of the search, told by what the fit at segment [k] gives. *)
Lemma Add_try3_step (g : G) (c : VtxCandidate) (trk : TrkCandidate) (k : Z) (nd : NodePtr)
  (st st' : Scan3) :
  at_ (trk_Nodes g (Track trk)) k = Ok nd ->
  scan3_shape c trk st ->
  Add_try3 g (Track trk) nd k st = Ok st' ->
  scan3_shape c trk st'
  /\ exists r,
      Add_fit_at g c trk k = Ok r
      /\ (match r with
          | Some (mse, d) => (mse <? s3_min_mse st) && (d <? s3_d_best st) = true
          | None => False
          end ->
          exists mse d,
            r = Some (mse, d)
            /\ s3_min_mse st' = mse /\ s3_n_best st' = k /\ s3_d_best st' = d)
      /\ (match r with
          | Some (mse, d) => (mse <? s3_min_mse st) && (d <? s3_d_best st) = false
          | None => True
          end ->
          s3_min_mse st' = s3_min_mse st
          /\ s3_n_best st' = s3_n_best st
          /\ s3_d_best st' = s3_d_best st).
Proof.
  intros Hnd (x & center & err & Hc) H.
  unfold Add_try3 in H. unbind H as seg Hseg. rewrite Hc in H.
  change (fSegMinLength (set_fit (set_fAssigned c (fAssigned c ++ [(trk, x)])) center err))
    with (fSegMinLength c) in H.
  change (fAssigned (set_fit (set_fAssigned c (fAssigned c ++ [(trk, x)])) center err))
    with (fAssigned c ++ [(trk, x)]) in H.
  rewrite set_back_second_app in H.
  assert (Add_fit_at g c trk k =
          if seg_Length g seg <? fSegMinLength c then Ok None
          else bind (Compute g (set_fAssigned c (fAssigned c ++ [(trk, k)])))
                 (fun r => Ok (Some (fst r,
                    PrimFloat.sqrt (seg_GetDistance2To g seg (fCenter (snd r))))))) as Hfit.
  { unfold Add_fit_at. rewrite Hnd. simpl. rewrite Hseg. simpl.
    destruct (seg_Length g seg <? fSegMinLength c); trivial.
    now destruct (Compute g (set_fAssigned c (fAssigned c ++ [(trk, k)]))) as [[m c1]| |]. }
  destruct (seg_Length g seg <? fSegMinLength c).
  - injection H as <-. split; [now exists x, center, err|].
    exists None. split; trivial. split; [now intros []|]. now intros _.
  - unbind H as [mse c1] HC.
    apply Compute_Ok in HC. destruct HC as (center' & err' & F & ->).
    pose proof (Compute_of_fit g (set_fAssigned c (fAssigned c ++ [(trk, k)]))
                  mse center' err' F) as HC'.
    rewrite HC' in Hfit. simpl in Hfit.
    set (d := PrimFloat.sqrt (seg_GetDistance2To g seg center')) in *.
    change (fCenter (set_fit _ center' err')) with center' in H. fold d in H.
    assert (scan3_shape c trk st') as Hshape.
    { exists k, center', err'.
      destruct (mse <? s3_min_mse st); [destruct (d <? s3_d_best st)|];
        now injection H as <-. }
    split; trivial. exists (Some (mse, d)). split; trivial. split.
    + intros T. apply andb_true_iff in T. destruct T as [T1 T2]. rewrite T1, T2 in H.
      injection H as <-. exists mse, d. now repeat split.
    + intros T. destruct (mse <? s3_min_mse st); [destruct (d <? s3_d_best st)|];
        try discriminate; injection H as <-; now repeat split.
Qed.

Lemma no_better_in_next (g : G) (c : VtxCandidate) (trk : TrkCandidate) (lo k : Z)
  (mse d : float) :
  no_better_in g c trk lo k mse d ->
  (forall mse' d', Add_fit_at g c trk k = Ok (Some (mse', d')) ->
                   ~ ((mse' <? mse) = true /\ (d' <? d) = true)) ->
  no_better_in g c trk lo (k + 1) mse d.
Proof.
  intros Hold Hk n mse' d' Hn Hfit.
  destruct (Z.eq_dec n k) as [->|Hne]; [now apply Hk|].
  apply (Hold n mse' d'); trivial. lia.
Qed.

(** One turn of the search keeps the rule. *)
Lemma scan3_rule_step (g : G) (c : VtxCandidate) (trk : TrkCandidate) (k : Z) (nd : NodePtr)
  (st st' : Scan3) :
  (0 <= k)%Z ->
  at_ (trk_Nodes g (Track trk)) k = Ok nd ->
  scan3_shape c trk st ->
  scan3_rule g c trk k st ->
  Add_try3 g (Track trk) nd k st = Ok st' ->
  scan3_shape c trk st' /\ scan3_rule g c trk (k + 1) st'.
Proof.
  intros Hk Hnd Hshape Hrule H.
  destruct (Add_try3_step g c trk k nd st st' Hnd Hshape H) as (Hshape' & r & Hfit & Hyes & Hno).
  split; trivial.
  assert (forall mse0 d0,
             match r with
             | Some (mse, d) => (mse <? mse0) && (d <? d0) = false
             | None => True
             end ->
             forall mse' d', Add_fit_at g c trk k = Ok (Some (mse', d')) ->
                             ~ ((mse' <? mse0) = true /\ (d' <? d0) = true)) as Hkeep.
  { intros mse0 d0 Hr mse' d' E [H1 H2]. rewrite Hfit in E. injection E as ->.
    now rewrite H1, H2 in Hr. }
  destruct r as [[mse d]|].
  - destruct ((mse <? s3_min_mse st) && (d <? s3_d_best st)) eqn:T.
    + destruct (Hyes eq_refl) as (mse1 & d1 & E & Em & En & Ed). injection E as <- <-.
      apply andb_true_iff in T. destruct T as [T1 T2].
      unfold scan3_rule. rewrite Em, En, Ed.
      right. split; [|split; [lia|intros n mse' d' Hn; lia]].
      destruct Hrule as [(Hm & Hd & Hnb)|(Hbest & Hn & Hnb)].
      * rewrite Hm in T1. rewrite Hd in T2. now apply first_best.
      * now apply (next_best g c trk (s3_n_best st) (s3_min_mse st) (s3_d_best st)).
    + destruct (Hno eq_refl) as (Em & En & Ed). unfold scan3_rule. rewrite Em, En, Ed.
      destruct Hrule as [(Hm & Hd & Hnb)|(Hbest & Hn & Hnb)]; [left|right].
      * repeat split; trivial. apply no_better_in_next; trivial.
        apply Hkeep. now rewrite <- Hm, <- Hd.
      * split; trivial. split; [lia|]. apply no_better_in_next; trivial. now apply Hkeep.
  - destruct (Hno I) as (Em & En & Ed). unfold scan3_rule. rewrite Em, En, Ed.
    destruct Hrule as [(Hm & Hd & Hnb)|(Hbest & Hn & Hnb)]; [left|right].
    + repeat split; trivial. apply no_better_in_next; trivial. now apply Hkeep.
    + split; trivial. split; [lia|]. apply no_better_in_next; trivial. now apply Hkeep.
Qed.

(** The loop keeps it, from the segments below [k] to those below [bound]. *)
Lemma Add_scan3_rule (g : G) (c : VtxCandidate) (trk : TrkCandidate) (bound : Z)
  (rest : list NodePtr) :
  forall (pre : list NodePtr) (st st' : Scan3),
    trk_Nodes g (Track trk) = pre ++ rest ->
    scan3_shape c trk st ->
    scan3_rule g c trk (Z.of_nat (List.length pre)) st ->
    Add_scan3 g (Track trk) bound rest (Z.of_nat (List.length pre)) st = Ok st' ->
    scan3_rule g c trk (Z.max (Z.of_nat (List.length pre)) bound) st'.
Proof.
  induction rest as [|nd rest IH]; intros pre st st' Hnodes Hshape Hrule H; simpl in H.
  - destruct (Z.ltb_spec (Z.of_nat (List.length pre)) bound); [discriminate|].
    injection H as <-. now rewrite Z.max_l by lia.
  - destruct (Z.ltb_spec (Z.of_nat (List.length pre)) bound) as [Hlt|Hge].
    + unbind H as st1 Hstep.
      apply (scan3_rule_step g c trk _ nd st st1) in Hstep; trivial; try lia.
      * destruct Hstep as [Hshape1 Hrule1].
        replace (Z.of_nat (List.length pre) + 1)%Z
          with (Z.of_nat (List.length (pre ++ [nd]))) in *
          by (rewrite length_app; simpl; lia).
        apply (IH (pre ++ [nd])) in H; trivial.
        -- replace (Z.max (Z.of_nat (List.length pre)) bound)
             with (Z.max (Z.of_nat (List.length (pre ++ [nd]))) bound); trivial.
           rewrite length_app. simpl. lia.
        -- now rewrite <- app_assoc.
      * rewrite Hnodes. apply at_app_length.
    + injection H as <-. now rewrite Z.max_l by lia.
Qed.

(** A segment that becomes the best has a fit below both thresholds. *)
Lemma becomes_best_fit (g : G) (c : VtxCandidate) (trk : TrkCandidate) (n : Z)
  (mse d : float) :
  becomes_best g c trk n mse d ->
  (0 <= n)%Z
  /\ Add_fit_at g c trk n = Ok (Some (mse, d))
  /\ (mse <? kMaxDistToTrack * kMaxDistToTrack) = true
  /\ (d <? kMaxDistToTrack) = true.
Proof.
  induction 1 as [n mse d Hn Hfit Hm Hd _|n0 mse0 d0 n mse d _ IH Hlt Hfit Hm Hd _].
  - now repeat split.
  - destruct IH as (Hn0 & _ & Hm0 & Hd0). repeat split; trivial; try lia;
      eapply ltb_trans; eauto.
Qed.

(** Of two segments that become the best, the later one has the smaller
    residual and the smaller distance. *)
Lemma becomes_best_improves (g : G) (c : VtxCandidate) (trk : TrkCandidate) :
  forall (k : nat) (n1 n2 : Z) (m1 d1 m2 d2 : float),
    (Z.to_nat n2 < k)%nat ->
    becomes_best g c trk n1 m1 d1 ->
    becomes_best g c trk n2 m2 d2 ->
    (n1 < n2)%Z ->
    (m2 <? m1) = true /\ (d2 <? d1) = true.
Proof.
  induction k as [|k IH]; intros n1 n2 m1 d1 m2 d2 Hk H1 H2 Hlt; [lia|].
  pose proof (becomes_best_fit g c trk n1 m1 d1 H1) as (Hn1 & Hfit1 & Hm1 & Hd1).
  destruct H2 as [n2 m2 d2 Hn2 Hfit2 Hm2 Hd2 Hnb|n0 m0 d0 n2 m2 d2 H0 Hlt0 Hfit2 Hm2 Hd2 Hnb].
  - destruct (Hnb n1 m1 d1); [lia|trivial|now split].
  - pose proof (becomes_best_fit g c trk n0 m0 d0 H0) as (Hn0 & Hfit0 & _).
    destruct (Z.lt_trichotomy n1 n0) as [L|[E|L]].
    + destruct (IH n1 n0 m1 d1 m0 d0) as [Hm Hd]; trivial; [lia|].
      split; eapply ltb_trans; eauto.
    + subst n0. rewrite Hfit1 in Hfit0. injection Hfit0 as <- <-. now split.
    + destruct (IH n0 n1 m0 d0 m1 d1) as [Hm Hd]; trivial; [lia|].
      destruct (Hnb n1 m1 d1); [lia|trivial|now split].
Qed.

(** The rule leaves one segment: the search ends with at most one. *)
Lemma search_ends_unique (g : G) (c : VtxCandidate) (trk : TrkCandidate) (bound : Z)
  (n n' : Z) (mse d mse' d' : float) :
  search_ends_at g c trk bound n mse d ->
  search_ends_at g c trk bound n' mse' d' ->
  n' = n.
Proof.
  intros (Hb & Hn & Hnb) (Hb' & Hn' & Hnb').
  pose proof (becomes_best_fit g c trk n mse d Hb) as (H0 & Hfit & _).
  pose proof (becomes_best_fit g c trk n' mse' d' Hb') as (H0' & Hfit' & _).
  destruct (Z.lt_trichotomy n n') as [L|[E|L]]; [|now symmetry|].
  - destruct (becomes_best_improves g c trk (S (Z.to_nat n')) n n' mse d mse' d')
      as [Hm Hd]; trivial; [lia|].
    destruct (Hnb n' mse' d'); [lia|trivial|now split].
  - destruct (becomes_best_improves g c trk (S (Z.to_nat n)) n' n mse' d' mse d)
      as [Hm Hd]; trivial; [lia|].
    destruct (Hnb' n mse d); [lia|trivial|now split].
Qed.

(** C3, as the code has it.  [Add(trk)] on a candidate of two or more tracks
    that [trk] is not attached to only varies the index of [trk]: the entries
    already assigned stay as they are.  It returns [true] iff some segment
    [n] of [trk], at least the minimum segment length long, gives a fit
    residual below [kMaxDistToTrack^2] and a distance of the fitted centre to
    the segment below [kMaxDistToTrack].  The [n] it accepts is the one the
    rule of the search ends with: the first such segment is the best so far,
    and a later segment takes over exactly when its residual and its
    distance are both below those of the best so far.  That rule leaves one
    segment; no segment improves on it in both residual and distance, but a
    segment at a smaller distance with a residual that is not smaller does
    not replace it.  On failure the appended entry is removed.  Either way
    the fit is recomputed on the final assigned set. *)
Theorem Add_third_or_later (g : G) (c : VtxCandidate) (trk : TrkCandidate) (b : bool)
  (c' : VtxCandidate) :
  (2 <= List.length (fAssigned c))%nat ->
  IsAttached g c (Track trk) = Ok false ->
  Add g c trk = Ok (b, c') ->
  Consistent g c'
  /\ (if b then
        exists n mse d,
          fAssigned c' = fAssigned c ++ [(trk, n)]
          /\ (0 <= n < size_sub (size (trk_Nodes g (Track trk))) 1)%Z
          /\ Add_fit_at g c trk n = Ok (Some (mse, d))
          /\ (mse <? kMaxDistToTrack * kMaxDistToTrack) = true
          /\ (d <? kMaxDistToTrack) = true
          /\ no_better g c trk (size_sub (size (trk_Nodes g (Track trk))) 1) mse d
          /\ search_ends_at g c trk (size_sub (size (trk_Nodes g (Track trk))) 1) n mse d
          /\ (forall n' mse' d',
                search_ends_at g c trk (size_sub (size (trk_Nodes g (Track trk))) 1)
                  n' mse' d' ->
                n' = n)
      else
        fAssigned c' = fAssigned c
        /\ no_better g c trk (size_sub (size (trk_Nodes g (Track trk))) 1)
             (kMaxDistToTrack * kMaxDistToTrack) kMaxDistToTrack).
Proof.
  intros Hsize Hatt H. unfold Add in H. rewrite Hatt in H. simpl bind in H. cbv beta iota in H.
  set (bound := size_sub (size (trk_Nodes g (Track trk))) 1) in *.
  change (fAssigned (set_fAssigned c (fAssigned c ++ [(trk, 0%Z)])))
    with (fAssigned c ++ [(trk, 0%Z)]) in H.
  destruct (Z.gtb_spec (size (fAssigned c ++ [(trk, 0%Z)])) 2) as [_|Hle].
  2: { unfold size in Hle. rewrite length_app in Hle. simpl in Hle. lia. }
  unbind H as st Hscan.
  assert (0 <= bound)%Z as Hb0 by (apply Z.mod_pos_bound; reflexivity).
  assert (scan3_shape c trk
            (mkScan3 (set_fAssigned c (fAssigned c ++ [(trk, 0%Z)]))
                     (kMaxDistToTrack * kMaxDistToTrack) 0 kMaxDistToTrack)) as Hshape0.
  { now exists 0%Z, (fCenter c), (fErr c). }
  pose proof Hscan as Hrule.
  apply (Add_scan3_rule g c trk bound _ []) in Hrule; trivial.
  2: { left. repeat split. intros n mse' d' Hn. simpl in Hn. lia. }
  simpl List.length in Hrule. rewrite Z.max_r in Hrule by (simpl; lia).
  apply (Add_scan3_inv g c trk bound _ []) in Hscan; trivial.
  2: { split; trivial. left. repeat split.
       intros n mse' d' Hn. simpl in Hn. lia. }
  simpl List.length in Hscan. rewrite Z.max_r in Hscan by (simpl; lia).
  destruct Hscan as [(x & center & err & Hc) Hbest].
  rewrite Hc in H.
  change (fAssigned (set_fit (set_fAssigned c (fAssigned c ++ [(trk, x)])) center err))
    with (fAssigned c ++ [(trk, x)]) in H.
  destruct (s3_d_best st <? kMaxDistToTrack) eqn:D.
  - unbind H as c1 Hfit. injection H as <- <-.
    apply refit_Consistent in Hfit. destruct Hfit as [HK HA]. split; trivial.
    destruct Hbest as [(_ & Hd & _)|(Hn & Hat & Hm & Hd & Hnb)].
    + rewrite Hd in D. discriminate.
    + exists (s3_n_best st), (s3_min_mse st), (s3_d_best st).
      rewrite HA. cbn [fAssigned set_fAssigned]. rewrite set_back_second_app.
      destruct Hrule as [(_ & Hd' & _)|Hends].
      * rewrite Hd' in D. discriminate.
      * repeat split; trivial; try lia; try apply Hends.
        intros n' mse' d' Hends'.
        exact (search_ends_unique g c trk bound _ _ _ _ _ _ Hends Hends').
  - unbind H as c1 Hfit. injection H as <- <-.
    apply refit_Consistent in Hfit. destruct Hfit as [HK HA]. split; trivial.
    destruct Hbest as [(_ & _ & Hnb)|(_ & _ & _ & Hd & _)]; [|congruence].
    split; trivial. rewrite HA. cbn [fAssigned set_fAssigned]. apply removelast_last.
Qed.

(** * Further properties *)

(** ** The membership queries *)

Lemma Has_in_In (assigned : list (TrkCandidate * Z)) (trk : TrackPtr) :
  Has_in assigned trk = true <-> In trk (tracks_of assigned).
Proof.
  unfold tracks_of. induction assigned as [|e rest IH]; simpl.
  - split; [discriminate|tauto].
  - destruct (Nat.eqb_spec trk (Track (fst e))) as [->|Hne].
    + split; auto.
    + rewrite IH. split; [auto|]. intros [E|H]; [congruence|trivial].
Qed.

(** X1. [Has(trk)] is true exactly when [trk] is the track of some entry of
    the assigned set. *)
Theorem Has_iff_assigned (c : VtxCandidate) (trk : TrackPtr) :
  Has c trk = true <-> In trk (tracks_of (fAssigned c)).
Proof. apply Has_in_In. Qed.

(** X2. [Has(other)] is true exactly when every track of [other] is a track
    of the candidate; it is true of a candidate without tracks, and of the
    candidate itself. *)
Theorem Has_candidate_iff_subset (c other : VtxCandidate) :
  (Has_candidate c other = true
   <-> forall t, In t (tracks_of (fAssigned other)) -> In t (tracks_of (fAssigned c)))
  /\ (fAssigned other = [] -> Has_candidate c other = true)
  /\ Has_candidate c c = true.
Proof.
  assert (forall others,
             Has_all c others = true
             <-> forall t, In t (tracks_of others) -> In t (tracks_of (fAssigned c))) as H.
  { induction others as [|e rest IH]; simpl.
    - split; [intros _ t []|reflexivity].
    - destruct (Has c (Track (fst e))) eqn:E; simpl.
      + rewrite IH. apply Has_in_In in E. split.
        * intros Hall t [<-|Ht]; auto.
        * intros Hall t Ht. apply Hall. now right.
      + split; [discriminate|]. intros Hall.
        assert (Has c (Track (fst e)) = true) as E'; [|congruence].
        apply Has_in_In. apply Hall. now left. }
  unfold Has_candidate. split; [apply H|]. split.
  - intros ->. reflexivity.
  - apply H. trivial.
Qed.

Lemma IsAttached_in_rooted (g : G) (rootTrk : TrackPtr) (assigned : list (TrkCandidate * Z)) :
  rooted g assigned ->
  exists b,
    IsAttached_in g rootTrk assigned = Ok b
    /\ (b = true
        <-> exists e rootAssn,
             In e assigned
             /\ trk_GetRoot g (Track (fst e)) = Some rootAssn
             /\ trk_IsAttachedTo g rootTrk rootAssn = true).
Proof.
  induction 1 as [|e rest He _ IH]; simpl.
  - exists false. split; trivial. split; [discriminate|]. now intros (e & r & [] & _).
  - destruct (trk_GetRoot g (Track (fst e))) as [rootAssn|] eqn:R; [|now destruct He].
    destruct (trk_IsAttachedTo g rootTrk rootAssn) eqn:A.
    + exists true. split; trivial. split; trivial. intros _. exists e, rootAssn. auto.
    + destruct IH as (b & -> & Hb). exists b. split; trivial. rewrite Hb. split.
      * intros (e' & r & Hin & Hr & Ha). exists e', r. auto.
      * intros (e' & r & [<-|Hin] & Hr & Ha).
        -- congruence.
        -- exists e', r. auto.
Qed.

(** X3. [IsAttached(trk)] throws "Broken track." when [trk] has no root,
    whatever the assigned set.  When [trk] and every assigned track have a
    root it returns, and it returns [true] exactly when the root of [trk] is
    attached to the root of some assigned track. *)
Theorem IsAttached_rooted (g : G) (c : VtxCandidate) (trk : TrackPtr) :
  (trk_GetRoot g trk = None -> IsAttached g c trk = Throw "Broken track.")
  /\ (forall rootTrk,
        trk_GetRoot g trk = Some rootTrk ->
        rooted g (fAssigned c) ->
        exists b,
          IsAttached g c trk = Ok b
          /\ (b = true <-> attached_to_some g (fAssigned c) trk)).
Proof.
  unfold IsAttached. split.
  - now intros ->.
  - intros rootTrk Hr Hall. rewrite Hr.
    destruct (IsAttached_in_rooted g rootTrk (fAssigned c) Hall) as (b & -> & Hb).
    exists b. split; trivial. rewrite Hb. unfold attached_to_some. split.
    + intros (e & r & H). exists rootTrk, e, r. tauto.
    + intros (r0 & e & r & H0 & H). exists e, r.
      assert (r0 = rootTrk) as -> by congruence. tauto.
Qed.

(** X4. When [IsAttached(other)] returns, it returns [true] exactly when
    [IsAttached] is true of some track of [other]. *)
Theorem IsAttached_candidate_iff (g : G) (c other : VtxCandidate) (b : bool) :
  IsAttached_candidate g c other = Ok b ->
  (b = true
   <-> exists t, In t (fAssigned other) /\ IsAttached g c (Track (fst t)) = Ok true).
Proof.
  unfold IsAttached_candidate. induction (fAssigned other) as [|t rest IH]; simpl; intros H.
  - injection H as <-. split; [discriminate|]. now intros (t & [] & _).
  - unbind H as a Ha. destruct a.
    + injection H as <-. split; trivial. intros _. exists t. auto.
    + specialize (IH H). rewrite IH. split.
      * intros (t' & Hin & Ht). exists t'. auto.
      * intros (t' & [<-|Hin] & Ht); [congruence|]. exists t'. auto.
Qed.

Lemma HasLoops_inner_rooted (g : G) (trk_t : TrackPtr) (t : Z)
  (rest : list (TrkCandidate * Z)) :
  rooted g rest ->
  forall u,
    exists b,
      HasLoops_inner g trk_t t rest u = Ok b
      /\ (b = true
          <-> exists k e trk_u,
               nth_error rest k = Some e
               /\ t <> (u + Z.of_nat k)%Z
               /\ trk_GetRoot g (Track (fst e)) = Some trk_u
               /\ trk_IsAttachedTo g trk_t trk_u = true).
Proof.
  induction 1 as [|e rest He _ IH]; simpl; intros u.
  - exists false. split; trivial. split; [discriminate|].
    intros ([|k] & e & r & Hn & _); discriminate.
  - assert (forall b,
               (b = true <-> exists k e' trk_u,
                    nth_error rest k = Some e' /\ t <> (u + 1 + Z.of_nat k)%Z
                    /\ trk_GetRoot g (Track (fst e')) = Some trk_u
                    /\ trk_IsAttachedTo g trk_t trk_u = true) ->
               (forall trk_u, t <> u -> trk_GetRoot g (Track (fst e)) = Some trk_u ->
                              trk_IsAttachedTo g trk_t trk_u = false) ->
               (b = true <-> exists k e' trk_u,
                    nth_error (e :: rest) k = Some e' /\ t <> (u + Z.of_nat k)%Z
                    /\ trk_GetRoot g (Track (fst e')) = Some trk_u
                    /\ trk_IsAttachedTo g trk_t trk_u = true)) as Hskip.
    { intros b Hb Hno. rewrite Hb. split.
      - intros (k & e' & r & Hn & Hne & Hr & Ha). exists (S k), e', r.
        repeat split; trivial. lia.
      - intros ([|k] & e' & r & Hn & Hne & Hr & Ha).
        + simpl in Hn. injection Hn as <-. rewrite (Hno r) in Ha; [discriminate| |trivial].
          lia.
        + exists k, e', r. repeat split; trivial. lia. }
    destruct (Z.eqb_spec t u) as [->|Hne]; simpl.
    + destruct (IH (u + 1)%Z) as (b & -> & Hb). exists b. split; trivial.
      apply Hskip; trivial. intros r Hu. now destruct Hu.
    + destruct (trk_GetRoot g (Track (fst e))) as [trk_u|] eqn:R; [|now destruct He].
      destruct (trk_IsAttachedTo g trk_t trk_u) eqn:A.
      * exists true. split; trivial. split; trivial. intros _.
        exists 0%nat, e, trk_u. repeat split; trivial. lia.
      * destruct (IH (u + 1)%Z) as (b & -> & Hb). exists b. split; trivial.
        apply Hskip; trivial. intros r _ Hr. congruence.
Qed.

Lemma HasLoops_outer_rooted (g : G) (assigned rest : list (TrkCandidate * Z)) :
  rooted g assigned ->
  rooted g rest ->
  forall t,
    exists b,
      HasLoops_outer g assigned rest t = Ok b
      /\ (b = true
          <-> exists k e_t trk_t j e_u trk_u,
               nth_error rest k = Some e_t
               /\ nth_error assigned j = Some e_u
               /\ (t + Z.of_nat k)%Z <> Z.of_nat j
               /\ trk_GetRoot g (Track (fst e_t)) = Some trk_t
               /\ trk_GetRoot g (Track (fst e_u)) = Some trk_u
               /\ trk_IsAttachedTo g trk_t trk_u = true).
Proof.
  intros Hall. induction 1 as [|e rest He _ IH]; simpl; intros t.
  - exists false. split; trivial. split; [discriminate|].
    intros ([|k] & e & r & j & e' & r' & Hn & _); discriminate.
  - destruct (trk_GetRoot g (Track (fst e))) as [trk_t|] eqn:R; [|now destruct He].
    destruct (HasLoops_inner_rooted g trk_t t assigned Hall 0) as (found & -> & Hf).
    simpl. destruct found.
    + exists true. split; trivial. split; trivial. intros _.
      destruct (proj1 Hf eq_refl) as (j & e_u & trk_u & Hn & Hne & Hr & Ha).
      exists 0%nat, e, trk_t, j, e_u, trk_u. repeat split; trivial. simpl. lia.
    + destruct (IH (t + 1)%Z) as (b & -> & Hb). exists b. split; trivial.
      rewrite Hb. split.
      * intros (k & e_t & r_t & j & e_u & r_u & Hk & Hj & Hne & Hrt & Hru & Ha).
        exists (S k), e_t, r_t, j, e_u, r_u. repeat split; trivial. lia.
      * intros ([|k] & e_t & r_t & j & e_u & r_u & Hk & Hj & Hne & Hrt & Hru & Ha).
        -- simpl in Hk. injection Hk as <-. assert (r_t = trk_t) as -> by congruence.
           assert (false = true) as F; [|discriminate].
           apply Hf. exists j, e_u, r_u. repeat split; trivial. simpl in Hne. lia.
        -- exists k, e_t, r_t, j, e_u, r_u. repeat split; trivial. lia.
Qed.

(** X5. When every assigned track has a root, [HasLoops] returns, and it
    returns [true] exactly when the root of one assigned entry is attached to
    the root of another one (entries at two different positions). *)
Theorem HasLoops_rooted (g : G) (c : VtxCandidate) :
  rooted g (fAssigned c) ->
  exists b,
    HasLoops g c = Ok b
    /\ (b = true
        <-> exists t u e_t e_u trk_t trk_u,
             t <> u
             /\ nth_error (fAssigned c) t = Some e_t
             /\ nth_error (fAssigned c) u = Some e_u
             /\ trk_GetRoot g (Track (fst e_t)) = Some trk_t
             /\ trk_GetRoot g (Track (fst e_u)) = Some trk_u
             /\ trk_IsAttachedTo g trk_t trk_u = true).
Proof.
  intros Hall. unfold HasLoops.
  destruct (HasLoops_outer_rooted g (fAssigned c) (fAssigned c) Hall Hall 0)
    as (b & -> & Hb).
  exists b. split; trivial. rewrite Hb. split.
  - intros (k & e_t & r_t & j & e_u & r_u & Hk & Hj & Hne & Hrt & Hru & Ha).
    exists k, j, e_t, e_u, r_t, r_u. repeat split; trivial. lia.
  - intros (t & u & e_t & e_u & r_t & r_u & Hne & Ht & Hu & Hrt & Hru & Ha).
    exists t, e_t, r_t, u, e_u, r_u. repeat split; trivial. lia.
Qed.

Lemma Size_in_counts (g : G) (minLength : float) (assigned : list (TrkCandidate * Z)) :
  forall n,
    (0 <= n)%Z ->
    (n + size assigned < size_max)%Z ->
    Size_in g minLength assigned n
    = (n + size (filter (fun e => (trk_Length g (Track (fst e)) >? minLength)%float)
                         assigned))%Z.
Proof.
  unfold size. induction assigned as [|e rest IH]; simpl List.length; intros n Hn Hlt.
  - simpl. lia.
  - simpl Size_in. simpl filter.
    destruct (trk_Length g (Track (fst e)) >? minLength).
    + unfold to_size_t. rewrite Z.mod_small by lia. rewrite IH by lia.
      simpl List.length. lia.
    + rewrite IH by lia. lia.
Qed.

(** X6. On an assigned set that fits a [size_t], [Size(minLength)] is the
    number of assigned entries whose track is longer than [minLength]; it is
    at most the size of the assigned set. *)
Theorem Size_counts_longer (g : G) (c : VtxCandidate) (minLength : float) :
  (size (fAssigned c) < size_max)%Z ->
  Size g c minLength
  = size (filter (fun e => trk_Length g (Track (fst e)) >? minLength) (fAssigned c))
  /\ (0 <= Size g c minLength <= size (fAssigned c))%Z.
Proof.
  intros H. unfold Size. rewrite Size_in_counts by lia. split; [lia|].
  unfold size. pose proof (filter_length_le
    (fun e => trk_Length g (Track (fst e)) >? minLength) (fAssigned c)). lia.
Qed.

(** ** NaN in sums and quotients *)

Lemma is_nan_add_l x y : is_nan x = true -> is_nan (x + y) = true.
Proof.
  rewrite !is_nan_spec, add_spec. intros ->. reflexivity.
Qed.

Lemma is_nan_add_r x y : is_nan y = true -> is_nan (x + y) = true.
Proof.
  rewrite !is_nan_spec, add_spec. intros ->.
  now destruct (Prim2SF x) as [[]|[]| |].
Qed.

Lemma is_nan_div_l x y : is_nan x = true -> is_nan (x / y) = true.
Proof.
  rewrite !is_nan_spec, div_spec. intros ->. reflexivity.
Qed.

(** ** What [Compute] and [ComputeMse2D] return *)

(** X7. [Compute] never returns a negative residual (a negative answer of the
    solver is replaced by [1.0E+6]), and of the candidate it only rewrites
    [fCenter] and [fErr]. *)
Theorem Compute_residual_and_frame (g : G) (c c1 : VtxCandidate) (m : float) :
  Compute g c = Ok (m, c1) ->
  (m <? 0) = false
  /\ c1 = set_fit c (fCenter c1) (fErr c1).
Proof.
  intros H. apply Compute_Ok in H. destruct H as (center & err & F & ->).
  split; [|reflexivity].
  unfold Compute_fit in F. unbind F as lines Hl.
  destruct (SolveLeastSquares3D (map line_ends lines)) as [resultMse result].
  destruct (resultMse <? 0) eqn:L.
  - apply (f_equal (fun o => match o with Ok p => fst p | _ => m end)) in F.
    simpl in F. now subst m.
  - unbind F as [[ce er] wsum] Hs.
    apply (f_equal (fun o => match o with Ok p => fst p | _ => m end)) in F.
    simpl in F. now subst m.
Qed.

Lemma ComputeMse2D_sum_nan (g : G) (center : TVector3) (assigned : list (TrkCandidate * Z)) :
  forall mse r,
    is_nan mse = true ->
    ComputeMse2D_sum g center assigned mse = Ok r ->
    is_nan r = true.
Proof.
  induction assigned as [|t rest IH]; simpl; intros mse r N H.
  - apply (f_equal (fun o => match o with Ok p => p | _ => r end)) in H.
    simpl in H. now subst r.
  - unbind H as nd Hnd. unbind H as mk1 H1. unbind H as mk2 H2. unbind H as mk3 H3.
    apply IH in H; trivial. now apply is_nan_add_l.
Qed.

Lemma ComputeMse2D_sum_no_plane (g : G) (center : TVector3)
  (assigned : list (TrkCandidate * Z)) (e : TrkCandidate * Z) (nd : NodePtr) :
  In e assigned ->
  at_ (trk_Nodes g (Track (fst e))) (snd e) = Ok nd ->
  no_plane g nd ->
  forall mse r,
    ComputeMse2D_sum g center assigned mse = Ok r ->
    is_nan r = true.
Proof.
  intros Hin Hnd Hno. induction assigned as [|t rest IH]; [now destruct Hin|].
  simpl. intros mse r H.
  unbind H as nd' Hnd'. unbind H as mk1 H1. unbind H as mk2 H2. unbind H as mk3 H3.
  destruct Hin as [->|Hin]; [|now apply (IH Hin) in H].
  rewrite Hnd in Hnd'. injection Hnd' as <-.
  unfold ComputeMse2D_plane in H1, H2, H3. rewrite Hno in H1.
  assert (mk1 = (0, 0%Z)) as ->.
  { exact (f_equal (fun o => match o with Ok p => p | _ => mk1 end) (eq_sym H1)). }
  rewrite Hno in H2.
  assert (mk2 = (0, 0%Z)) as ->.
  { exact (f_equal (fun o => match o with Ok p => p | _ => mk2 end) (eq_sym H2)). }
  rewrite Hno in H3.
  assert (mk3 = (0, 0%Z)) as ->.
  { exact (f_equal (fun o => match o with Ok p => p | _ => mk3 end) (eq_sym H3)). }
  apply ComputeMse2D_sum_nan in H; trivial. now apply is_nan_add_r.
Qed.

(** X8. [ComputeMse2D] divides by the size of the assigned set and, for each
    entry, by the number of readout planes of the volume of its node: on an
    empty assigned set it returns NaN, and so it does, when it returns, if
    the volume of the node of some assigned entry has no readout plane. *)
Theorem ComputeMse2D_nan (g : G) (c : VtxCandidate) :
  (fAssigned c = [] -> ComputeMse2D g c = Ok nan)
  /\ (forall e nd r,
        In e (fAssigned c) ->
        at_ (trk_Nodes g (Track (fst e))) (snd e) = Ok nd ->
        no_plane g nd ->
        ComputeMse2D g c = Ok r ->
        is_nan r = true).
Proof.
  unfold ComputeMse2D. split.
  - intros ->. reflexivity.
  - intros e nd r Hin Hnd Hno H. unbind H as mse Hs.
    apply (ComputeMse2D_sum_no_plane g _ _ e nd Hin Hnd Hno) in Hs.
    apply (f_equal (fun o => match o with Ok p => p | _ => r end)) in H.
    simpl in H. subst r. now apply is_nan_div_l.
Qed.

Lemma Compute_collect_skips (g : G) (segMinLength : float)
  (a b : list (TrkCandidate * Z)) (v : TrkCandidate * Z) :
  too_short g segMinLength v ->
  Compute_collect g segMinLength (a ++ v :: b) = Compute_collect g segMinLength (a ++ b).
Proof.
  intros (vtx1 & seg & Hv & Hs & Hl). induction a as [|x a IH]; simpl.
  - rewrite Hv. simpl. rewrite Hs. simpl. now rewrite Hl.
  - now rewrite IH.
Qed.

(** X19. An assigned entry whose segment is shorter than the minimum length
    takes no part in the fit: [Compute] returns the residual, and leaves the
    centre and the error, that it does on the candidate without that
    entry. *)
Theorem Compute_skips_short (g : G) (c c' : VtxCandidate) (a b : list (TrkCandidate * Z))
  (v : TrkCandidate * Z) (m : float) (c1 : VtxCandidate) :
  fAssigned c = a ++ v :: b ->
  fAssigned c' = a ++ b ->
  fSegMinLength c' = fSegMinLength c ->
  too_short g (fSegMinLength c) v ->
  Compute g c = Ok (m, c1) ->
  Compute g c' = Ok (m, set_fit c' (fCenter c1) (fErr c1)).
Proof.
  intros Ha Ha' Hmin Hshort H. apply Compute_Ok in H.
  destruct H as (center & err & F & ->). cbn [fCenter fErr set_fit].
  apply Compute_of_fit. rewrite Ha', Hmin. rewrite Ha in F.
  unfold Compute_fit in *. now rewrite (Compute_collect_skips g _ a b v Hshort) in F.
Qed.

(** ** What [Add] does to the assigned set *)

Lemma map_fst_set_back_second (a : list (TrkCandidate * Z)) (n : Z) :
  map fst (set_back_second a n) = map fst a.
Proof.
  induction a as [|[t z] a IH]; simpl; trivial.
  destruct a as [|e a]; [reflexivity|]. simpl in *. now rewrite IH.
Qed.

Lemma map_fst_set_front_second (a : list (TrkCandidate * Z)) (m : Z) :
  map fst (set_front_second a m) = map fst a.
Proof. now destruct a as [|[t z] a]. Qed.

Lemma map_removelast {A B : Type} (f : A -> B) (l : list A) :
  map f (removelast l) = removelast (map f l).
Proof.
  induction l as [|x l IH]; simpl; trivial.
  destruct l; simpl in *; trivial. now rewrite IH.
Qed.

Lemma same_members_refl (c : VtxCandidate) : same_members c c.
Proof. repeat split. Qed.

Lemma same_members_trans (c1 c2 c3 : VtxCandidate) :
  same_members c1 c2 -> same_members c2 c3 -> same_members c1 c3.
Proof. unfold same_members. intros (A1 & B1 & C1) (A2 & B2 & C2). repeat split; congruence. Qed.

Lemma Compute_same_members (g : G) (c c1 : VtxCandidate) (m : float) :
  Compute g c = Ok (m, c1) -> same_members c c1.
Proof.
  intros H. apply Compute_Ok in H. destruct H as (center & err & _ & ->). repeat split.
Qed.

Lemma refit_same_members (g : G) (c c' : VtxCandidate) :
  refit g c = Ok c' -> same_members c c'.
Proof.
  unfold refit. intros H. unbind H as [mse c1] HC. unbind H as mse2d H2.
  apply Compute_same_members in HC.
  apply (f_equal (fun o => match o with Ok p => p | _ => c' end)) in H. simpl in H.
  subst c'. exact HC.
Qed.

Lemma set_back_same_members (c : VtxCandidate) (n : Z) :
  same_members c (set_fAssigned c (set_back_second (fAssigned c) n)).
Proof. repeat split. simpl. apply map_fst_set_back_second. Qed.

Lemma set_front_same_members (c : VtxCandidate) (m : Z) :
  same_members c (set_fAssigned c (set_front_second (fAssigned c) m)).
Proof. repeat split. simpl. apply map_fst_set_front_second. Qed.

Lemma Add_try3_same_members (g : G) (trk : TrackPtr) (nd : NodePtr) (n : Z)
  (st st' : Scan3) :
  Add_try3 g trk nd n st = Ok st' -> same_members (s3_c st) (s3_c st').
Proof.
  unfold Add_try3. intros H. unbind H as seg Hseg.
  destruct (seg_Length g seg <? fSegMinLength (s3_c st)).
  - apply (f_equal (fun o => match o with Ok p => p | _ => st' end)) in H. simpl in H.
    subst st'. apply same_members_refl.
  - unbind H as [mse c1] HC. apply Compute_same_members in HC.
    assert (s3_c st' = c1) as ->.
    { destruct (mse <? s3_min_mse st);
        [destruct (PrimFloat.sqrt (seg_GetDistance2To g seg (fCenter c1)) <? s3_d_best st)|];
        apply (f_equal (fun o => match o with Ok p => s3_c p | _ => c1 end)) in H;
        simpl in H; now subst c1. }
    eapply same_members_trans; [apply set_back_same_members|exact HC].
Qed.

Lemma Add_scan3_same_members (g : G) (trk : TrackPtr) (bound : Z) (nodes : list NodePtr) :
  forall n st st',
    Add_scan3 g trk bound nodes n st = Ok st' -> same_members (s3_c st) (s3_c st').
Proof.
  induction nodes as [|nd rest IH]; simpl; intros n st st' H.
  - destruct (n <? bound)%Z; [discriminate|].
    apply (f_equal (fun o => match o with Ok p => p | _ => st' end)) in H. simpl in H.
    subst st'. apply same_members_refl.
  - destruct (n <? bound)%Z.
    + unbind H as st1 H1. apply Add_try3_same_members in H1. apply IH in H.
      eapply same_members_trans; eauto.
    + apply (f_equal (fun o => match o with Ok p => p | _ => st' end)) in H. simpl in H.
      subst st'. apply same_members_refl.
Qed.

Lemma Add_try2_same_members (g : G) (trk : TrackPtr) (nd : NodePtr) (n m : Z) (lm : float)
  (st st' : Scan2) :
  Add_try2 g trk nd n m lm st = Ok st' -> same_members (s2_c st) (s2_c st').
Proof.
  unfold Add_try2. intros H. unbind H as seg Hseg.
  destruct (seg_Length g seg <? fSegMinLength (s2_c st)).
  - apply (f_equal (fun o => match o with Ok p => p | _ => st' end)) in H. simpl in H.
    subst st'. apply same_members_refl.
  - unbind H as [mse c1] HC. unbind H as mse2d H2. apply Compute_same_members in HC.
    assert (s2_c st' = c1) as ->.
    { destruct (PrimFloat.sqrt mse2d <? s2_d_best st);
        [destruct (lm + seg_Length g seg
                   >? 0.8 * ((s2_d_best st - PrimFloat.sqrt mse2d) / s2_d_best st)
                      * s2_l_best st)|];
        apply (f_equal (fun o => match o with Ok p => s2_c p | _ => c1 end)) in H;
        simpl in H; now subst c1. }
    eapply same_members_trans; [apply set_back_same_members|exact HC].
Qed.

Lemma Add_scan2_inner_same_members (g : G) (trk : TrackPtr) (bound : Z)
  (nodes : list NodePtr) (m : Z) (lm : float) :
  forall n st st',
    Add_scan2_inner g trk bound nodes n m lm st = Ok st' ->
    same_members (s2_c st) (s2_c st').
Proof.
  induction nodes as [|nd rest IH]; simpl; intros n st st' H.
  - destruct (n <? bound)%Z; [discriminate|].
    apply (f_equal (fun o => match o with Ok p => p | _ => st' end)) in H. simpl in H.
    subst st'. apply same_members_refl.
  - destruct (n <? bound)%Z.
    + unbind H as st1 H1. apply Add_try2_same_members in H1. apply IH in H.
      eapply same_members_trans; eauto.
    + apply (f_equal (fun o => match o with Ok p => p | _ => st' end)) in H. simpl in H.
      subst st'. apply same_members_refl.
Qed.

Lemma Add_scan2_same_members (g : G) (p0 trk : TrackPtr) (bound0 : Z)
  (nodes0 : list NodePtr) :
  forall m st st',
    Add_scan2 g p0 trk bound0 nodes0 m st = Ok st' ->
    same_members (s2_c st) (s2_c st').
Proof.
  induction nodes0 as [|nd rest IH]; simpl; intros m st st' H.
  - destruct (m <? bound0)%Z; [discriminate|].
    apply (f_equal (fun o => match o with Ok p => p | _ => st' end)) in H. simpl in H.
    subst st'. apply same_members_refl.
  - destruct (m <? bound0)%Z.
    + unbind H as seg Hseg.
      destruct (seg_Length g seg <? fSegMinLength (s2_c st)); [now apply IH in H|].
      unbind H as st1 H1. apply Add_scan2_inner_same_members in H1. apply IH in H.
      eapply same_members_trans; [|exact H].
      eapply same_members_trans; [|exact H1]. apply set_front_same_members.
    + apply (f_equal (fun o => match o with Ok p => p | _ => st' end)) in H. simpl in H.
      subst st'. apply same_members_refl.
Qed.

Lemma Has_of_members (c : VtxCandidate) (trk : TrkCandidate) :
  In trk (map fst (fAssigned c)) -> Has c (Track trk) = true.
Proof.
  intros H. apply Has_in_In. unfold tracks_of.
  apply in_map_iff in H. destruct H as (e & <- & He).
  apply in_map_iff. now exists e.
Qed.

(** [Add] on the assigned tracks, branch by branch. *)
Lemma Add_appends (g : G) (c : VtxCandidate) (trk : TrkCandidate) (b : bool)
  (c' : VtxCandidate) :
  Add g c trk = Ok (b, c') ->
  map fst (fAssigned c') = map fst (fAssigned c) ++ (if b then [trk] else [])
  /\ fSegMinLength c' = fSegMinLength c
  /\ tracksJoined c' = tracksJoined c
  /\ (b = true -> IsAttached g c (Track trk) = Ok false /\ Has c' (Track trk) = true).
Proof.
  intros H. unfold Add in H. unbind H as attached Hatt.
  destruct attached.
  { injection H as <- <-. rewrite app_nil_r. repeat split; easy. }
  set (c0 := set_fAssigned c (fAssigned c ++ [(trk, 0%Z)])) in *.
  assert (map fst (fAssigned c0) = map fst (fAssigned c) ++ [trk]) as H0.
  { unfold c0. simpl. now rewrite map_app. }
  assert (forall c1 b1,
             same_members c0 c1 -> b1 = true ->
             map fst (fAssigned c1) = map fst (fAssigned c) ++ (if b1 then [trk] else [])
             /\ fSegMinLength c1 = fSegMinLength c
             /\ tracksJoined c1 = tracksJoined c
             /\ (b1 = true ->
                 IsAttached g c (Track trk) = Ok false /\ Has c1 (Track trk) = true))
    as Hyes.
  { intros c1 b1 (A1 & B1 & C1) ->. rewrite A1, H0. repeat split; trivial.
    apply Has_of_members. rewrite A1, H0. apply in_or_app. right. now left. }
  assert (forall c1,
             same_members c0 c1 ->
             map fst (removelast (fAssigned c1)) = map fst (fAssigned c)) as Hno.
  { intros c1 (A1 & _). rewrite map_removelast, A1, H0. apply removelast_last. }
  cbv zeta in H.
  destruct (size (fAssigned c0) >? 2)%Z.
  - unbind H as st Hscan. apply Add_scan3_same_members in Hscan. simpl s3_c in Hscan.
    destruct (s3_d_best st <? kMaxDistToTrack).
    + unbind H as c1 Hfit. injection H as <- <-. apply refit_same_members in Hfit.
      apply (Hyes c1 true); trivial.
      eapply same_members_trans; [exact Hscan|].
      eapply same_members_trans; [apply set_back_same_members|exact Hfit].
    + unbind H as c1 Hfit. injection H as <- <-. apply refit_same_members in Hfit.
      destruct Hfit as (A1 & B1 & C1). destruct Hscan as (A2 & B2 & C2).
      rewrite app_nil_r, A1. simpl fAssigned.
      rewrite (Hno (s3_c st)) by (repeat split; trivial).
      simpl in B1, C1. unfold c0 in B2, C2. simpl in B2, C2.
      repeat split; try easy; congruence.
  - destruct (size (fAssigned c0) =? 2)%Z.
    + unbind H as [front second] Hfront. unbind H as st Hscan.
      apply Add_scan2_same_members in Hscan. simpl s2_c in Hscan.
      destruct (s2_d_best st <? kMaxDistToTrack).
      * unbind H as c1 Hfit. injection H as <- <-. apply refit_same_members in Hfit.
        apply (Hyes c1 true); trivial.
        eapply same_members_trans; [exact Hscan|].
        eapply same_members_trans; [apply set_front_same_members|].
        eapply same_members_trans; [apply set_back_same_members|exact Hfit].
      * injection H as <- <-. rewrite app_nil_r. unfold undo_and_reset. simpl.
        rewrite (Hno (s2_c st) Hscan). destruct Hscan as (_ & B2 & C2).
        repeat split; easy.
    + unbind H as long Hl. destruct long.
      * injection H as <- <-. apply (Hyes c0 true); trivial. apply same_members_refl.
      * injection H as <- <-. rewrite app_nil_r. unfold undo_and_reset. simpl.
        rewrite removelast_last. repeat split; easy.
Qed.

(** X9. Whatever branch [Add(trk)] takes, it leaves the assigned tracks in
    their order: a call that returns [true] has appended [trk] (so that
    [Has] is true of it) and only happens when [trk] was not attached; a call
    that returns [false] leaves the same tracks.  The minimum segment length
    and the [tracksJoined] flag are never touched. *)
Theorem Add_members (g : G) (c : VtxCandidate) (trk : TrkCandidate) (b : bool)
  (c' : VtxCandidate) :
  Add g c trk = Ok (b, c') ->
  map fst (fAssigned c') = map fst (fAssigned c) ++ (if b then [trk] else [])
  /\ fSegMinLength c' = fSegMinLength c
  /\ tracksJoined c' = tracksJoined c
  /\ (b = true -> IsAttached g c (Track trk) = Ok false /\ Has c' (Track trk) = true).
Proof. apply Add_appends. Qed.

Lemma IsAttached_in_false (g : G) (rootTrk : TrackPtr) (assigned : list (TrkCandidate * Z)) :
  IsAttached_in g rootTrk assigned = Ok false ->
  forall e,
    In e assigned ->
    exists rootAssn,
      trk_GetRoot g (Track (fst e)) = Some rootAssn
      /\ trk_IsAttachedTo g rootTrk rootAssn = false.
Proof.
  induction assigned as [|t rest IH]; simpl; intros H e Hin; [now destruct Hin|].
  destruct (trk_GetRoot g (Track (fst t))) as [rootAssn|] eqn:R; [|discriminate].
  destruct (trk_IsAttachedTo g rootTrk rootAssn) eqn:A; [discriminate|].
  destruct Hin as [<-|Hin]; [|now apply IH].
  exists rootAssn. now split.
Qed.

Lemma tracks_of_app (a b : list (TrkCandidate * Z)) :
  tracks_of (a ++ b) = tracks_of a ++ tracks_of b.
Proof. apply map_app. Qed.

Lemma tracks_of_members (a b : list (TrkCandidate * Z)) :
  map fst a = map fst b -> tracks_of a = tracks_of b.
Proof.
  intros H. unfold tracks_of. rewrite <- (map_map fst Track a), <- (map_map fst Track b).
  now rewrite H.
Qed.

(** X10. On a graph where a track counts as attached to itself, [Add]
    answers [false] for a track that the candidate already has and leaves the
    candidate as it is; so a candidate that holds each track once still does
    after [Add], whatever [Add] answers. *)
Theorem Add_keeps_tracks_distinct (g : G) (c : VtxCandidate) (trk : TrkCandidate) (b : bool)
  (c' : VtxCandidate) :
  (forall r, trk_IsAttachedTo g r r = true) ->
  Add g c trk = Ok (b, c') ->
  (Has c (Track trk) = true -> b = false /\ c' = c)
  /\ (NoDup (tracks_of (fAssigned c)) -> NoDup (tracks_of (fAssigned c'))).
Proof.
  intros Hrefl H.
  assert (IsAttached g c (Track trk) = Ok false -> Has c (Track trk) = false) as Hnew.
  { unfold IsAttached. destruct (trk_GetRoot g (Track trk)) as [rootTrk|] eqn:R; [|discriminate].
    intros Hf. destruct (Has c (Track trk)) eqn:Hh; trivial.
    apply Has_in_In in Hh. apply in_map_iff in Hh. destruct Hh as (e & He & Hin).
    destruct (IsAttached_in_false g rootTrk _ Hf e Hin) as (rootAssn & Hr & Ha).
    rewrite He, R in Hr. injection Hr as <-. now rewrite Hrefl in Ha. }
  split.
  - intros Hh. unfold Add in H. unbind H as attached Hatt. destruct attached.
    + now injection H as <- <-.
    + apply Hnew in Hatt. congruence.
  - intros Nd. pose proof H as Hm. apply Add_appends in Hm.
    destruct Hm as (Hmap & _ & _ & Hb).
    rewrite (tracks_of_members _ (fAssigned c ++ (if b then [(trk, 0%Z)] else []))).
    2:{ rewrite Hmap, map_app. now destruct b. }
    destruct b; [|now rewrite app_nil_r].
    destruct (Hb eq_refl) as [Hatt _]. apply Hnew in Hatt.
    rewrite tracks_of_app. simpl.
    apply NoDup_app; trivial.
    + repeat constructor. now intros [].
    + intros x Hx [<-|[]].
      apply Has_in_In in Hx. unfold Has in Hatt. congruence.
Qed.

(** ** The first track of a candidate *)

Lemma Add_any_long_spec (g : G) (trk : TrackPtr) (segMinLength : float) (bound : Z)
  (nodes : list NodePtr) :
  forall n0 b,
    Add_any_long g trk segMinLength bound nodes n0 = Ok b ->
    (b = true
     <-> exists k nd seg,
          (n0 + Z.of_nat k < bound)%Z
          /\ nth_error nodes k = Some nd
          /\ trk_NextSegment g trk nd = Some seg
          /\ (seg_Length g seg >=? segMinLength) = true).
Proof.
  induction nodes as [|nd rest IH]; simpl; intros n0 b H.
  - destruct (Z.ltb_spec n0 bound) as [L|L]; [discriminate|]. injection H as <-.
    split; [discriminate|]. intros ([|k] & nd & seg & _ & Hn & _); discriminate.
  - destruct (Z.ltb_spec n0 bound) as [L|L].
    + unbind H as seg Hseg.
      destruct (trk_NextSegment g trk nd) as [seg'|] eqn:N; [|discriminate].
      injection Hseg as ->.
      destruct (seg_Length g seg >=? segMinLength) eqn:Hl.
      * injection H as <-. split; trivial. intros _. exists 0%nat, nd, seg.
        repeat split; trivial. lia.
      * apply IH in H. rewrite H. split.
        -- intros (k & nd' & seg' & Hk & Hn & Hs & Hl'). exists (S k), nd', seg'.
           repeat split; trivial. lia.
        -- intros ([|k] & nd' & seg' & Hk & Hn & Hs & Hl').
           ++ simpl in Hn. injection Hn as <-. congruence.
           ++ exists k, nd', seg'. repeat split; trivial. lia.
    + injection H as <-. split; [discriminate|].
      intros (k & nd' & seg' & Hk & _). lia.
Qed.

Lemma at_nth_error {A : Type} (v : list A) (i : Z) (x : A) :
  at_ v i = Ok x <-> (0 <= i)%Z /\ nth_error v (Z.to_nat i) = Some x.
Proof.
  unfold at_. destruct (Z.ltb_spec i 0) as [L|L].
  - split; [discriminate|lia].
  - destruct (nth_error v (Z.to_nat i)) as [y|]; simpl.
    + split; [intros [= ->]; now split|intros [_ [= ->]]; trivial].
    + split; [discriminate|now intros [_ ?]].
Qed.

(** X11. The first track.  On a candidate without tracks, when [Add(trk)]
    returns, it returns [true] exactly when one of the segments of [trk] that
    its loop visits has the minimum length or more.  Then [trk] is assigned
    at segment index 0, whichever segment was found, and the fit is left as
    it was; else the candidate stays without tracks and its centre and both
    residuals are set to zero. *)
Theorem Add_first_track (g : G) (c : VtxCandidate) (trk : TrkCandidate) (b : bool)
  (c' : VtxCandidate) :
  fAssigned c = [] ->
  Add g c trk = Ok (b, c') ->
  (b = true <-> has_long_segment g (Track trk) (fSegMinLength c))
  /\ c' = (if b then set_fAssigned c [(trk, 0%Z)]
           else set_fMse2D (set_fMse (set_fCenter c v3_zero) 0) 0).
Proof.
  intros He H. unfold Add in H. unbind H as attached Hatt.
  unfold IsAttached in Hatt. rewrite He in Hatt.
  destruct (trk_GetRoot g (Track trk)); [|discriminate]. injection Hatt as <-.
  rewrite He in H. cbn [app set_fAssigned fAssigned size List.length Z.of_nat] in H.
  cbv zeta in H. change (Z.pos (Pos.of_succ_nat 0) >? 2)%Z with false in H.
  change (Z.pos (Pos.of_succ_nat 0) =? 2)%Z with false in H.
  cbv iota in H. unbind H as long Hlong.
  apply Add_any_long_spec in Hlong. cbn [fSegMinLength] in Hlong.
  assert ((long = true <-> has_long_segment g (Track trk) (fSegMinLength c))) as Hiff.
  { rewrite Hlong. unfold has_long_segment. split.
    - intros (k & nd & seg & Hk & Hn & Hs & Hl). exists (Z.of_nat k), nd, seg.
      repeat split; trivial; try lia.
      apply at_nth_error. rewrite Nat2Z.id. split; [lia|trivial].
    - intros (n & nd & seg & Hk & Hn & Hs & Hl). apply at_nth_error in Hn.
      exists (Z.to_nat n), nd, seg. repeat split; try tauto. lia. }
  destruct long; injection H as <- <-; (split; [exact Hiff|]).
  - reflexivity.
  - unfold undo_and_reset. cbn. destruct c. simpl in He. now subst.
Qed.

(** X12. A track without nodes.  The loops of [Add] over the segments of
    [trk] run up to [Nodes().size() - 1], which on an empty node list is the
    largest [size_t]: for a track that is not attached, and a candidate that
    has no track or two and more, [Add] then reads [Nodes()[0]] past the
    end. *)
Theorem Add_track_without_nodes (g : G) (c : VtxCandidate) (trk : TrkCandidate) :
  trk_Nodes g (Track trk) = [] ->
  IsAttached g c (Track trk) = Ok false ->
  List.length (fAssigned c) <> 1%nat ->
  size_sub (size (trk_Nodes g (Track trk))) 1 = 18446744073709551615%Z
  /\ Add g c trk = Undefined.
Proof.
  intros Hn Hatt Hlen. split; [now rewrite Hn|].
  unfold Add. rewrite Hatt. cbn [bind]. cbv zeta. rewrite Hn.
  cbn [set_fAssigned fAssigned]. unfold size at 1 3. rewrite length_app. simpl List.length.
  destruct (Z.gtb_spec (Z.of_nat (List.length (fAssigned c) + 1)) 2) as [L|L].
  - reflexivity.
  - destruct (Z.eqb_spec (Z.of_nat (List.length (fAssigned c) + 1)) 2) as [E|E]; [lia|].
    reflexivity.
Qed.

(** X18. A rejected second track.  When a candidate has one track and [Add]
    answers [false] for a track that is not attached, the candidate keeps its
    track, and its centre and both residuals are set to zero: they are not
    fitted again. *)
Theorem Add_second_track_rejected (g : G) (c : VtxCandidate) (trk : TrkCandidate)
  (c' : VtxCandidate) :
  List.length (fAssigned c) = 1%nat ->
  IsAttached g c (Track trk) = Ok false ->
  Add g c trk = Ok (false, c') ->
  map fst (fAssigned c') = map fst (fAssigned c)
  /\ fCenter c' = v3_zero
  /\ fMse c' = 0
  /\ fMse2D c' = 0.
Proof.
  intros Hlen Hatt H. split.
  { apply Add_appends in H. destruct H as [H _]. now rewrite app_nil_r in H. }
  unfold Add in H. rewrite Hatt in H. cbn [bind] in H. cbv zeta in H.
  cbn [set_fAssigned fAssigned] in H.
  assert (size (fAssigned c ++ [(trk, 0%Z)]) = 2%Z) as Hsize.
  { unfold size. rewrite length_app, Hlen. reflexivity. }
  rewrite Hsize in H. change (2 >? 2)%Z with false in H. change (2 =? 2)%Z with true in H.
  cbv iota in H. unbind H as [front second] Hfront. unbind H as st Hscan.
  destruct (s2_d_best st <? kMaxDistToTrack).
  - unbind H as c1 Hfit. discriminate.
  - injection H as <-. repeat split.
Qed.

(** ** What [MergeWith] does to the assigned set *)

Lemma Has_in_app (a b : list (TrkCandidate * Z)) (trk : TrackPtr) :
  Has_in (a ++ b) trk = Has_in a trk || Has_in b trk.
Proof.
  induction a as [|e a IH]; simpl; trivial.
  now destruct (Nat.eqb trk (Track (fst e))).
Qed.

Lemma Has_all_spec (c : VtxCandidate) (others : list (TrkCandidate * Z)) :
  Has_all c others = true <-> forall t, In t others -> Has c (Track (fst t)) = true.
Proof.
  induction others as [|e rest IH]; simpl.
  - split; [now intros _ t []|trivial].
  - destruct (Has c (Track (fst e))) eqn:E; simpl.
    + rewrite IH. split.
      * intros Hall t [<-|Ht]; auto.
      * intros Hall t Ht. apply Hall. now right.
    + split; [discriminate|]. intros Hall. rewrite <- E. apply Hall. now left.
Qed.

(** The loop of [MergeWith]: what it appends are entries of [others] whose
    tracks the candidate did not have, each track once; when it runs to its
    end the candidate has every track of [others]. *)
Lemma MergeWith_append_full (g : G) (others : list (TrkCandidate * Z)) :
  forall (c c' : VtxCandidate) (ntrk : Z) (r : option Z),
    MergeWith_append g c others ntrk = Ok (c', r) ->
    exists added,
      c' = set_fAssigned c (fAssigned c ++ added)
      /\ incl added others
      /\ (forall t, In t added -> Has c (Track (fst t)) = false)
      /\ NoDup (tracks_of added)
      /\ (forall ntrk',
            r = Some ntrk' ->
            ntrk' = (ntrk + Z.of_nat (List.length added))%Z
            /\ forall t, In t others -> Has c' (Track (fst t)) = true).
Proof.
  induction others as [|t rest IH]; simpl; intros c c' ntrk r H.
  - injection H as <- <-. exists []. rewrite app_nil_r. repeat split.
    + now destruct c.
    + easy.
    + now intros t [].
    + constructor.
    + injection H as <-. simpl. lia.
    + now intros t [].
  - unbind H as attached Hatt. destruct attached.
    + injection H as <- <-. exists []. rewrite app_nil_r. repeat split.
      * now destruct c.
      * easy.
      * now intros t' [].
      * constructor.
      * discriminate.
      * discriminate.
    + destruct (Has c (Track (fst t))) eqn:Eh; simpl in H.
      * apply IH in H. destruct H as (added & -> & Hincl & Hnot & Hnd & Hr).
        exists added. repeat split; trivial.
        -- now apply incl_tl.
        -- now apply Hr.
        -- intros t' [<-|Hin].
           ++ unfold Has in *. cbn [fAssigned set_fAssigned]. rewrite Has_in_app, Eh.
              reflexivity.
           ++ now apply (Hr ntrk').
      * apply IH in H. destruct H as (added & -> & Hincl & Hnot & Hnd & Hr).
        cbn [fAssigned set_fAssigned] in *.
        assert (forall t', In t' added -> Has c (Track (fst t')) = false
                                          /\ Track (fst t') <> Track (fst t)) as Hnew.
        { intros t' Hin. specialize (Hnot t' Hin). unfold Has in Hnot.
          cbn [fAssigned set_fAssigned] in Hnot. rewrite Has_in_app in Hnot.
          apply orb_false_elim in Hnot. destruct Hnot as [H1 H2]. split; trivial.
          simpl in H2. destruct (Nat.eqb_spec (Track (fst t')) (Track (fst t))); [discriminate|].
          trivial. }
        exists (t :: added). repeat split.
        -- now rewrite <- app_assoc.
        -- apply incl_cons; [now left|now apply incl_tl].
        -- intros t' [<-|Hin]; [trivial|now apply Hnew].
        -- simpl. constructor; trivial. intros Hin. apply in_map_iff in Hin.
           destruct Hin as (t' & Ht' & Hin). now apply Hnew in Hin.
        -- apply Hr in H. destruct H as [-> _]. simpl List.length. lia.
        -- intros t' [<-|Hin].
           ++ unfold Has. cbn [fAssigned set_fAssigned]. rewrite !Has_in_app. simpl.
              rewrite Nat.eqb_refl. now rewrite orb_true_r.
           ++ now apply (Hr ntrk').
Qed.

(** X13. Whatever [MergeWith(other)] returns, the assigned set it leaves is
    the one it found followed by entries of [other] whose tracks the candidate
    did not have, each track once: nothing is removed or reordered, and a
    candidate that held each track once still does.  The minimum segment
    length and the [tracksJoined] flag are not touched.  When it returns
    [true] at least one entry was appended, the candidate has every track of
    [other], the centres were within the distance limit and the stored
    residual is below 1. *)
Theorem MergeWith_extends (g : G) (c other : VtxCandidate) (b : bool) (c' : VtxCandidate) :
  MergeWith g c other = Ok (b, c') ->
  fSegMinLength c' = fSegMinLength c
  /\ tracksJoined c' = tracksJoined c
  /\ (NoDup (tracks_of (fAssigned c)) -> NoDup (tracks_of (fAssigned c')))
  /\ exists added,
      fAssigned c' = fAssigned c ++ added
      /\ incl added (fAssigned other)
      /\ (forall t, In t added -> Has c (Track (fst t)) = false)
      /\ NoDup (tracks_of added)
      /\ (b = true ->
          added <> []
          /\ Has_candidate c' other = true
          /\ (PrimFloat.sqrt (Dist2 (fCenter c) (fCenter other)) >? 10.0) = false
          /\ (fMse c' <? 1.0) = true).
Proof.
  intros H.
  assert (forall added,
             incl added (fAssigned other) ->
             (forall t, In t added -> Has c (Track (fst t)) = false) ->
             NoDup (tracks_of added) ->
             fSegMinLength c' = fSegMinLength c ->
             tracksJoined c' = tracksJoined c ->
             fAssigned c' = fAssigned c ++ added ->
             (b = true ->
              added <> []
              /\ Has_candidate c' other = true
              /\ (PrimFloat.sqrt (Dist2 (fCenter c) (fCenter other)) >? 10.0) = false
              /\ (fMse c' <? 1.0) = true) ->
             fSegMinLength c' = fSegMinLength c
             /\ tracksJoined c' = tracksJoined c
             /\ (NoDup (tracks_of (fAssigned c)) -> NoDup (tracks_of (fAssigned c')))
             /\ exists added,
                 fAssigned c' = fAssigned c ++ added
                 /\ incl added (fAssigned other)
                 /\ (forall t, In t added -> Has c (Track (fst t)) = false)
                 /\ NoDup (tracks_of added)
                 /\ (b = true ->
                     added <> []
                     /\ Has_candidate c' other = true
                     /\ (PrimFloat.sqrt (Dist2 (fCenter c) (fCenter other)) >? 10.0) = false
                     /\ (fMse c' <? 1.0) = true)) as Hpack.
  { intros added Hincl Hnot Hnd Hs Ht Ha Hb. repeat split; trivial.
    - intros Nd. rewrite Ha, tracks_of_app. apply NoDup_app; trivial.
      intros x Hx Hx'. apply Has_in_In in Hx. apply in_map_iff in Hx'.
      destruct Hx' as (t & <- & Hin). apply Hnot in Hin. unfold Has in Hin. congruence.
    - exists added. repeat split; trivial; now apply Hb. }
  unfold MergeWith in H.
  destruct (PrimFloat.sqrt (Dist2 (fCenter c) (fCenter other)) >? 10) eqn:Hd.
  { injection H as <- <-. apply (Hpack []); try easy.
    - constructor.
    - now rewrite app_nil_r. }
  unbind H as [c1 scanned] Happ. apply MergeWith_append_full in Happ.
  destruct Happ as (added & -> & Hincl & Hnot & Hnd & Hr).
  destruct scanned as [ntrk|].
  - destruct (Hr ntrk eq_refl) as [-> Hall]. rewrite Z.add_0_l in H.
    destruct (Z.eqb_spec (Z.of_nat (List.length added)) 0) as [E|E]; simpl in H.
    + injection H as <- <-. apply (Hpack added); trivial. discriminate.
    + unbind H as [mse c2] HC. pose proof HC as Hsame. apply Compute_same_members in Hsame.
      apply Compute_Ok in HC. destruct HC as (center & err & _ & ->).
      destruct (mse <? 1) eqn:Hm.
      * unbind H as mse2d H2. injection H as <- <-. apply (Hpack added); trivial.
        intros _. repeat split; trivial.
        -- intros ->. now apply E.
        -- apply Has_all_spec. exact Hall.
      * unbind H as c3 Hfit. injection H as <- <-.
        pose proof (refit_same_members _ _ _ Hfit) as (_ & Hs & Ht).
        apply refit_Consistent in Hfit. destruct Hfit as [_ HA].
        cbn [fAssigned set_fit set_fAssigned fSegMinLength tracksJoined] in *.
        rewrite Nat2Z.id, pop_back_n_app in HA.
        apply (Hpack []); trivial; try easy.
        -- constructor.
        -- now rewrite app_nil_r.
  - injection H as <- <-. apply (Hpack added); trivial. discriminate.
Qed.

(** X14. Merging a candidate whose tracks the candidate all has already does
    nothing: [MergeWith] returns [false] and leaves the candidate as it is,
    whenever it returns.  So does merging a candidate with itself. *)
Theorem MergeWith_subset_unchanged (g : G) (c other : VtxCandidate) (b : bool)
  (c' : VtxCandidate) :
  Has_candidate c other = true ->
  MergeWith g c other = Ok (b, c') ->
  b = false /\ c' = c.
Proof.
  intros Hsub H.
  assert (forall others ntrk c1 r,
             Has_all c others = true ->
             MergeWith_append g c others ntrk = Ok (c1, r) ->
             c1 = c /\ (r = None \/ r = Some ntrk)) as Hloop.
  { induction others as [|t rest IH]; simpl; intros ntrk c1 r Hall Happ.
    - injection Happ as <- <-. auto.
    - unbind Happ as attached Hatt. destruct attached.
      + injection Happ as <- <-. auto.
      + destruct (Has c (Track (fst t))); simpl in Hall, Happ; [|discriminate].
        now apply IH in Happ. }
  unfold MergeWith in H.
  destruct (PrimFloat.sqrt (Dist2 (fCenter c) (fCenter other)) >? 10).
  { now injection H as <- <-. }
  unbind H as [c1 scanned] Happ. apply Hloop in Happ; trivial.
  destruct Happ as [-> [->| ->]]; simpl in H; now injection H as <- <-.
Qed.

(** ** The steps of [JoinTracks] *)



Ltac attach_cases H :=
  repeat match type of H with
  | bind ?m _ = Ok _ =>
      let a := fresh "a" in
      let E := fresh "E" in
      destruct m as [a| |] eqn:E; [cbn [bind] in H|discriminate H|discriminate H]
  | (if ?b then _ else _) = Ok _ => let E := fresh "E" in destruct b eqn:E
  | (let '(_, _) := ?p in _) = Ok _ => let E := fresh "E" in destruct p eqn:E
  | match ?o with Some _ => _ | None => _ end = Ok _ =>
      let E := fresh "E" in destruct o eqn:E
  end.

(** One turn of the attaching loop leaves a vertex node when there was one,
    and the first turn sets it. *)
Lemma JoinTracks_attach_center (c : VtxCandidate) (i : Z) (e : TrkCandidate * Z)
  (st st' : Joining G) :
  JoinTracks_attach c i e st = Ok st' ->
  is_some (j_vtxCenter st) = true
  \/ (i = 0%Z /\ j_hasInnerCenter st = false /\ j_vtxCenter st = None) ->
  is_some (j_vtxCenter st') = true.
Proof.
  intros H Hpre. unfold JoinTracks_attach in H. cbv zeta in H.
  attach_cases H.
  all: injection H as <-; cbn [j_vtxCenter].
  all: try reflexivity.
  all: destruct Hpre as [Hs|(-> & Hin & Hno)]; [exact Hs|].
  all: try discriminate.
  rewrite Hin, Hno in *. discriminate.
Qed.


Lemma JoinTracks_attach_all_center (c : VtxCandidate) (rest : list (TrkCandidate * Z)) :
  forall i st st',
    JoinTracks_attach_all c rest i st = Ok st' ->
    rest <> [] ->
    is_some (j_vtxCenter st) = true
    \/ (i = 0%Z /\ j_hasInnerCenter st = false /\ j_vtxCenter st = None) ->
    is_some (j_vtxCenter st') = true.
Proof.
  induction rest as [|e rest IH]; simpl; intros i st st' H Hne Hpre; [now destruct Hne|].
  unbind H as st1 H1. apply JoinTracks_attach_center in H1; trivial.
  destruct rest as [|e' rest].
  - simpl in H. now injection H as <-.
  - apply IH in H; auto. discriminate.
Qed.


(** What the last step of [JoinTracks] answers, case by case. *)
Lemma JoinTracks_finish_cases (c : VtxCandidate) (src : list TrkCandidate) (st : Joining G)
  (r : JoinResult G) :
  JoinTracks_finish c src st = Ok r ->
  js_src (jr_state r) = src
  /\ (j_vtxCenter st = None ->
      r = mkResult false (Some "Cannot create common vertex"%string)
            (mkJoin c (j_g st) (j_tracks st) src))
  /\ (is_some (j_vtxCenter st) = true ->
      jr_error r = None
      /\ ((jr_result r = false /\ js_c (jr_state r) = c)
          \/ committed_at c st (js_c (jr_state r))))
  /\ (jr_result r = true ->
      js_tracks (jr_state r) = j_tracks st
      /\ committed_at c st (js_c (jr_state r))).
Proof.
  unfold JoinTracks_finish. intros H.
  destruct (j_vtxCenter st) as [vtxCenter|] eqn:Hv.
  - assert (committed_at c st (commit c (node_Point3D (j_g st) vtxCenter))) as Hc.
    { exists vtxCenter. rewrite Hv. repeat split. }
    unbind H as rootTrk Hroot.
    destruct (trk_GetBranches (j_g st) rootTrk) as [noLoops branchesToRemove].
    destruct (noLoops && (j_nOK st >? 1)%Z) eqn:Hok.
    + apply andb_prop in Hok. destruct Hok as [-> _].
      destruct (trk_TuneFullTree (j_g st) rootTrk) as [tune g'].
      destruct (tune >? -2); simpl in H.
      * injection H as <-. simpl. repeat split; try easy; auto.
      * destruct (JoinTracks_remove g' (j_tracks st) branchesToRemove) as [g2 tracks2].
        injection H as <-. simpl. repeat split; try easy; auto.
    + destruct (negb (noLoops && true)).
      * destruct (JoinTracks_remove (j_g st) (j_tracks st) branchesToRemove) as [g2 tracks2].
        injection H as <-. simpl. repeat split; try easy; auto.
      * injection H as <-. simpl. repeat split; try easy; auto.
  - injection H as <-. simpl. repeat split; try easy.
Qed.

(** X15. [JoinTracks] logs "Cannot create common vertex" for a candidate
    without tracks and for no other: on a first call with an empty assigned
    set it sets the flag, logs that error and returns [false], and nothing
    else changes; with a non-empty assigned set the attaching loop leaves a
    vertex node and a call that returns logs no error. *)
Theorem JoinTracks_no_vertex_iff_empty (s : JoinState G) :
  tracksJoined (js_c s) = false ->
  (fAssigned (js_c s) = [] ->
   JoinTracks s
   = Ok (mkResult false (Some "Cannot create common vertex"%string) (flagged s)))
  /\ (forall r, fAssigned (js_c s) <> [] -> JoinTracks s = Ok r -> jr_error r = None).
Proof.
  intros Hflag. unfold JoinTracks. rewrite Hflag. fold (flagged s). split.
  - intros He. unfold JoinTracks_splice. simpl. rewrite He. reflexivity.
  - intros r Hne H. unbind H as [src st] Hs. unfold JoinTracks_splice in Hs.
    cbn [js_c flagged fAssigned set_tracksJoined js_tracks js_src js_g] in Hs.
    destruct (JoinTracks_move (fAssigned (js_c s)) (js_tracks s) (js_src s)) as [tracks src1].
    unbind Hs as st1 Ha. injection Hs as <- <-.
    apply JoinTracks_attach_all_center in Ha; auto.
    apply JoinTracks_finish_cases in H. now apply H.
Qed.


(** X17. What a first call of [JoinTracks] that returns does to the
    candidate.  It sets the flag.  When it returns [true] it has also
    cleared the assigned set, set both residuals to zero and set the centre
    to the point that the vertex node has when the attaching loop ends, and
    it logs no error; the candidate had tracks.  When it returns [false] the
    candidate is either only flagged, or flagged and committed in the same
    way (the tree is tuned after the commit). *)
Theorem JoinTracks_commits (s : JoinState G) (r : JoinResult G) :
  tracksJoined (js_c s) = false ->
  JoinTracks s = Ok r ->
  exists src st,
    JoinTracks_splice (flagged s) = Ok (src, st)
    /\ tracksJoined (js_c (jr_state r)) = true
    /\ (jr_result r = true ->
        fAssigned (js_c s) <> []
        /\ jr_error r = None
        /\ committed_at (js_c (flagged s)) st (js_c (jr_state r)))
    /\ (jr_result r = false ->
        js_c (jr_state r) = js_c (flagged s)
        \/ committed_at (js_c (flagged s)) st (js_c (jr_state r))).
Proof.
  intros Hflag H. unfold JoinTracks in H. rewrite Hflag in H. fold (flagged s) in H.
  unbind H as [src st] Hs. exists src, st. split; trivial.
  unfold JoinTracks_splice in Hs.
  cbn [js_c flagged fAssigned set_tracksJoined js_tracks js_src js_g] in Hs.
  destruct (JoinTracks_move (fAssigned (js_c s)) (js_tracks s) (js_src s)) as [tracks src1].
  unbind Hs as st1 Ha. injection Hs as <- <-.
  apply JoinTracks_finish_cases in H. destruct H as (_ & Hnone & Hsome & Htrue).
  destruct (fAssigned (js_c s)) as [|e rest] eqn:He.
  - simpl in Ha. injection Ha as <-. rewrite (Hnone eq_refl). simpl.
    split; [reflexivity|]. split; [discriminate|]. intros _. now left.
  - apply JoinTracks_attach_all_center in Ha; auto; [|discriminate].
    destruct (Hsome Ha) as [Herr Hc]. split; [|split].
    + destruct Hc as [[_ ->]|(v & _ & _ & _ & _ & _ & _ & _ & ->)]; reflexivity.
    + intros Hr. repeat split; trivial; [discriminate|]. now apply Htrue.
    + intros _. destruct Hc as [[_ Hc]|Hc]; auto.
Qed.

(** The first turn of the attaching loop counts one attachment. *)
Lemma JoinTracks_attach_first (c : VtxCandidate) (e : TrkCandidate * Z) (st st' : Joining G) :
  JoinTracks_attach c 0 e st = Ok st' ->
  j_hasInnerCenter st = false ->
  j_vtxCenter st = None ->
  j_nOK st' = (j_nOK st + 1)%Z.
Proof.
  intros H Hin Hno. unfold JoinTracks_attach in H. cbv zeta in H.
  rewrite Hin, Hno in H. cbn [orb negb] in H. change (0 =? 0)%Z with true in H.
  change (0 >? 0)%Z with false in H. cbv iota in H.
  attach_cases H.
  all: now injection H as <-.
Qed.

Lemma JoinTracks_finish_few (c : VtxCandidate) (src : list TrkCandidate) (st : Joining G)
  (r : JoinResult G) :
  JoinTracks_finish c src st = Ok r ->
  (j_nOK st >? 1)%Z = false ->
  jr_result r = false /\ js_c (jr_state r) = c.
Proof.
  unfold JoinTracks_finish. intros H Hn.
  destruct (j_vtxCenter st) as [vtxCenter|].
  - unbind H as rootTrk Hroot.
    destruct (trk_GetBranches (j_g st) rootTrk) as [noLoops branchesToRemove].
    rewrite Hn, andb_false_r in H.
    destruct (negb (noLoops && true)).
    + destruct (JoinTracks_remove (j_g st) (j_tracks st) branchesToRemove) as [g2 tracks2].
      now injection H as <-.
    + now injection H as <-.
  - now injection H as <-.
Qed.

(** X20. [JoinTracks] commits no candidate with fewer than two tracks: the
    one turn of the attaching loop counts one attachment, and two are asked
    for.  A first call that returns then returns [false] and leaves the
    candidate as it was but for the flag. *)
Theorem JoinTracks_needs_two_tracks (s : JoinState G) (r : JoinResult G) :
  tracksJoined (js_c s) = false ->
  (List.length (fAssigned (js_c s)) <= 1)%nat ->
  JoinTracks s = Ok r ->
  jr_result r = false /\ js_c (jr_state r) = js_c (flagged s).
Proof.
  intros Hflag Hlen H. unfold JoinTracks in H. rewrite Hflag in H. fold (flagged s) in H.
  unbind H as [src st] Hs. unfold JoinTracks_splice in Hs.
  cbn [js_c flagged fAssigned set_tracksJoined js_tracks js_src js_g] in Hs.
  destruct (JoinTracks_move (fAssigned (js_c s)) (js_tracks s) (js_src s)) as [tracks src1].
  unbind Hs as st1 Ha. injection Hs as <- <-.
  apply JoinTracks_finish_few in H; trivial.
  destruct (fAssigned (js_c s)) as [|e [|e' rest]]; simpl in Hlen; [| |lia].
  - simpl in Ha. now injection Ha as <-.
  - simpl in Ha. unbind Ha as st2 H1. injection Ha as <-.
    apply JoinTracks_attach_first in H1; trivial. now rewrite H1.
Qed.

End Properties.

(** * The properties on the scenes *)

Import Scene.

(** C1 at a failing input.  The candidate holds track A; [other] holds an
    independent track B and then a track C that is a branch of A.  The loop
    of [MergeWith] appends B, finds C attached and returns [false] at once:
    the candidate is left with B in its assigned set. *)
Theorem MergeWith_attached_keeps_appended :
  MergeWith merge_graph merge_this merge_other
  = Ok (false, set_fAssigned merge_this [(trkA, 0%Z); (trkB, 0%Z)])
  /\ fAssigned merge_this = [(trkA, 0%Z)].
Proof. split; reflexivity. Qed.

(** ** Runs *)

Lemma scan_pair_built :
  Add scan_graph (fresh 0.5) trkA = Ok (true, scan_one)
  /\ Add scan_graph scan_one trkB = Ok (true, scan_pair)
  /\ Add scan_graph scan_pair trkC = Ok (true, scan_three).
Proof. repeat split; vm_compute; reflexivity. Qed.

Lemma scenes_built :
  fAssigned join_pair = [(trkA, 0%Z); (trkB, 0%Z)]
  /\ fAssigned angle_three = [(trkA, 0%Z); (trkB, 0%Z); (trkC, 0%Z)]
  /\ fAssigned opposite_pair = [(trkA, 0%Z); (trkB, 0%Z)].
Proof. repeat split. Qed.

Lemma merge_candidates_built :
  Add merge_graph (fresh 0.5) trkA = Ok (true, merge_this)
  /\ (exists c, Add merge_graph (fresh 0.5) trkB = Ok (true, c)
                /\ Add merge_graph c trkC = Ok (true, merge_other)).
Proof.
  split; [vm_compute; reflexivity|].
  eexists. split; [vm_compute; reflexivity|]. vm_compute. reflexivity.
Qed.

Lemma float_neq (a b : float) : (a =? b) = false -> is_nan b = false -> a <> b.
Proof.
  intros E N ->. unfold is_nan in N. rewrite E in N. discriminate.
Qed.

(** ** C5 *)

(** C5 fails on the first track: [Add] accepts it and returns without a fit,
    the derived state stays at its initial zeros, while a fit of the new
    assigned set returns the residual [1.0E+6]. *)
Lemma first_Add_not_recomputed :
  Add scan_graph (fresh 0.5) trkA = Ok (true, scan_one)
  /\ Compute scan_graph scan_one = Ok (1.0E+6, scan_one)
  /\ fMse scan_one = 0
  /\ ~ Consistent scan_graph scan_one.
Proof.
  repeat split; try (vm_compute; reflexivity).
  intros [H _]. assert (E : Compute scan_graph scan_one = Ok (1.0E+6, scan_one))
    by (vm_compute; reflexivity).
  rewrite E in H.
  apply (f_equal (fun o => match o with Ok (m, _) => m | _ => 0 end)) in H.
  revert H. now apply float_neq.
Qed.

Lemma derived_state_recomputed_witness : Consistent scan_graph scan_three.
Proof.
  apply (proj1 (derived_state_recomputed scan_graph scan_pair) trkC true scan_three).
  - reflexivity.
  - vm_compute; reflexivity.
  - left. simpl. lia.
Defined.

(** ** C6 *)

Lemma JoinTracks_one_shot_witness :
  exists r,
    JoinTracks (mkJoin (set_tracksJoined join_pair true) (join_graph true 0) [trkA; trkB] [])
    = Ok r
    /\ jr_result r = false
    /\ jr_error r = Some "Tracks already attached to the vertex."%string
    /\ jr_state r
       = mkJoin (set_tracksJoined join_pair true) (join_graph true 0) [trkA; trkB] [].
Proof.
  apply (JoinTracks_one_shot
           (mkJoin (set_tracksJoined join_pair true) (join_graph true 0) [trkA; trkB] [])).
  left. reflexivity.
Defined.

(** ** C7 *)

(** C7 fails at [dy = segLength = +oo], which is in its range
    [segLength >= |dy| > 0]: the quotient is NaN, and so is the weight, which
    passes the test [w < 0.3] and is not at least [0.3]. *)
Lemma segment_weight_infinite :
  (0 <? abs infinity) = true
  /\ (abs infinity <=? infinity) = true
  /\ is_nan (abs infinity / infinity) = true
  /\ is_nan (segment_weight infinity infinity) = true
  /\ (0.3 <=? segment_weight infinity infinity) = false.
Proof. repeat split. Qed.

Lemma segment_weight_floor_witness :
  (0 <=? abs 1 / 2) = true
  /\ (abs 1 / 2 <=? 1) = true
  /\ (0.3 <=? segment_weight 1 2) = true.
Proof.
  apply (proj2 (proj2 (proj2 (proj2 (segment_weight_floor (G := SceneGraph) 1 2))))).
  - reflexivity.
  - reflexivity.
  - reflexivity.
  - intros _ _. vm_compute. reflexivity.
  - intros _. vm_compute. reflexivity.
Defined.

(** ** C8 *)

Lemma Compute_idempotent_witness :
  exists m' c2,
    Compute scan_graph scan_pair = Ok (m', c2)
    /\ m' = 0 /\ fCenter c2 = fCenter scan_pair /\ fErr c2 = fErr scan_pair
    /\ c2 = scan_pair.
Proof.
  apply (Compute_idempotent scan_graph scan_pair scan_pair 0).
  vm_compute. reflexivity.
Defined.

(** ** C9 *)

(** C9 fails when the solver answers an empty set of lines with a negative
    residual, as the one of the scene does: [Compute] on a candidate with no
    assigned track returns [1.0E+6] before any division, with [fCenter] and
    [fErr] at zero. *)
Lemma Compute_empty_finite :
  fAssigned (fresh 0.5) = []
  /\ Compute scan_graph (fresh 0.5) = Ok (1.0E+6, fresh 0.5)
  /\ fCenter (fresh 0.5) = v3_zero
  /\ fErr (fresh 0.5) = v3_zero.
Proof. repeat split. Qed.

Lemma Compute_nothing_to_fit_witness :
  ((fst (SolveLeastSquares3D []) <? 0) = false ->
   Compute scan_graph (fresh 0.5)
   = Ok (fst (SolveLeastSquares3D []),
         set_fit (fresh 0.5) (mkV3 nan nan nan) (mkV3 nan nan nan)))
  /\ ((fst (SolveLeastSquares3D []) <? 0) = true ->
      Compute scan_graph (fresh 0.5) = Ok (1.0E+6, set_fit (fresh 0.5) v3_zero v3_zero)).
Proof.
  apply (Compute_nothing_to_fit scan_graph (fresh 0.5)). constructor.
Defined.

(** ** C10 *)

Lemma MaxAngle_empty_witness :
  MaxAngle_bound (fresh 0.5) = 18446744073709551615%Z
  /\ at_ (fAssigned (fresh 0.5)) 0 = Undefined
  /\ MaxAngle angle_graph (fresh 0.5) 1 = Undefined.
Proof.
  apply (MaxAngle_empty angle_graph (fresh 0.5) 1). reflexivity.
Defined.

(** ** C2 *)

(** C2 fails when fewer than two attachments succeed and no loop is found.
    Track A gives the vertex node, the attachment of track B is refused:
    [nOK] is 1, the root track A has the one branch A, and [JoinTracks]
    returns [false] with A and B both left in [tracks] and nothing deleted. *)
Lemma JoinTracks_one_attachment_keeps_tracks :
  exists (st : Joining SceneGraph) (r : JoinResult SceneGraph),
    JoinTracks_splice (flagged (join_start false 0)) = Ok ([], st)
    /\ j_nOK st = 1%Z
    /\ j_vtxCenter st = Some 0%nat
    /\ JoinTracks_root (j_g st) 0%nat = Ok 0%nat
    /\ trk_GetBranches (j_g st) 0%nat = (true, [0%nat])
    /\ JoinTracks (join_start false 0) = Ok r
    /\ jr_result r = false
    /\ js_tracks (jr_state r) = [trkA; trkB]
    /\ sg_deleted (js_g (jr_state r)) = [].
Proof.
  eexists. eexists.
  split; [vm_compute; reflexivity|].
  repeat split; vm_compute; reflexivity.
Qed.

Lemma JoinTracks_failed_commit_witness :
  exists r,
    JoinTracks (join_start true (-2)) = Ok r
    /\ jr_result r = false
    /\ js_tracks (jr_state r)
       = filter (fun t => negb (is_branch [0%nat] (Track t))) (j_tracks join_diverged)
    /\ (forall b, In b [0%nat] -> ~ In b (map Track (js_tracks (jr_state r))))
    /\ js_g (jr_state r)
       = fold_left trk_delete (filter (holds (j_tracks join_diverged)) [0%nat])
           (if true then snd (trk_TuneFullTree (j_g join_diverged) 0%nat)
            else j_g join_diverged).
Proof.
  refine (proj1 (JoinTracks_failed_commit (join_start true (-2)) [] join_diverged
                   0%nat 0%nat true [0%nat] eq_refl _ eq_refl eq_refl eq_refl _ _) _).
  - vm_compute. reflexivity.
  - vm_compute. repeat constructor; simpl; intuition discriminate.
  - repeat constructor. simpl. tauto.
  - right. split; vm_compute; reflexivity.
Defined.

(** ** C4 *)

(** C4 fails on three tracks of lengths 5, 3 and 10 with [minLength = 1]: the
    longest track is the last one, at index 2, but the first loop of
    [MaxAngle] stops before the last entry and takes index 0 as reference.
    Against that reference the least absolute cosine is 0, against the
    direction of the longest track it is 0.6.  It fails, too, on two tracks
    that point opposite ways: the cosine of their directions is -1, an angle
    of 180 degrees, and [MaxAngle] passes 1 to [acos] and returns 0. *)
Lemma MaxAngle_reference_not_longest :
  (spec_longest opposite_graph 1 (fAssigned opposite_pair) 0 None = Some (0%Z, 5)
   /\ MaxAngle_reference opposite_graph opposite_pair = Ok (mkLongest (mkV3 1 0 0) 0 5)
   /\ segment_dir opposite_graph (trkB, 0%Z) = Ok (mkV3 (-1) 0 0)
   /\ v3_dot (mkV3 1 0 0) (mkV3 (-1) 0 0) = -1
   /\ MaxAngle_min opposite_graph 1 (mkLongest (mkV3 1 0 0) 0 5)
        (fAssigned opposite_pair) 0 1 = Ok 1
   /\ MaxAngle opposite_graph opposite_pair 1 = Ok 0)
  /\ spec_longest angle_graph 1 (fAssigned angle_three) 0 None = Some (2%Z, 10)
  /\ MaxAngle_reference angle_graph angle_three = Ok (mkLongest (mkV3 1 0 0) 0 5)
  /\ MaxAngle_min angle_graph 1 (mkLongest (mkV3 1 0 0) 0 5) (fAssigned angle_three) 0 1
     = Ok 0
  /\ segment_dir angle_graph (trkC, 0%Z)
     = Ok (mkV3 0.60000000000000009 0.80000000000000004 0)
  /\ MaxAngle_min angle_graph 1
       (mkLongest (mkV3 0.60000000000000009 0.80000000000000004 0) 2 10)
       (fAssigned angle_three) 0 1
     = Ok 0.60000000000000009.
Proof. repeat split; vm_compute; reflexivity. Qed.

Lemma MaxAngle_largest_unsigned_witness :
  exists m,
    angle_value = 180.0 * acos m / Pi
    /\ (0 <=? m) = true /\ (m <=? 1.0) = true
    /\ (forall j e dir_j,
          nth_error (fAssigned angle_three) j = Some e ->
          other_long angle_graph 1 (mkLongest (mkV3 1 0 0) 0 5) (Z.of_nat j) e ->
          segment_dir angle_graph e = Ok dir_j ->
          (abs (v3_dot (dir_i (mkLongest (mkV3 1 0 0) 0 5)) dir_j) <? m) = false)
    /\ (m = 1.0
        \/ exists j e dir_j,
             nth_error (fAssigned angle_three) j = Some e
             /\ other_long angle_graph 1 (mkLongest (mkV3 1 0 0) 0 5) (Z.of_nat j) e
             /\ segment_dir angle_graph e = Ok dir_j
             /\ m = abs (v3_dot (dir_i (mkLongest (mkV3 1 0 0) 0 5)) dir_j)).
Proof.
  apply (MaxAngle_largest_unsigned angle_graph angle_three 1
           (mkLongest (mkV3 1 0 0) 0 5) angle_value);
    vm_compute; reflexivity.
Defined.

(** ** C3 *)

(** C3 fails on [scan_graph].  Both segments of the third track are long
    enough and give a residual below 16; the second one is at a smaller
    distance from the fitted centre than the first.  [Add] accepts the first
    one all the same, because the residual of the second one is not below
    the residual of the first. *)
Lemma Add_keeps_first_improvement :
  exists m0 d0 m1 d1,
    Add scan_graph scan_pair trkC = Ok (true, scan_three)
    /\ fAssigned scan_three = [(trkA, 0%Z); (trkB, 0%Z); (trkC, 0%Z)]
    /\ Add_fit_at scan_graph scan_pair trkC 0 = Ok (Some (m0, d0))
    /\ Add_fit_at scan_graph scan_pair trkC 1 = Ok (Some (m1, d1))
    /\ (m1 <? kMaxDistToTrack * kMaxDistToTrack) = true
    /\ (d1 <? d0) = true
    /\ (m1 <? m0) = false.
Proof.
  do 4 eexists.
  split; [vm_compute; reflexivity|].
  split; [reflexivity|].
  split; [vm_compute; reflexivity|].
  split; [vm_compute; reflexivity|].
  repeat split; vm_compute; reflexivity.
Qed.

(** On [scan_graph] the rule of the search ends with segment 0 and with no
    other one: not with segment 1, the one at the least distance. *)
Lemma Add_rule_on_scan :
  search_ends_at scan_graph scan_pair trkC 2 0 1.3888888888888891 1.3333333333333335
  /\ forall mse d, ~ search_ends_at scan_graph scan_pair trkC 2 1 mse d.
Proof.
  assert (search_ends_at scan_graph scan_pair trkC 2 0
            1.3888888888888891 1.3333333333333335) as H0.
  { split; [|split; [lia|]].
    - apply first_best.
      + lia.
      + vm_compute. reflexivity.
      + vm_compute. reflexivity.
      + vm_compute. reflexivity.
      + intros n mse' d' Hn. lia.
    - intros n mse' d' Hn Hfit [Hm Hd]. assert (n = 1%Z) as -> by lia.
      assert (Add_fit_at scan_graph scan_pair trkC 1
              = Ok (Some (2, 1.6653345369377348e-16))) as E by (vm_compute; reflexivity).
      rewrite E in Hfit.
      apply (f_equal (fun o => match o with Ok (Some p) => fst p | _ => mse' end)) in Hfit.
      simpl in Hfit. subst mse'. vm_compute in Hm. discriminate. }
  split; trivial. intros mse d H1.
  pose proof (search_ends_unique scan_graph scan_pair trkC 2 0 1 _ _ _ _ H0 H1) as E.
  discriminate.
Qed.

Lemma Add_third_or_later_witness :
  Consistent scan_graph scan_three
  /\ exists n mse d,
       fAssigned scan_three = fAssigned scan_pair ++ [(trkC, n)]
       /\ (0 <= n < size_sub (size (trk_Nodes scan_graph (Track trkC))) 1)%Z
       /\ Add_fit_at scan_graph scan_pair trkC n = Ok (Some (mse, d))
       /\ (mse <? kMaxDistToTrack * kMaxDistToTrack) = true
       /\ (d <? kMaxDistToTrack) = true
       /\ no_better scan_graph scan_pair trkC
            (size_sub (size (trk_Nodes scan_graph (Track trkC))) 1) mse d
       /\ search_ends_at scan_graph scan_pair trkC
            (size_sub (size (trk_Nodes scan_graph (Track trkC))) 1) n mse d
       /\ (forall n' mse' d',
             search_ends_at scan_graph scan_pair trkC
               (size_sub (size (trk_Nodes scan_graph (Track trkC))) 1) n' mse' d' ->
             n' = n).
Proof.
  apply (Add_third_or_later scan_graph scan_pair trkC true scan_three).
  - simpl. lia.
  - reflexivity.
  - vm_compute. reflexivity.
Defined.

(** ** The further properties *)

Lemma further_runs :
  Add far_graph scan_one trkB = Ok (false, far_rejected)
  /\ Add scan_graph (fresh 0.5) trkB = Ok (true, scan_other)
  /\ MergeWith scan_graph scan_one scan_other = Ok (true, scan_pair)
  /\ JoinTracks (join_start true 0) = Ok join_done
  /\ jr_result join_done = true.
Proof. repeat split; vm_compute; reflexivity. Qed.

Lemma IsAttached_candidate_iff_witness :
  true = true
  <-> exists t,
       In t (fAssigned merge_other)
       /\ IsAttached merge_graph merge_this (Track (fst t)) = Ok true.
Proof.
  apply (IsAttached_candidate_iff merge_graph merge_this merge_other true).
  vm_compute. reflexivity.
Defined.

Lemma HasLoops_rooted_witness :
  exists b,
    HasLoops scan_graph scan_pair = Ok b
    /\ (b = true
        <-> exists t u e_t e_u trk_t trk_u,
             t <> u
             /\ nth_error (fAssigned scan_pair) t = Some e_t
             /\ nth_error (fAssigned scan_pair) u = Some e_u
             /\ trk_GetRoot scan_graph (Track (fst e_t)) = Some trk_t
             /\ trk_GetRoot scan_graph (Track (fst e_u)) = Some trk_u
             /\ trk_IsAttachedTo scan_graph trk_t trk_u = true).
Proof.
  apply (HasLoops_rooted scan_graph scan_pair).
  repeat constructor; vm_compute; discriminate.
Defined.

Lemma Size_counts_longer_witness :
  Size scan_graph scan_three 5
  = size (filter (fun e => trk_Length scan_graph (Track (fst e)) >? 5)
                 (fAssigned scan_three))
  /\ (0 <= Size scan_graph scan_three 5 <= size (fAssigned scan_three))%Z.
Proof.
  apply (Size_counts_longer scan_graph scan_three 5). vm_compute. reflexivity.
Defined.

Lemma Compute_residual_and_frame_witness :
  (fMse scan_three <? 0) = false
  /\ scan_three = set_fit scan_three (fCenter scan_three) (fErr scan_three).
Proof.
  apply (Compute_residual_and_frame scan_graph scan_three scan_three (fMse scan_three)).
  vm_compute. reflexivity.
Defined.

Lemma Add_members_witness :
  map fst (fAssigned scan_three) = map fst (fAssigned scan_pair) ++ [trkC]
  /\ fSegMinLength scan_three = fSegMinLength scan_pair
  /\ tracksJoined scan_three = tracksJoined scan_pair
  /\ (true = true ->
      IsAttached scan_graph scan_pair (Track trkC) = Ok false
      /\ Has scan_three (Track trkC) = true).
Proof.
  apply (Add_members scan_graph scan_pair trkC true scan_three).
  vm_compute. reflexivity.
Defined.

Lemma Add_keeps_tracks_distinct_witness :
  (Has scan_pair (Track trkA) = true -> false = false /\ scan_pair = scan_pair)
  /\ (NoDup (tracks_of (fAssigned scan_pair)) -> NoDup (tracks_of (fAssigned scan_pair))).
Proof.
  apply (Add_keeps_tracks_distinct scan_graph scan_pair trkA false scan_pair).
  - intros r. simpl. apply Nat.eqb_refl.
  - vm_compute. reflexivity.
Defined.

Lemma Add_first_track_witness :
  (true = true <-> has_long_segment scan_graph (Track trkA) (fSegMinLength (fresh 0.5)))
  /\ scan_one = set_fAssigned (fresh 0.5) [(trkA, 0%Z)].
Proof.
  apply (Add_first_track scan_graph (fresh 0.5) trkA true scan_one).
  - reflexivity.
  - vm_compute. reflexivity.
Defined.

Lemma Add_track_without_nodes_witness :
  size_sub (size (trk_Nodes bare_graph (Track trkA))) 1 = 18446744073709551615%Z
  /\ Add bare_graph (fresh 0.5) trkA = Undefined.
Proof.
  apply (Add_track_without_nodes bare_graph (fresh 0.5) trkA).
  - reflexivity.
  - reflexivity.
  - simpl. discriminate.
Defined.

Lemma Add_second_track_rejected_witness :
  map fst (fAssigned far_rejected) = map fst (fAssigned scan_one)
  /\ fCenter far_rejected = v3_zero
  /\ fMse far_rejected = 0
  /\ fMse2D far_rejected = 0.
Proof.
  apply (Add_second_track_rejected far_graph scan_one trkB far_rejected).
  - reflexivity.
  - reflexivity.
  - vm_compute. reflexivity.
Defined.

Lemma MergeWith_extends_witness :
  fSegMinLength scan_pair = fSegMinLength scan_one
  /\ tracksJoined scan_pair = tracksJoined scan_one
  /\ (NoDup (tracks_of (fAssigned scan_one)) -> NoDup (tracks_of (fAssigned scan_pair)))
  /\ exists added,
      fAssigned scan_pair = fAssigned scan_one ++ added
      /\ incl added (fAssigned scan_other)
      /\ (forall t, In t added -> Has scan_one (Track (fst t)) = false)
      /\ NoDup (tracks_of added)
      /\ (true = true ->
          added <> []
          /\ Has_candidate scan_pair scan_other = true
          /\ (PrimFloat.sqrt (Dist2 (fCenter scan_one) (fCenter scan_other)) >? 10.0) = false
          /\ (fMse scan_pair <? 1.0) = true).
Proof.
  apply (MergeWith_extends scan_graph scan_one scan_other true scan_pair).
  vm_compute. reflexivity.
Defined.

Lemma MergeWith_subset_unchanged_witness : false = false /\ scan_pair = scan_pair.
Proof.
  apply (MergeWith_subset_unchanged scan_graph scan_pair scan_one false scan_pair).
  - vm_compute. reflexivity.
  - vm_compute. reflexivity.
Defined.

Lemma JoinTracks_no_vertex_iff_empty_witness :
  (fAssigned (js_c join_empty) = [] ->
   JoinTracks join_empty
   = Ok (mkResult false (Some "Cannot create common vertex"%string) (flagged join_empty)))
  /\ (forall r,
        fAssigned (js_c join_empty) <> [] -> JoinTracks join_empty = Ok r -> jr_error r = None).
Proof.
  apply (JoinTracks_no_vertex_iff_empty join_empty). reflexivity.
Defined.


Lemma JoinTracks_commits_witness :
  exists src st,
    JoinTracks_splice (flagged (join_start true 0)) = Ok (src, st)
    /\ tracksJoined (js_c (jr_state join_done)) = true
    /\ (jr_result join_done = true ->
        fAssigned (js_c (join_start true 0)) <> []
        /\ jr_error join_done = None
        /\ committed_at (js_c (flagged (join_start true 0))) st (js_c (jr_state join_done)))
    /\ (jr_result join_done = false ->
        js_c (jr_state join_done) = js_c (flagged (join_start true 0))
        \/ committed_at (js_c (flagged (join_start true 0))) st (js_c (jr_state join_done))).
Proof.
  apply (JoinTracks_commits (join_start true 0) join_done).
  - reflexivity.
  - vm_compute. reflexivity.
Defined.

Lemma Compute_skips_short_witness :
  Compute scan_graph short_pair
  = Ok (0, set_fit short_pair v3_zero (mkV3 0.73824115301167004 1 1)).
Proof.
  apply (Compute_skips_short scan_graph short_three short_pair
           [(trkA, 0%Z); (trkB, 0%Z)] [] (trkC, 0%Z) 0
           (set_fit short_three v3_zero (mkV3 0.73824115301167004 1 1))).
  - reflexivity.
  - reflexivity.
  - reflexivity.
  - exists 4%nat, 4%nat. repeat split; vm_compute; reflexivity.
  - vm_compute. reflexivity.
Defined.

Lemma JoinTracks_needs_two_tracks_witness :
  jr_result join_single_done = false
  /\ js_c (jr_state join_single_done) = js_c (flagged join_single).
Proof.
  apply (JoinTracks_needs_two_tracks join_single join_single_done).
  - reflexivity.
  - simpl. lia.
  - vm_compute. reflexivity.
Defined.
